(** * metanno: the text layout engine of [TextComponent/tokenize.tsx]

    A shallow embedding of [chunkText], [styleTextChunks_],
    [tokenizeTextChunks] and [tokenize], and the properties of the layout
    they compute.

    Conventions of the embedding:
    - a JS number holding a text offset or a depth is a [Z];
    - a JS string is a [string], one character per code unit, and
      [String.length] is its [.length];
    - an optional field, and a field that can hold [null], is an [option];
    - the style table [{ [key: string]: PreprocessedStyle }] is a
      [gmap string PreprocessedStyle] holding its own entries; it is an
      ordinary object, so that [styles[name]] also finds the members of
      [Object.prototype] ([lookup_style] below); the [Set<number>] of chunk
      indices is a [gset nat];
    - reading a property of [undefined] raises a [TypeError]: fallible code
      lives in the [result] monad below.

    Numbers.  A JS number is a double.  On integers of magnitude below
    [2^53] its sums and differences are those of [Z], and its decimal text
    is the plain numeral up to [10^21].  The definitions compute in [Z];
    a statement that reads an offset computed by an addition, or the text
    of a number, carries the hypothesis that the offsets it is given are
    such integers ([JS.safe_integer] below). *)

From Stdlib Require Import ZArith Ascii String Lia.
From stdpp Require Import base option list sorting gmap sets strings pretty.

Open Scope Z_scope.
#[local] Set Warnings "-clear-no-such-hyp".

(** ** Exceptions *)

Inductive result (A : Type) : Type :=
| Ok (a : A)
| TypeError.
Arguments Ok {A} a.
Arguments TypeError {A}.

#[global] Instance result_ret : MRet result := λ A, Ok.
#[global] Instance result_bind : MBind result := λ A B k m,
  match m with
  | Ok a => k a
  | TypeError => TypeError
  end.

(** [Array.prototype.forEach] with a callback that may throw. *)
Fixpoint forEach {A S} (f : S → A → result S) (l : list A) (s : S) : result S :=
  match l with
  | [] => Ok s
  | x :: l' => s' ← f s x; forEach f l' s'
  end.

(** ** Data model (types.ts and the top of tokenize.tsx) *)

Record SpanData := {
  span_begin : Z;
  span_end : Z;
  span_mouseSelected : bool;
  span_id : option string;
  span_label : option string;
  span_style : option string;
  span_selected : option bool;
  span_highlighted : option bool;
}.

(** A span after [tokenize] attached its [text] slice to a copy of it. *)
Record TextSpan := {
  span_data :> SpanData;
  span_text : string;
}.

(** The [CSSProperties] fields [base] and [highlighted] are never read by
    the layout and are left out. *)
Record PreprocessedStyle := {
  labelPosition : option string;
  autoNestingLayout : bool;
  shape : string;
}.

Record TokenAnnotation := {
  depth : option Z;
  zIndex : option Z;
  openleft : bool;
  openright : bool;
  isFirstTokenOfSpan : bool;
  ann_label : option string;
  ann_style : option string;
  ann_id : option string;
  ann_selected : option bool;
  ann_highlighted : option bool;
  ann_mouseSelected : bool;
  ann_text : string;
}.

Record TextChunk := {
  chunk_begin : Z;
  chunk_end : Z;
  chunk_label : option string;
  token_annotations : list TokenAnnotation;
  tokens : list string;
}.

Record TokenData := {
  td_text : string;
  key : string;
  td_begin : Z;
  td_end : Z;
  td_token_annotations : list TokenAnnotation;
  isFirstTokenOfChunk : bool;
  isLastTokenOfChunk : bool;
}.

Record Tokenized := {
  lines : list (list TokenData);
  ids : list (option string);
}.

(** ** JavaScript primitives used by the source *)

Module JS.

(** [Array.prototype.sort(cmp)]: a stable sort, the element [x] staying
    in front of [y] whenever [cmp x y <= 0]. *)
Section Sort.
Context {A : Type} (cmp : A → A → Z).

Fixpoint insert (x : A) (l : list A) : list A :=
  match l with
  | [] => [x]
  | y :: l' => if decide (cmp x y <= 0) then x :: l else y :: insert x l'
  end.

Fixpoint sort (l : list A) : list A :=
  match l with
  | [] => []
  | x :: l' => insert x (sort l')
  end.
End Sort.

(** [[...new Set(l)]]: the distinct values of [l], by first occurrence. *)
Definition set_add (acc : list Z) (x : Z) : list Z :=
  if decide (x ∈ acc) then acc else acc ++ [x].
Definition spread_set (l : list Z) : list Z := foldl set_add [] l.

(** [String.prototype.slice(b, e)] on integer arguments. *)
Fixpoint str_drop (n : nat) (s : string) : string :=
  match n, s with
  | S n', String _ s' => str_drop n' s'
  | _, _ => s
  end.
Fixpoint str_take (n : nat) (s : string) : string :=
  match n, s with
  | S n', String c s' => String c (str_take n' s')
  | _, _ => EmptyString
  end.
Definition clamp_index (len k : Z) : Z :=
  if decide (k < 0) then Z.max (len + k) 0 else Z.min k len.
Definition slice (s : string) (b e : Z) : string :=
  let len := Z.of_nat (String.length s) in
  let from := clamp_index len b in
  let to := clamp_index len e in
  str_take (Z.to_nat (to - from)) (str_drop (Z.to_nat from) s).

(** [s.match(/\n|[^ \n]+|[ ]+/g)]: the successive matches, each the
    longest run of its alternative starting where the previous one ended.
    Every character starts one of the three alternatives, so no position
    is skipped.  The scan is driven by a fuel that [length s] covers. *)
Definition newline : ascii := Ascii.ascii_of_nat 10.
Definition space : ascii := Ascii.ascii_of_nat 32.
Definition is_word_char (c : ascii) : bool :=
  negb (Ascii.eqb c space) && negb (Ascii.eqb c newline).
Definition is_space (c : ascii) : bool := Ascii.eqb c space.

Fixpoint run (p : ascii → bool) (s : string) : string * string :=
  match s with
  | String c s' =>
      if p c then let '(r, rest) := run p s' in (String c r, rest)
      else (EmptyString, s)
  | EmptyString => (EmptyString, EmptyString)
  end.

Fixpoint match_loop (fuel : nat) (s : string) : list string :=
  match fuel, s with
  | S fuel', String c s' =>
      if Ascii.eqb c newline then
        String c EmptyString :: match_loop fuel' s'
      else if is_word_char c then
        let '(r, rest) := run is_word_char s' in
        String c r :: match_loop fuel' rest
      else
        let '(r, rest) := run is_space s' in
        String c r :: match_loop fuel' rest
  | _, _ => []
  end.
Definition match_tokens (s : string) : list string :=
  match_loop (String.length s) s.

(** [Number.isSafeInteger] on an integer: the sums and the differences of
    doubles are exact as long as their operands and their results are safe
    integers. *)
Definition safe_integer (x : Z) : Prop := - 2 ^ 53 < x < 2 ^ 53.

(** Template literal interpolation of an integer of magnitude below
    [10^21], as every safe integer is: its plain decimal numeral. *)
Definition number_to_string (z : Z) : string := pretty z.

(** [arr[i] = true] on an array of flags: writing past the end extends
    the array with holes; a hole reads [undefined], here [false]. *)
Definition array_set (arr : list bool) (i : nat) : list bool :=
  if decide (i < length arr)%nat then <[i := true]> arr
  else arr ++ replicate (i - length arr) false ++ [true].

(** [arr.findIndex(filled => !filled)]. *)
Fixpoint findIndex_not (arr : list bool) : option nat :=
  match arr with
  | [] => None
  | b :: arr' => if b then S <$> findIndex_not arr' else Some 0%nat
  end.

End JS.

(** ** chunkText *)

Definition boundary_indices (spans : list TextSpan) (text : string) : list Z :=
  flat_map (λ s : TextSpan, [span_begin s; span_end s]) spans
    ++ [0; Z.of_nat (String.length text)].

Definition sorted_indices (spans : list TextSpan) (text : string) : list Z :=
  JS.sort (λ a b, a - b) (JS.spread_set (boundary_indices spans text)).

Definition chunk_tokens (text_slice : string) : list string :=
  if decide (0 < String.length text_slice)%nat then
    filter (λ t, 0 < String.length t)%nat (JS.match_tokens text_slice)
  else [EmptyString].

Definition make_chunk (text : string) (b e : Z) : TextChunk :=
  {| chunk_begin := b;
     chunk_end := e;
     chunk_label := None;
     token_annotations := [];
     tokens := chunk_tokens (JS.slice text b e) |}.

Fixpoint chunks_between (text : string) (indices : list Z) : list TextChunk :=
  match indices with
  | b :: (e :: _) as rest => make_chunk text b e :: chunks_between text rest
  | _ => []
  end.

Definition chunkText (spans : list TextSpan) (text : string) : list TextChunk :=
  chunks_between text (sorted_indices spans text).

(** ** styleTextChunks_ *)

Abbreviation StyleTable := (gmap string PreprocessedStyle).

(** The property names that an ordinary object inherits from
    [Object.prototype]. *)
Definition Object_prototype : list string :=
  ["constructor"; "hasOwnProperty"; "isPrototypeOf"; "propertyIsEnumerable";
   "toLocaleString"; "toString"; "valueOf"; "__proto__";
   "__defineGetter__"; "__defineSetter__"; "__lookupGetter__";
   "__lookupSetter__"].

(** What [styles[style]] holds when it is not [undefined]: an entry of the
    table, or a member of [Object.prototype] (a function, or for
    ["__proto__"] the prototype itself), on which [shape] and
    [autoNestingLayout] read [undefined]. *)
Inductive StyleValue :=
| OwnStyle (ps : PreprocessedStyle)
| Inherited.

(** [v.shape === 'underline'] *)
Definition underline_shaped (v : StyleValue) : bool :=
  match v with
  | OwnStyle ps => bool_decide (shape ps = "underline")
  | Inherited => false
  end.

(** [v.autoNestingLayout !== false] *)
Definition nests_automatically (v : StyleValue) : bool :=
  match v with
  | OwnStyle ps => autoNestingLayout ps
  | Inherited => true
  end.

(** [styles[style]]: an absent [style] is the property key ["undefined"];
    an own entry shadows an inherited member; [None] is [undefined]. *)
Definition style_key (style : option string) : string := default "undefined" style.
Definition lookup_style (styles : StyleTable) (style : option string)
  : option StyleValue :=
  match styles !! style_key style with
  | Some ps => Some (OwnStyle ps)
  | None =>
      if decide (style_key style ∈ Object_prototype) then Some Inherited
      else None
  end.

(** [styles?.[style]?.shape === 'underline'] *)
Definition is_underline (styles : StyleTable) (style : option string) : bool :=
  match lookup_style styles style with
  | Some v => underline_shaped v
  | None => false
  end.

(** [styles[style]?.autoNestingLayout !== false] *)
Definition auto_nesting (styles : StyleTable) (style : option string) : bool :=
  match lookup_style styles style with
  | Some v => nests_automatically v
  | None => true
  end.

(** The closure variables of [styleTextChunks_]. *)
Record Layout := {
  underlineCluster : gset nat;
  underlineClusterDepth : Z;
  rightMostOffset : Z;
}.

(** The per-span locals [newDepth] and [newZIndex]. *)
Record SpanLocals := {
  newDepth : option Z;
  newZIndex : option Z;
}.

(** The three indicator arrays of the depth computation. *)
Record Missing := {
  missingBoxDepths : list bool;
  missingUnderlineDepths : list bool;
  missingZIndices : list bool;
}.

(** A [null] operand of an arithmetic operator is the number 0. *)
Definition to_number (v : option Z) : Z := default 0 v.

Definition set_depth (d : option Z) (a : TokenAnnotation) : TokenAnnotation :=
  {| depth := d; zIndex := zIndex a; openleft := openleft a;
     openright := openright a; isFirstTokenOfSpan := isFirstTokenOfSpan a;
     ann_label := ann_label a; ann_style := ann_style a; ann_id := ann_id a;
     ann_selected := ann_selected a; ann_highlighted := ann_highlighted a;
     ann_mouseSelected := ann_mouseSelected a; ann_text := ann_text a |}.

Definition set_annotations (anns : list TokenAnnotation) (c : TextChunk) : TextChunk :=
  {| chunk_begin := chunk_begin c; chunk_end := chunk_end c;
     chunk_label := chunk_label c; token_annotations := anns;
     tokens := tokens c |}.

Definition set_label (l : option string) (c : TextChunk) : TextChunk :=
  {| chunk_begin := chunk_begin c; chunk_end := chunk_end c;
     chunk_label := l; token_annotations := token_annotations c;
     tokens := tokens c |}.

(** The body of the inner [forEach] of [reverseUnderlineClusterDepths]. *)
Definition reverse_annotation (styles : StyleTable) (clusterDepth : Z)
    (a : TokenAnnotation) : TokenAnnotation :=
  if is_underline styles (ann_style a)
  then set_depth (Some (to_number (depth a) - clusterDepth - 1)) a
  else a.

Definition reverse_chunk (styles : StyleTable) (clusterDepth : Z)
    (c : TextChunk) : TextChunk :=
  set_annotations (reverse_annotation styles clusterDepth <$> token_annotations c) c.

(** [underlineCluster.forEach] visits every index of the set once and each
    visit rewrites the annotations of one chunk, so that the order of the
    visits does not show in the result ([set_fold_alter_lookup] below). *)
Definition reverseUnderlineClusterDepths (styles : StyleTable) (st : Layout)
    (text_chunks : list TextChunk) : list TextChunk :=
  set_fold (λ text_chunk_i chunks,
              alter (reverse_chunk styles (underlineClusterDepth st)) text_chunk_i chunks)
           text_chunks (underlineCluster st).

(** [arr[v] = true]: only a non-negative integer [v] is an array index;
    [null] and negative numbers name ordinary properties, which neither
    [findIndex] nor [length] sees. *)
Definition mark (arr : list bool) (v : option Z) : list bool :=
  match v with
  | Some z => if decide (0 <= z) then JS.array_set arr (Z.to_nat z) else arr
  | None => arr
  end.

(** The [for ... of] over the annotations already on the chunk. *)
Fixpoint scan_annotations (styles : StyleTable) (anns : list TokenAnnotation)
    (m : Missing) : result Missing :=
  match anns with
  | [] => Ok m
  | a :: anns' =>
      if ann_mouseSelected a then scan_annotations styles anns' m
      else
        match lookup_style styles (ann_style a) with
        | None => TypeError
        | Some v =>
            let m' :=
              if underline_shaped v then
                {| missingBoxDepths := missingBoxDepths m;
                   missingUnderlineDepths := mark (missingUnderlineDepths m) (depth a);
                   missingZIndices := mark (missingZIndices m) (zIndex a) |}
              else
                {| missingBoxDepths := mark (missingBoxDepths m) (depth a);
                   missingUnderlineDepths := missingUnderlineDepths m;
                   missingZIndices := mark (missingZIndices m) (zIndex a) |} in
            scan_annotations styles anns' m'
        end
  end.

(** [arr.findIndex(isNot)], replaced by [arr.length] when it is -1. *)
Definition first_missing (arr : list bool) : Z :=
  match JS.findIndex_not arr with
  | Some i => Z.of_nat i
  | None => Z.of_nat (length arr)
  end.

(** Lines 100-116: the depth and the z-index of a span, from the
    annotations of its first overlapping chunk. *)
Definition assign_depths (styles : StyleTable) (style : option string)
    (anns : list TokenAnnotation) : result SpanLocals :=
  m ← scan_annotations styles anns
        {| missingBoxDepths := [false];
           missingUnderlineDepths := [false];
           missingZIndices := [false] |};
  match lookup_style styles style with
  | None => TypeError
  | Some v =>
      Ok {| newDepth := Some (first_missing
                           (if underline_shaped v
                            then missingUnderlineDepths m
                            else missingBoxDepths m));
            newZIndex := Some (first_missing (missingZIndices m)) |}
  end.

Definition overlaps (c : TextChunk) (s : SpanData) : Prop :=
  chunk_begin c < span_end s ∧ span_begin s < chunk_end c.
#[global] Instance overlaps_dec c s : Decision (overlaps c s).
Proof. unfold overlaps. apply _. Defined.

Definition make_annotation (c : TextChunk) (s : TextSpan) (loc : SpanLocals)
  : TokenAnnotation :=
  {| depth := newDepth loc;
     openleft := bool_decide (chunk_begin c ≠ span_begin s);
     openright := bool_decide (chunk_end c ≠ span_end s);
     ann_label := span_label s;
     isFirstTokenOfSpan := bool_decide (chunk_begin c = span_begin s);
     ann_style := span_style s;
     zIndex := newZIndex loc;
     ann_id := span_id s;
     ann_selected := span_selected s;
     ann_highlighted := span_highlighted s;
     ann_mouseSelected := span_mouseSelected s;
     ann_text := span_text s |}.

(** The body of the [for] loop over [text_chunks], at index [text_chunk_i].
    Line 129 stores [newDepth] in [underlineClusterDepth]; it is read back
    as a number only. *)
Definition visit_chunk (styles : StyleTable) (s : TextSpan) (text_chunk_i : nat)
    (c : TextChunk) (loc : SpanLocals) (st : Layout)
  : result (TextChunk * SpanLocals * Layout) :=
  if decide (overlaps c s) then
    let cluster := {[text_chunk_i]} ∪ underlineCluster st in
    let c1 := if decide (chunk_begin c = span_begin s)
              then set_label (span_label s) c else c in
    loc' ← (if bool_decide (newDepth loc = None) && negb (span_mouseSelected s)
               && auto_nesting styles (span_style s)
            then assign_depths styles (span_style s) (token_annotations c1)
            else Ok loc);
    let annotation := make_annotation c1 s loc' in
    let clusterDepth :=
      if is_underline styles (span_style s)
         && bool_decide (underlineClusterDepth st < to_number (newDepth loc'))
      then to_number (newDepth loc')
      else underlineClusterDepth st in
    Ok (set_annotations (annotation :: token_annotations c1) c1,
        loc',
        {| underlineCluster := cluster;
           underlineClusterDepth := clusterDepth;
           rightMostOffset := rightMostOffset st |})
  else Ok (c, loc, st).

(** The [for] loop over [text_chunks], from index [text_chunk_i] on; [cs]
    are the chunks still to visit.  An iteration reads and writes its own
    chunk only. *)
Fixpoint visit_chunks (styles : StyleTable) (s : TextSpan) (text_chunk_i : nat)
    (cs : list TextChunk) (loc : SpanLocals) (st : Layout)
  : result (list TextChunk * SpanLocals * Layout) :=
  match cs with
  | [] => Ok ([], loc, st)
  | c :: cs' =>
      '(c', loc', st') ← visit_chunk styles s text_chunk_i c loc st;
      '(cs'', loc'', st'') ← visit_chunks styles s (S text_chunk_i) cs' loc' st';
      Ok (c' :: cs'', loc'', st'')
  end.

(** Lines 86-92: the cluster boundary test at the start of a span. *)
Definition open_cluster (styles : StyleTable) (s : TextSpan)
    (acc : list TextChunk * Layout) : list TextChunk * Layout :=
  let '(text_chunks, st) := acc in
  if decide (span_begin s >= rightMostOffset st) then
    (reverseUnderlineClusterDepths styles st text_chunks,
     {| underlineCluster := ∅;
        underlineClusterDepth := underlineClusterDepth st;
        rightMostOffset := span_end s |})
  else if decide (rightMostOffset st < span_end s) then
    (text_chunks,
     {| underlineCluster := underlineCluster st;
        underlineClusterDepth := underlineClusterDepth st;
        rightMostOffset := span_end s |})
  else (text_chunks, st).

(** The callback of [spans.forEach]. *)
Definition style_span (styles : StyleTable) (acc : list TextChunk * Layout)
    (s : TextSpan) : result (list TextChunk * Layout) :=
  let '(text_chunks, st) := open_cluster styles s acc in
  '(text_chunks', _, st') ←
    visit_chunks styles s 0 text_chunks {| newDepth := None; newZIndex := None |} st;
  Ok (text_chunks', st').

Definition initial_layout : Layout :=
  {| underlineCluster := ∅; underlineClusterDepth := 0; rightMostOffset := 0 |}.

Definition styleTextChunks_ (text_chunks : list TextChunk) (spans : list TextSpan)
    (styles : StyleTable) : result (list TextChunk) :=
  '(text_chunks', st) ← forEach (style_span styles) spans (text_chunks, initial_layout);
  Ok (reverseUnderlineClusterDepths styles st text_chunks').

(** ** tokenizeTextChunks *)

Record LineState := {
  all_lines : list (list TokenData);
  current_line : list TokenData;
  last_tokens : list string;
}.

Definition newline_token : string := String JS.newline EmptyString.

(** The object pushed on the current line (lines 154-168).  The sums are
    those of the source when [begin], the offset and the results are safe
    integers. *)
Definition make_token (c : TextChunk) (n_tokens token_i : nat)
    (offset_in_text_chunk : Z) (t : string) : TokenData :=
  let span_begin := chunk_begin c + offset_in_text_chunk in
  let span_end := chunk_begin c + offset_in_text_chunk + Z.of_nat (String.length t) in
  {| td_text := t;
     key := JS.number_to_string span_begin +:+ "-" +:+ JS.number_to_string span_end;
     td_begin := span_begin;
     td_end := span_end;
     td_token_annotations := token_annotations c;
     isFirstTokenOfChunk := bool_decide (token_i = 0%nat);
     isLastTokenOfChunk := bool_decide (Z.of_nat token_i = Z.of_nat n_tokens - 1) |}.

(** The inner [for] loop, from index [token_i] on; [toks] are the tokens
    still to visit. *)
Fixpoint split_tokens (c : TextChunk) (token_i : nat) (offset_in_text_chunk : Z)
    (toks : list string) (ls : LineState) : LineState :=
  match toks with
  | [] => ls
  | t :: toks' =>
      let ls' :=
        if decide (t = newline_token) then
          {| all_lines := all_lines ls ++ [current_line ls];
             current_line := [];
             last_tokens := last_tokens ls |}
        else
          {| all_lines := all_lines ls;
             current_line := current_line ls ++
               [make_token c (length (tokens c)) token_i offset_in_text_chunk t];
             last_tokens := last_tokens ls |} in
      split_tokens c (S token_i)
        (offset_in_text_chunk + Z.of_nat (String.length t)) toks' ls'
  end.

Definition split_chunk (ls : LineState) (c : TextChunk) : LineState :=
  split_tokens c 0 0 (tokens c)
    {| all_lines := all_lines ls; current_line := current_line ls;
       last_tokens := tokens c |}.

Definition tokenizeTextChunks (text_chunks : list TextChunk) : list (list TokenData) :=
  let ls := foldl split_chunk
              {| all_lines := []; current_line := []; last_tokens := [] |}
              text_chunks in
  if decide ((0 < length (current_line ls))%nat
             ∨ ((0 < length (last_tokens ls))%nat
                ∧ last (last_tokens ls) = Some newline_token))
  then all_lines ls ++ [current_line ls]
  else all_lines ls.

(** ** tokenize *)

Definition compare_spans (a b : SpanData) : Z :=
  if decide (span_mouseSelected a = span_mouseSelected b) then
    if decide (span_begin a ≠ span_begin b)
    then span_begin a - span_begin b
    else span_end b - span_end a
  else if span_mouseSelected a then -1 else 1.

Definition attach_text (text : string) (s : SpanData) : TextSpan :=
  {| span_data := s; span_text := JS.slice text (span_begin s) (span_end s) |}.

(** The local [spans] of [tokenize] after line 189. *)
Definition sorted_spans (spans : list SpanData) (text : string) : list TextSpan :=
  attach_text text <$> JS.sort compare_spans spans.

(** The chunks as [tokenizeTextChunks] receives them. *)
Definition styled_chunks (spans : list SpanData) (text : string)
    (styles : StyleTable) : result (list TextChunk) :=
  let spans' := sorted_spans spans text in
  styleTextChunks_ (chunkText spans' text) spans' styles.

(** [tokenize] reads and writes the array its caller passed: [sort] orders
    that very array in place, [map] then builds a new array of new objects.
    The first component is the content of the caller's array when
    [tokenize] is done (also when it throws), the second what it returns. *)
Definition tokenize_array (spans : list SpanData) (text : string)
    (styles : StyleTable) : list SpanData * result Tokenized :=
  let caller_array := JS.sort compare_spans spans in
  let spans' := attach_text text <$> caller_array in
  (caller_array,
   text_chunks ← styleTextChunks_ (chunkText spans' text) spans' styles;
   Ok {| lines := tokenizeTextChunks text_chunks;
         ids := (λ s : TextSpan, span_id s) <$> spans' |}).

Definition tokenize (spans : list SpanData) (text : string)
    (styles : StyleTable) : result Tokenized :=
  (tokenize_array spans text styles).2.

(** ** Sample inputs *)

Definition span (b e : Z) (ms : bool) (id style : string) : SpanData :=
  {| span_begin := b; span_end := e; span_mouseSelected := ms;
     span_id := Some id; span_label := None; span_style := Some style;
     span_selected := None; span_highlighted := None |}.

Definition sample_styles : StyleTable :=
  <["box" := {| labelPosition := None; autoNestingLayout := true; shape := "box" |}]>
  (<["under" := {| labelPosition := None; autoNestingLayout := true; shape := "underline" |}]>
  (<["fixedbox" := {| labelPosition := None; autoNestingLayout := false; shape := "box" |}]>
  (<["fixedunder" := {| labelPosition := None; autoNestingLayout := false; shape := "underline" |}]>
   ∅))).

(** * Properties *)

(** ** The sort *)

Section SortFacts.
Context {A : Type} (cmp : A → A → Z).
Let le (x y : A) : Prop := cmp x y <= 0.
Hypothesis cmp_total : ∀ x y, le x y ∨ le y x.
Hypothesis cmp_trans : ∀ x y z, le x y → le y z → le x z.

Lemma insert_perm x l : JS.insert cmp x l ≡ₚ x :: l.
Proof.
  induction l as [|y l IH]; simpl; [done|].
  case_decide; [done|]. rewrite IH. apply Permutation_swap.
Qed.

Lemma sort_perm l : JS.sort cmp l ≡ₚ l.
Proof.
  induction l as [|x l IH]; simpl; [done|].
  by rewrite insert_perm, IH.
Qed.

Lemma insert_sorted x l :
  StronglySorted le l → StronglySorted le (JS.insert cmp x l).
Proof using cmp_total cmp_trans.
  induction 1 as [|y l Hs IH Hy]; simpl.
  - repeat constructor.
  - case_decide as Hxy.
    + constructor; [by constructor|].
      constructor; [done|].
      eapply Forall_impl; [exact Hy|]. intros z Hz. by eapply cmp_trans.
    + constructor; [done|].
      rewrite insert_perm. constructor; [|done].
      destruct (cmp_total x y); [by destruct Hxy|done].
Qed.

Lemma sort_sorted l : StronglySorted le (JS.sort cmp l).
Proof using cmp_total cmp_trans.
  induction l; simpl; [constructor|by apply insert_sorted].
Qed.
End SortFacts.

Lemma StronglySorted_weaken {A} (R R' : A → A → Prop) (l : list A) :
  (∀ x y, R x y → R' x y) → StronglySorted R l → StronglySorted R' l.
Proof.
  intros HR. induction 1 as [|x l Hs IH Hx]; constructor; [done|].
  eapply Forall_impl; [exact Hx|]. auto.
Qed.

Lemma sort_numeric_sorted (l : list Z) :
  StronglySorted Z.le (JS.sort (λ a b, a - b) l).
Proof.
  eapply StronglySorted_weaken;
    [|apply (sort_sorted (λ a b : Z, a - b)); simpl; intros; lia].
  simpl. intros. lia.
Qed.

Lemma StronglySorted_impl_NoDup (l : list Z) :
  StronglySorted Z.le l → NoDup l → StronglySorted Z.lt l.
Proof.
  induction 1 as [|x l Hs IH Hx]; intros Hnd; [constructor|].
  apply NoDup_cons in Hnd as [Hx' Hnd].
  constructor; [by apply IH|].
  apply Forall_forall. intros y Hy.
  rewrite Forall_forall in Hx. specialize (Hx y Hy).
  assert (x ≠ y) by (intros ->; done). lia.
Qed.

(** ** The set of boundaries *)

Lemma spread_set_acc (l acc : list Z) :
  NoDup acc →
  NoDup (foldl JS.set_add acc l)
  ∧ ∀ x, x ∈ foldl JS.set_add acc l ↔ x ∈ acc ∨ x ∈ l.
Proof.
  revert acc. induction l as [|y l IH]; intros acc Hnd; simpl.
  - split; [done|]. intros x. rewrite elem_of_nil. tauto.
  - destruct (IH (JS.set_add acc y)) as [H1 H2].
    { unfold JS.set_add. case_decide; [done|].
      apply NoDup_app. split_and!; [done| |apply NoDup_singleton].
      intros x Hx ->%list_elem_of_singleton. done. }
    split; [done|]. intros x. rewrite H2, elem_of_cons.
    unfold JS.set_add. case_decide.
    + split; [intros [?|?]; auto|intros [?|[->|?]]; auto].
    + rewrite elem_of_app, list_elem_of_singleton. tauto.
Qed.

Lemma spread_set_NoDup l : NoDup (JS.spread_set l).
Proof. apply spread_set_acc. constructor. Qed.

Lemma elem_of_spread_set l x : x ∈ JS.spread_set l ↔ x ∈ l.
Proof.
  unfold JS.spread_set. destruct (spread_set_acc l [] (NoDup_nil_2)) as [_ H].
  rewrite H, elem_of_nil. tauto.
Qed.

Lemma sorted_indices_sorted spans text :
  StronglySorted Z.lt (sorted_indices spans text).
Proof.
  apply StronglySorted_impl_NoDup; [apply sort_numeric_sorted|].
  unfold sorted_indices. rewrite sort_perm. apply spread_set_NoDup.
Qed.

Lemma elem_of_sorted_indices spans text x :
  x ∈ sorted_indices spans text ↔ x ∈ boundary_indices spans text.
Proof. unfold sorted_indices. by rewrite sort_perm, elem_of_spread_set. Qed.

Lemma elem_of_boundary_indices spans text x :
  x ∈ boundary_indices spans text ↔
    x = 0 ∨ x = Z.of_nat (String.length text)
    ∨ ∃ s : TextSpan, s ∈ spans ∧ (x = span_begin s ∨ x = span_end s).
Proof.
  unfold boundary_indices.
  rewrite elem_of_app, !elem_of_cons, elem_of_nil, list_elem_of_In, in_flat_map.
  split.
  - intros [(s & Hs & Hx)|[?|[?|[]]]]; auto.
    right; right. exists s. apply list_elem_of_In in Hs.
    simpl in Hx. destruct Hx as [<-|[<-|[]]]; auto.
  - intros [?|[?|(s & Hs & Hx)]]; auto.
    left. exists s. apply list_elem_of_In in Hs. simpl.
    destruct Hx as [->| ->]; auto.
Qed.

(** ** The shape of the chunk list *)

(** The part of a chunk the layout never changes. *)
Definition frame (c : TextChunk) : Z * Z * list string :=
  (chunk_begin c, chunk_end c, tokens c).

Lemma elem_of_chunks_between text l c :
  c ∈ chunks_between text l →
  ∃ l1 l2 b e, l = l1 ++ b :: e :: l2 ∧ c = make_chunk text b e.
Proof.
  induction l as [|b [|e l] IH]; simpl; try by rewrite elem_of_nil.
  rewrite elem_of_cons. intros [->|Hc].
  - by exists [], l, b, e.
  - destruct (IH Hc) as (l1 & l2 & b' & e' & Hl & ->).
    exists (b :: l1), l2, b', e'. by rewrite Hl.
Qed.

Lemma sorted_neighbours (l1 l2 : list Z) b e :
  StronglySorted Z.lt (l1 ++ b :: e :: l2) →
  b < e ∧ ∀ x, x ∈ l1 ++ b :: e :: l2 → x <= b ∨ e <= x.
Proof.
  induction l1 as [|y l1 IH]; simpl; intros Hs.
  - apply StronglySorted_inv in Hs as [Hs Hb].
    apply StronglySorted_inv in Hs as [Hs He].
    rewrite Forall_forall in Hb, He.
    split; [apply Hb; left|].
    intros x. rewrite !elem_of_cons. intros [->|[->|Hx]]; [lia..|].
    right. by apply Z.lt_le_incl, He.
  - apply StronglySorted_inv in Hs as [Hs Hy].
    destruct (IH Hs) as [Hbe Hl]. split; [done|].
    intros x. rewrite elem_of_cons. intros [->|Hx]; [|by apply Hl].
    left. rewrite Forall_forall in Hy. apply Z.lt_le_incl, Hy.
    rewrite elem_of_app. right. left.
Qed.

Lemma chunkText_no_boundary_inside spans text c x :
  c ∈ chunkText spans text → x ∈ boundary_indices spans text →
  chunk_begin c < chunk_end c ∧ (x <= chunk_begin c ∨ chunk_end c <= x).
Proof.
  intros Hc Hx. apply elem_of_chunks_between in Hc as (l1 & l2 & b & e & Hl & ->).
  pose proof (sorted_indices_sorted spans text) as Hs. rewrite Hl in Hs.
  apply sorted_neighbours in Hs as [Hbe Hin]. split; [done|].
  simpl. apply Hin. rewrite <- Hl. by apply elem_of_sorted_indices.
Qed.

Definition chunk_before (c c' : TextChunk) : Prop := chunk_end c <= chunk_begin c'.

Lemma chunks_between_ordered text l :
  StronglySorted Z.lt l → StronglySorted chunk_before (chunks_between text l).
Proof.
  induction 1 as [|b l Hs IH Hb]; simpl; [constructor|].
  destruct l as [|e l]; [constructor|].
  constructor; [done|].
  apply Forall_forall. intros c Hc.
  apply elem_of_chunks_between in Hc as (l1 & l2 & b' & e' & Hl & ->).
  unfold chunk_before. simpl.
  destruct l1 as [|y l1]; simplify_eq/=; [lia|].
  apply StronglySorted_inv in Hs as [_ Hs]. rewrite Forall_forall in Hs.
  apply Z.lt_le_incl, Hs. rewrite elem_of_app. right. left.
Qed.

Lemma chunkText_ordered spans text :
  StronglySorted chunk_before (chunkText spans text).
Proof. apply chunks_between_ordered, sorted_indices_sorted. Qed.

Lemma chunks_between_starting_at text l x y :
  StronglySorted Z.lt l → x ∈ l → y ∈ l → x < y →
  ∃ c, c ∈ chunks_between text l ∧ chunk_begin c = x ∧ chunk_end c <= y.
Proof.
  induction 1 as [|b l Hs IH Hb]; [by rewrite elem_of_nil|].
  rewrite Forall_forall in Hb.
  rewrite !elem_of_cons. intros [->|Hx] Hy Hxy.
  - destruct Hy as [->|Hy]; [lia|].
    destruct l as [|e l]; [by apply elem_of_nil in Hy|].
    exists (make_chunk text b e). simpl. split_and!; [left|done|].
    apply elem_of_cons in Hy as [->|Hy]; [done|].
    apply StronglySorted_inv in Hs as [_ He]. rewrite Forall_forall in He.
    by apply Z.lt_le_incl, He.
  - destruct Hy as [->|Hy].
    { apply Hb in Hx. lia. }
    destruct (IH Hx Hy Hxy) as (c & Hc & ?).
    exists c. split; [|done].
    destruct l; [by apply elem_of_nil in Hx|]. by right.
Qed.

Lemma chunkText_overlapping_chunk spans text (s : TextSpan) :
  s ∈ spans → span_begin s < span_end s →
  ∃ c, c ∈ chunkText spans text ∧ overlaps c s.
Proof.
  intros Hs Hlt.
  destruct (chunks_between_starting_at text (sorted_indices spans text)
              (span_begin s) (span_end s)) as (c & Hc & Hb & He);
    [apply sorted_indices_sorted| | |done|].
  - apply elem_of_sorted_indices, elem_of_boundary_indices. eauto 6.
  - apply elem_of_sorted_indices, elem_of_boundary_indices. eauto 6.
  - exists c. split; [done|]. unfold overlaps.
    pose proof (chunkText_no_boundary_inside spans text c 0 Hc) as [? _].
    { apply elem_of_boundary_indices. auto. }
    lia.
Qed.

(** Within the chunk list, overlapping a chunk is containing it. *)
Lemma chunkText_overlaps_iff spans text c (s : TextSpan) :
  c ∈ chunkText spans text → s ∈ spans →
  overlaps c s ↔ span_begin s <= chunk_begin c ∧ chunk_end c <= span_end s.
Proof.
  intros Hc Hs. unfold overlaps.
  destruct (chunkText_no_boundary_inside spans text c (span_begin s) Hc) as [? ?].
  { apply elem_of_boundary_indices. eauto 6. }
  destruct (chunkText_no_boundary_inside spans text c (span_end s) Hc) as [_ ?].
  { apply elem_of_boundary_indices. eauto 6. }
  lia.
Qed.

(** ** Strings: slices and the token scanner *)

Definition concat_tokens (l : list string) : string := foldr String.append EmptyString l.

Lemma append_cons c (s t : string) : String c s +:+ t = String c (s +:+ t).
Proof. reflexivity. Qed.

Lemma append_empty_l (t : string) : "" +:+ t = t.
Proof. reflexivity. Qed.

Lemma append_empty_r (s : string) : s +:+ "" = s.
Proof. induction s as [|c s IH]; [done|]. by rewrite append_cons, IH. Qed.

Lemma append_assoc (s1 s2 s3 : string) : (s1 +:+ s2) +:+ s3 = s1 +:+ s2 +:+ s3.
Proof. induction s1 as [|c s1 IH]; [done|]. by rewrite !append_cons, IH. Qed.

Local Ltac str_simpl := simpl; rewrite ?append_cons, ?append_empty_l, ?append_empty_r.

Lemma concat_tokens_app l1 l2 :
  concat_tokens (l1 ++ l2) = concat_tokens l1 +:+ concat_tokens l2.
Proof.
  induction l1 as [|t l1 IH]; simpl; [done|]. by rewrite IH, append_assoc.
Qed.

Lemma str_take_all (s : string) n :
  (String.length s <= n)%nat → JS.str_take n s = s.
Proof.
  revert n. induction s as [|c s IH]; intros [|n] ?; simpl in *; try done; try lia.
  f_equal. apply IH. lia.
Qed.

Lemma str_drop_drop (s : string) n m :
  JS.str_drop m (JS.str_drop n s) = JS.str_drop (n + m) s.
Proof.
  revert s. induction n as [|n IH]; intros s; simpl; [done|].
  destruct s; simpl; [by destruct m|done].
Qed.

Lemma str_take_app (s : string) n m :
  JS.str_take n s +:+ JS.str_take m (JS.str_drop n s) = JS.str_take (n + m) s.
Proof.
  revert s. induction n as [|n IH]; intros s; str_simpl; [done|].
  destruct s; str_simpl; [by destruct m|]. by rewrite IH.
Qed.

Lemma slice_in_range (s : string) b e :
  0 <= b <= e → e <= Z.of_nat (String.length s) →
  JS.slice s b e = JS.str_take (Z.to_nat (e - b)) (JS.str_drop (Z.to_nat b) s).
Proof.
  intros ? ?. unfold JS.slice, JS.clamp_index.
  repeat case_decide; try lia. do 2 f_equal; lia.
Qed.

Lemma slice_app (s : string) b e z :
  0 <= b <= e → e <= z <= Z.of_nat (String.length s) →
  JS.slice s b e +:+ JS.slice s e z = JS.slice s b z.
Proof.
  intros ? ?. rewrite !slice_in_range by lia.
  replace (Z.to_nat e) with (Z.to_nat b + Z.to_nat (e - b))%nat by lia.
  rewrite <- str_drop_drop, str_take_app. f_equal. lia.
Qed.

Lemma slice_whole (s : string) : JS.slice s 0 (Z.of_nat (String.length s)) = s.
Proof. rewrite slice_in_range by lia. simpl. apply str_take_all. lia. Qed.

Lemma run_spec p s r rest :
  JS.run p s = (r, rest) →
  r +:+ rest = s ∧ (String.length rest <= String.length s)%nat.
Proof.
  revert r rest. induction s as [|c s IH]; intros r rest; simpl.
  - intros [= <- <-]. done.
  - destruct (p c).
    + destruct (JS.run p s) as [r' rest'] eqn:Hrun. intros [= <- <-].
      destruct (IH _ _ eq_refl) as [<- ?]. split; [done|simpl; lia].
    + intros [= <- <-]. done.
Qed.

Lemma match_loop_concat fuel s :
  (String.length s <= fuel)%nat → concat_tokens (JS.match_loop fuel s) = s.
Proof.
  revert s. induction fuel as [|fuel IH]; intros [|c s] Hlen; simpl in *;
    try done; try lia.
  destruct (Ascii.eqb c JS.newline).
  - str_simpl. rewrite IH by lia. done.
  - destruct (JS.is_word_char c).
    + destruct (JS.run JS.is_word_char s) as [r rest] eqn:Hrun.
      apply run_spec in Hrun as [<- ?]. str_simpl.
      by rewrite IH by lia.
    + destruct (JS.run JS.is_space s) as [r rest] eqn:Hrun.
      apply run_spec in Hrun as [<- ?]. str_simpl.
      by rewrite IH by lia.
Qed.

Lemma concat_tokens_filter_nonempty l :
  concat_tokens (filter (λ t, 0 < String.length t)%nat l) = concat_tokens l.
Proof.
  induction l as [|t l IH]; [done|].
  rewrite filter_cons. case_decide as Ht; simpl; [by rewrite IH|].
  destruct t; simpl in *; [by rewrite append_empty_l|lia].
Qed.

Lemma chunk_tokens_concat sl : concat_tokens (chunk_tokens sl) = sl.
Proof.
  unfold chunk_tokens. case_decide as Hlen.
  - rewrite concat_tokens_filter_nonempty. by apply match_loop_concat.
  - destruct sl; simpl in *; [done|lia].
Qed.

Lemma chunk_tokens_nonempty sl : chunk_tokens sl ≠ [].
Proof.
  unfold chunk_tokens. case_decide as Hlen; [|done].
  destruct sl as [|c s]; simpl in *; [lia|].
  unfold JS.match_tokens. simpl.
  destruct (Ascii.eqb c JS.newline); [by rewrite filter_cons_True by (simpl; lia)|].
  destruct (JS.is_word_char c).
  - destruct (JS.run JS.is_word_char s). by rewrite filter_cons_True by (simpl; lia).
  - destruct (JS.run JS.is_space s). by rewrite filter_cons_True by (simpl; lia).
Qed.

(** ** chunkText: the chunks tile the text *)

Lemma chunks_between_cons text b e l :
  chunks_between text (b :: e :: l)
  = make_chunk text b e :: chunks_between text (e :: l).
Proof. done. Qed.

Lemma sorted_last_bound (l : list Z) e :
  StronglySorted Z.lt (e :: l) → e <= default e (last (e :: l)).
Proof.
  intros [_ He]%StronglySorted_inv. rewrite Forall_forall in He.
  destruct (last (e :: l)) as [z|] eqn:Hz; simpl; [|lia].
  apply last_Some_elem_of in Hz. apply elem_of_cons in Hz as [->|Hz]; [lia|].
  by apply Z.lt_le_incl, He.
Qed.

Lemma chunks_between_concat text l b :
  StronglySorted Z.lt l →
  (∀ x, x ∈ l → 0 <= x <= Z.of_nat (String.length text)) →
  head l = Some b →
  concat_tokens (flat_map tokens (chunks_between text l))
  = JS.slice text b (default b (last l)).
Proof.
  intros Hs. revert b. induction Hs as [|x l Hs IH Hx]; intros b Hr Hb; [done|].
  simpl in Hb. simplify_eq.
  assert (0 <= b <= Z.of_nat (String.length text)) by (apply Hr; left).
  destruct l as [|e l].
  - simpl. rewrite slice_in_range by lia. by rewrite Z.sub_diag.
  - rewrite chunks_between_cons. cbn [flat_map make_chunk tokens].
    rewrite concat_tokens_app, chunk_tokens_concat.
    assert (∀ x, x ∈ e :: l → 0 <= x <= Z.of_nat (String.length text)) as Hr'.
    { intros x Hx'. apply Hr. by right. }
    rewrite (IH e Hr' eq_refl).
    rewrite Forall_forall in Hx.
    assert (default b (last (b :: e :: l)) = default e (last (e :: l))) as ->.
    { rewrite (last_cons_cons b e l), (last_cons e l). by destruct (last l). }
    pose proof (sorted_last_bound l e Hs).
    assert (default e (last (e :: l)) <= Z.of_nat (String.length text)).
    { destruct (last (e :: l)) as [z|] eqn:Hz; simpl.
      - apply last_Some_elem_of in Hz. apply Hr. by right.
      - apply Hr. right; left. }
    apply slice_app; [|lia].
    split; [lia|]. apply Z.lt_le_incl, Hx. left.
Qed.

Lemma sorted_head_min (l : list Z) x :
  StronglySorted Z.lt l → x ∈ l → (∀ y, y ∈ l → x <= y) → head l = Some x.
Proof.
  intros Hs Hx Hmin. destruct l as [|z l]; [by apply elem_of_nil in Hx|].
  simpl. f_equal. apply StronglySorted_inv in Hs as [_ Hz].
  rewrite Forall_forall in Hz.
  apply elem_of_cons in Hx as [->|Hx]; [done|].
  specialize (Hz x Hx). assert (x <= z) by (apply Hmin; left). lia.
Qed.

Lemma sorted_last_max (l : list Z) x :
  StronglySorted Z.lt l → x ∈ l → (∀ y, y ∈ l → y <= x) → last l = Some x.
Proof.
  induction 1 as [|z l Hs IH Hz]; intros Hx Hmax; [by apply elem_of_nil in Hx|].
  rewrite Forall_forall in Hz. rewrite last_cons.
  destruct l as [|z' l].
  - simpl. apply elem_of_cons in Hx as [->|Hx]; [done|by apply elem_of_nil in Hx].
  - rewrite IH; [done| |intros; apply Hmax; by right].
    apply elem_of_cons in Hx as [->|Hx]; [|done].
    assert (z < z') by (apply Hz; left).
    assert (z' <= z) by (apply Hmax; right; left). lia.
Qed.

Lemma length_chunks_between text l :
  length (chunks_between text l) = pred (length l).
Proof.
  induction l as [|b [|e l] IH]; [done..|].
  rewrite chunks_between_cons. simpl in *. by rewrite IH.
Qed.

Lemma length_sorted_indices spans text :
  length (sorted_indices spans text)
  = size (list_to_set (boundary_indices spans text) : gset Z).
Proof.
  unfold sorted_indices. rewrite sort_perm.
  rewrite <- (size_list_to_set (C := gset Z)) by apply spread_set_NoDup.
  f_equal. apply set_eq. intros x.
  by rewrite !elem_of_list_to_set, elem_of_spread_set.
Qed.

(** C6.  For spans within the text ([0 <= begin <= end <= text.length]),
    the tokens of all chunks of [chunkText], concatenated in order, are the
    text, and there is one chunk less than there are distinct boundary
    values: the set [boundaries] holds 0, the length of the text, and the
    [begin] and the [end] of every span, and nothing else. *)
Theorem chunkText_round_trip (spans : list TextSpan) (text : string)
    (boundaries : gset Z) :
  (∀ s : TextSpan, s ∈ spans →
     0 <= span_begin s <= span_end s
     ∧ span_end s <= Z.of_nat (String.length text)) →
  (∀ x, x ∈ boundaries ↔
          x = 0 ∨ x = Z.of_nat (String.length text)
          ∨ ∃ s : TextSpan, s ∈ spans ∧ (x = span_begin s ∨ x = span_end s)) →
  concat_tokens (flat_map tokens (chunkText spans text)) = text
  ∧ length (chunkText spans text) = (size boundaries - 1)%nat.
Proof.
  intros Hspans Hboundaries. split.
  - assert (∀ x, x ∈ sorted_indices spans text
                 → 0 <= x <= Z.of_nat (String.length text)) as Hrange.
    { intros x [->|[->|(s & Hs & Hx)]]%elem_of_sorted_indices%elem_of_boundary_indices;
        [lia..|].
      specialize (Hspans s Hs). destruct Hx as [-> | ->]; lia. }
    pose proof (sorted_indices_sorted spans text) as Hsorted.
    unfold chunkText.
    rewrite (chunks_between_concat text _ 0 Hsorted Hrange).
    + erewrite sorted_last_max; [apply slice_whole|done| |apply Hrange].
      apply elem_of_sorted_indices, elem_of_boundary_indices. auto.
    + apply sorted_head_min; [done| |apply Hrange].
      apply elem_of_sorted_indices, elem_of_boundary_indices. auto.
  - unfold chunkText. rewrite length_chunks_between, length_sorted_indices.
    assert (list_to_set (boundary_indices spans text) = boundaries) as ->; [|lia].
    apply set_eq. intros x.
    by rewrite elem_of_list_to_set, elem_of_boundary_indices, Hboundaries.
Qed.

(** ** The layout walk, in closed form *)

Section Layout.
Context (styles : StyleTable).
Implicit Types (s : TextSpan) (c : TextChunk) (cs : list TextChunk).
Implicit Types (loc : SpanLocals) (st : Layout) (a : TokenAnnotation).

(** What a flush does to the chunk at index [i]. *)
Definition flush_chunk (st : Layout) (i : nat) (c : TextChunk) : TextChunk :=
  if decide (i ∈ underlineCluster st)
  then reverse_chunk styles (underlineClusterDepth st) c
  else c.

Lemma set_fold_alter_lookup (f : TextChunk → TextChunk) (cs : list TextChunk) :
  ∀ (X : gset nat) i,
    set_fold (λ j (r : list TextChunk), alter f j r) cs X !! i
    = (λ c, if decide (i ∈ X) then f c else c) <$> cs !! i.
Proof.
  apply (set_fold_ind_L
    (λ (r : list TextChunk) (Y : gset nat), ∀ i,
       r !! i = (λ c, if decide (i ∈ Y) then f c else c) <$> cs !! i)).
  - intros i. destruct (cs !! i); simpl; [|done].
    by rewrite decide_False by set_solver.
  - intros x Y r Hx IH i. destruct (decide (i = x)) as [->|Hne].
    + rewrite list_lookup_alter_eq, IH.
      destruct (cs !! x); simpl; [|done].
      rewrite decide_False by done. by rewrite decide_True by set_solver.
    + rewrite list_lookup_alter_ne by done. rewrite IH.
      destruct (cs !! i); simpl; [|done].
      f_equal. destruct (decide (i ∈ Y)).
      * by rewrite decide_True by set_solver.
      * by rewrite decide_False by set_solver.
Qed.

Lemma reverseUnderlineClusterDepths_lookup st cs i :
  reverseUnderlineClusterDepths styles st cs !! i = flush_chunk st i <$> cs !! i.
Proof. apply set_fold_alter_lookup. Qed.

Lemma reverseUnderlineClusterDepths_imap st cs :
  reverseUnderlineClusterDepths styles st cs = imap (flush_chunk st) cs.
Proof.
  apply list_eq. intros i.
  by rewrite reverseUnderlineClusterDepths_lookup, list_lookup_imap.
Qed.

(** What visiting a span does to a chunk, once the span's depth and
    z-index are known. *)
Definition annotate (s : TextSpan) (loc : SpanLocals) (c : TextChunk) : TextChunk :=
  if decide (overlaps c s) then
    let c1 := if decide (chunk_begin c = span_begin s)
              then set_label (span_label s) c else c in
    set_annotations (make_annotation c1 s loc :: token_annotations c1) c1
  else c.

(** Whether the span takes part in the automatic layout (line 99). *)
Definition eligible (s : SpanData) : bool :=
  negb (span_mouseSelected s) && auto_nesting styles (span_style s).

Definition raise_depth (s : SpanData) (loc : SpanLocals) (d : Z) : Z :=
  if is_underline styles (span_style s)
     && bool_decide (d < to_number (newDepth loc))
  then to_number (newDepth loc) else d.

Lemma token_annotations_relabel (s : TextSpan) c :
  token_annotations
    (if decide (chunk_begin c = span_begin s) then set_label (span_label s) c else c)
  = token_annotations c.
Proof. by case_decide. Qed.

Lemma bind_Ok {A B} (x : A) (k : A → result B) : Ok x ≫= k = k x.
Proof. done. Qed.

Lemma visit_chunk_settled s i c loc st :
  newDepth loc ≠ None ∨ eligible s = false →
  visit_chunk styles s i c loc st
  = Ok (annotate s loc c, loc,
        if decide (overlaps c s) then
          {| underlineCluster := {[i]} ∪ underlineCluster st;
             underlineClusterDepth := raise_depth s loc (underlineClusterDepth st);
             rightMostOffset := rightMostOffset st |}
        else st).
Proof.
  intros Hset. unfold visit_chunk, annotate, eligible in *.
  case_decide; [|done].
  assert (bool_decide (newDepth loc = None) && negb (span_mouseSelected s)
          && auto_nesting styles (span_style s) = false) as ->.
  { destruct Hset as [Hd|He].
    - by rewrite bool_decide_eq_false_2.
    - rewrite <- andb_assoc, He. apply andb_false_r. }
  done.
Qed.

Lemma visit_chunk_first s i c loc st :
  newDepth loc = None → eligible s = true → overlaps c s →
  visit_chunk styles s i c loc st
  = loc' ← assign_depths styles (span_style s) (token_annotations c);
    Ok (annotate s loc' c, loc',
        {| underlineCluster := {[i]} ∪ underlineCluster st;
           underlineClusterDepth := raise_depth s loc' (underlineClusterDepth st);
           rightMostOffset := rightMostOffset st |}).
Proof.
  intros Hd He Ho. unfold visit_chunk, annotate, eligible in *.
  rewrite !decide_True by done.
  rewrite bool_decide_eq_true_2 by done. rewrite <- andb_assoc, He. simpl.
  rewrite token_annotations_relabel.
  destruct (assign_depths styles (span_style s) (token_annotations c));
    [|done].
  unfold mbind, result_bind. by rewrite (decide_True (P := overlaps c s)) by done.
Qed.

Lemma visit_chunk_miss s i c loc st :
  ¬ overlaps c s → visit_chunk styles s i c loc st = Ok (c, loc, st).
Proof. intros. unfold visit_chunk. by rewrite decide_False. Qed.

Lemma assign_depths_is_Some style anns loc :
  assign_depths styles style anns = Ok loc →
  ∃ d z, loc = {| newDepth := Some d; newZIndex := Some z |} ∧ 0 <= d ∧ 0 <= z.
Proof.
  unfold assign_depths. destruct (scan_annotations _ _ _) as [m|]; simpl; [|done].
  destruct (lookup_style styles style); [|done]. intros [= <-].
  eexists _, _. split; [done|].
  unfold first_missing. split; repeat case_match; lia.
Qed.

(** The closure variables after the [for] loop of a span over the chunks
    [cs], the first of them at index [i]. *)
Fixpoint visited s loc (i : nat) cs st : Layout :=
  match cs with
  | [] => st
  | c :: cs' =>
      visited s loc (S i) cs'
        (if decide (overlaps c s) then
           {| underlineCluster := {[i]} ∪ underlineCluster st;
              underlineClusterDepth := raise_depth s loc (underlineClusterDepth st);
              rightMostOffset := rightMostOffset st |}
         else st)
  end.

(** The locals [newDepth] and [newZIndex] of a span after its loop. *)
Definition span_locals s cs : result SpanLocals :=
  if eligible s then
    match list_find (λ c, overlaps c s) cs with
    | Some (_, first_chunk) =>
        assign_depths styles (span_style s) (token_annotations first_chunk)
    | None => Ok {| newDepth := None; newZIndex := None |}
    end
  else Ok {| newDepth := None; newZIndex := None |}.

Lemma visit_chunks_settled s i cs loc st :
  newDepth loc ≠ None ∨ eligible s = false →
  visit_chunks styles s i cs loc st
  = Ok (annotate s loc <$> cs, loc, visited s loc i cs st).
Proof.
  intros Hset. revert i st. induction cs as [|c cs IH]; intros i st; [done|].
  cbn [visit_chunks]. rewrite visit_chunk_settled by done.
  rewrite bind_Ok. cbn beta iota. by rewrite IH.
Qed.

Lemma visit_chunks_closed s i cs st :
  visit_chunks styles s i cs {| newDepth := None; newZIndex := None |} st
  = loc ← span_locals s cs;
    Ok (annotate s loc <$> cs, loc, visited s loc i cs st).
Proof.
  unfold span_locals. destruct (eligible s) eqn:He; [|by apply visit_chunks_settled; right].
  revert i st. induction cs as [|c cs IH]; intros i st; [done|].
  cbn [visit_chunks list_find]. destruct (decide (overlaps c s)) as [Ho|Ho].
  - rewrite visit_chunk_first by done. simpl.
    destruct (assign_depths _ _ _) as [loc|] eqn:Hloc; [|done]. simpl.
    apply assign_depths_is_Some in Hloc as (d & z & -> & _).
    rewrite visit_chunks_settled by (by left). simpl.
    by rewrite decide_True by done.
  - rewrite visit_chunk_miss by done. simpl. rewrite IH.
    destruct (list_find _ cs) as [[j f]|]; simpl.
    + destruct (assign_depths _ _ _) as [loc|]; [|done]. simpl.
      unfold annotate at 2. by rewrite !decide_False by done.
    + unfold annotate at 2. by rewrite !decide_False by done.
Qed.

(** The callback of [spans.forEach], in closed form. *)
Lemma style_span_closed cs st s :
  style_span styles (cs, st) s
  = loc ← span_locals s (open_cluster styles s (cs, st)).1;
    Ok (annotate s loc <$> (open_cluster styles s (cs, st)).1,
        visited s loc 0 (open_cluster styles s (cs, st)).1
                (open_cluster styles s (cs, st)).2).
Proof.
  unfold style_span. destruct (open_cluster styles s (cs, st)) as [cs1 st1].
  rewrite visit_chunks_closed. simpl.
  by destruct (span_locals s cs1).
Qed.

Lemma visited_rightMostOffset s loc i cs st :
  rightMostOffset (visited s loc i cs st) = rightMostOffset st.
Proof.
  revert i st. induction cs as [|c cs IH]; intros i st; [done|].
  simpl. rewrite IH. by case_decide.
Qed.

Lemma elem_of_visited_cluster s loc i cs st k :
  k ∈ underlineCluster (visited s loc i cs st) ↔
    k ∈ underlineCluster st
    ∨ ∃ j c, k = (i + j)%nat ∧ cs !! j = Some c ∧ overlaps c s.
Proof.
  revert i st. induction cs as [|c cs IH]; intros i st; simpl.
  - split; [auto|]. intros [?|(j & c & _ & Hj & _)]; [done|]. by destruct j.
  - rewrite IH. split.
    + intros [Hk|(j & c' & -> & Hj & Ho)].
      * case_decide as Hc; simpl in Hk; [|auto].
        apply elem_of_union in Hk as [->%elem_of_singleton|?]; [|auto].
        right. exists 0%nat, c. split_and!; [lia|done..].
      * right. exists (S j), c'. split_and!; [lia|done..].
    + intros [Hk|(j & c' & -> & Hj & Ho)].
      * left. case_decide; simpl; [|done]. apply elem_of_union. auto.
      * destruct j as [|j]; simpl in Hj.
        -- simplify_eq. left. rewrite decide_True by done. simpl.
           apply elem_of_union. left. apply elem_of_singleton. lia.
        -- right. exists j, c'. split_and!; [lia|done..].
Qed.

Lemma raise_depth_ge s loc d : d <= raise_depth s loc d.
Proof.
  unfold raise_depth. destruct (is_underline _ _); simpl; [|lia].
  case_bool_decide; lia.
Qed.

Lemma raise_depth_covers s loc d :
  is_underline styles (span_style s) = true →
  to_number (newDepth loc) <= raise_depth s loc d.
Proof.
  intros Hu. unfold raise_depth. rewrite Hu. simpl. case_bool_decide; lia.
Qed.

Lemma visited_depth_ge s loc i cs st :
  underlineClusterDepth st <= underlineClusterDepth (visited s loc i cs st).
Proof.
  revert i st. induction cs as [|c cs IH]; intros i st; simpl; [lia|].
  etrans; [|apply IH]. case_decide; simpl; [apply raise_depth_ge|lia].
Qed.

Lemma visited_depth_covers s loc i cs st :
  is_underline styles (span_style s) = true →
  Exists (λ c, overlaps c s) cs →
  to_number (newDepth loc) <= underlineClusterDepth (visited s loc i cs st).
Proof.
  intros Hu Hex. revert i st.
  induction Hex as [c cs Hc|c cs _ IH]; intros i st; simpl; [|apply IH].
  rewrite decide_True by done.
  etrans; [|apply visited_depth_ge]. simpl. by apply raise_depth_covers.
Qed.
End Layout.

Lemma forEach_invariant {A S} (f : S → A → result S) (P : S → Prop) l :
  (∀ acc x acc', x ∈ l → P acc → f acc x = Ok acc' → P acc') →
  ∀ acc acc', P acc → forEach f l acc = Ok acc' → P acc'.
Proof.
  induction l as [|x l IH]; intros Hstep acc acc' HP; simpl.
  - by intros [= <-].
  - destruct (f acc x) as [acc1|] eqn:Hf; [|done]. simpl.
    apply IH; [|by eapply Hstep; [left|..]].
    intros ??? Hin. apply Hstep. by right.
Qed.

Lemma forEach_app {A S} (f : S → A → result S) l1 l2 acc :
  forEach f (l1 ++ l2) acc = acc' ← forEach f l1 acc; forEach f l2 acc'.
Proof.
  revert acc. induction l1 as [|x l1 IH]; intros acc; simpl; [done|].
  destruct (f acc x); simpl; [apply IH|done].
Qed.

(** ** The sign of the depths *)

Section Sign.
Context (styles : StyleTable).
Implicit Types (s : TextSpan) (c : TextChunk) (cs : list TextChunk).
Implicit Types (loc : SpanLocals) (st : Layout) (a : TokenAnnotation).

Lemma ann_style_reverse d a :
  ann_style (reverse_annotation styles d a) = ann_style a.
Proof. unfold reverse_annotation. by case_match. Qed.

Lemma elem_of_flush_chunk st i c a' :
  a' ∈ token_annotations (flush_chunk styles st i c) ↔
    if decide (i ∈ underlineCluster st)
    then ∃ a, a ∈ token_annotations c
              ∧ a' = reverse_annotation styles (underlineClusterDepth st) a
    else a' ∈ token_annotations c.
Proof.
  unfold flush_chunk. case_decide; [|done]. simpl.
  rewrite list_elem_of_fmap. naive_solver.
Qed.

Lemma elem_of_annotate s loc c a :
  a ∈ token_annotations (annotate s loc c) ↔
    (overlaps c s ∧ a = make_annotation c s loc) ∨ a ∈ token_annotations c.
Proof.
  unfold annotate. case_decide as Ho; [|naive_solver].
  simpl. rewrite token_annotations_relabel, elem_of_cons.
  assert (make_annotation
            (if decide (chunk_begin c = span_begin s)
             then set_label (span_label s) c else c) s loc
          = make_annotation c s loc) as -> by by case_decide.
  naive_solver.
Qed.

Lemma span_locals_cases s cs loc :
  span_locals styles s cs = Ok loc →
  loc = {| newDepth := None; newZIndex := None |}
  ∨ ∃ d z, loc = {| newDepth := Some d; newZIndex := Some z |} ∧ 0 <= d ∧ 0 <= z.
Proof.
  unfold span_locals. destruct (eligible styles s); [|intros [= <-]; by left].
  destruct (list_find _ _) as [[j f]|]; [|intros [= <-]; by left].
  intros H%assign_depths_is_Some. by right.
Qed.

(** While a cluster is open, an underline annotation is either still to
    be reversed (its chunk is in the cluster and its depth is at most the
    cluster depth) or already negative. *)
Definition sign_open st (i : nat) a : Prop :=
  if is_underline styles (ann_style a)
  then to_number (depth a) <= underlineClusterDepth st
       ∧ (i ∉ underlineCluster st → ∃ x, depth a = Some x ∧ x < 0)
  else ∀ x, depth a = Some x → 0 <= x.

Definition sign_inv (acc : list TextChunk * Layout) : Prop :=
  0 <= underlineClusterDepth acc.2
  ∧ ∀ i c a, acc.1 !! i = Some c → a ∈ token_annotations c → sign_open acc.2 i a.

Definition sign_final a : Prop :=
  if is_underline styles (ann_style a)
  then ∃ x, depth a = Some x ∧ x < 0
  else ∀ x, depth a = Some x → 0 <= x.

Lemma sign_flush cs st i c a :
  sign_inv (cs, st) →
  reverseUnderlineClusterDepths styles st cs !! i = Some c →
  a ∈ token_annotations c → sign_final a.
Proof.
  intros [HD Hinv]. rewrite reverseUnderlineClusterDepths_lookup.
  destruct (cs !! i) as [c0|] eqn:Hc0; [|done]. intros [= <-].
  rewrite elem_of_flush_chunk. simpl in *. case_decide as Hi.
  - intros (a0 & Ha0 & ->). specialize (Hinv i c0 a0 Hc0 Ha0).
    unfold sign_final, sign_open, reverse_annotation in *.
    destruct (is_underline styles (ann_style a0)) eqn:Hu; simpl; rewrite Hu.
    + eexists. split; [done|]. lia.
    + done.
  - intros Ha. specialize (Hinv i c0 a Hc0 Ha).
    unfold sign_final, sign_open in *.
    destruct (is_underline styles (ann_style a)); [|done].
    by apply Hinv.
Qed.

Lemma sign_final_open st i a :
  0 <= underlineClusterDepth st → sign_final a → sign_open st i a.
Proof.
  unfold sign_final, sign_open. destruct (is_underline _ _); [|done].
  intros ? (x & Hx & ?). split; [rewrite Hx; simpl; lia|eauto].
Qed.

Lemma sign_open_cluster s acc :
  sign_inv acc → sign_inv (open_cluster styles s acc).
Proof.
  destruct acc as [cs st]. intros Hinv. unfold open_cluster.
  case_decide; [|case_decide; [|done]].
  - split; [apply Hinv|]. simpl. intros i c a Hc Ha.
    apply sign_final_open; [apply Hinv|]. by eapply sign_flush.
  - destruct Hinv as [HD Hinv]. split; [done|]. apply Hinv.
Qed.

Lemma sign_style_span acc s acc' :
  sign_inv acc → style_span styles acc s = Ok acc' → sign_inv acc'.
Proof.
  destruct acc as [cs st]. intros Hinv%(sign_open_cluster s).
  rewrite style_span_closed.
  destruct (open_cluster styles s (cs, st)) as [cs1 st1]. simpl.
  destruct (span_locals styles s cs1) as [loc|] eqn:Hloc; [|done].
  simpl. intros [= <-]. destruct Hinv as [HD Hinv]. simpl in *.
  split; simpl.
  { etrans; [done|apply visited_depth_ge]. }
  intros i c' a. rewrite list_lookup_fmap.
  destruct (cs1 !! i) as [c|] eqn:Hc; [|done]. intros [= <-].
  rewrite elem_of_annotate. intros [[Ho ->]|Ha].
  - unfold sign_open. simpl.
    destruct (is_underline styles (span_style s)) eqn:Hu.
    + split.
      * apply visited_depth_covers; [done|].
        apply Exists_exists. exists c. split; [|done].
        by eapply list_elem_of_lookup_2.
      * intros []. apply elem_of_visited_cluster. right.
        exists i, c. done.
    + intros x Hx. apply span_locals_cases in Hloc as [->|(d & z & -> & ? & ?)];
        simpl in Hx; by simplify_eq.
  - specialize (Hinv i c a Hc Ha). unfold sign_open in *.
    destruct (is_underline styles (ann_style a)); [|done].
    destruct Hinv as [Hle Hneg]. split.
    + etrans; [done|apply visited_depth_ge].
    + intros Hi. apply Hneg. intros Hi'. apply Hi.
      apply elem_of_visited_cluster. by left.
Qed.

Lemma styleTextChunks_sign text_chunks spans cs c a :
  Forall (λ c, token_annotations c = []) text_chunks →
  styleTextChunks_ text_chunks spans styles = Ok cs →
  c ∈ cs → a ∈ token_annotations c → sign_final a.
Proof.
  intros Hempty. unfold styleTextChunks_.
  destruct (forEach _ _ _) as [[cs1 st1]|] eqn:Hwalk; [|done]. simpl.
  intros [= <-] [i Hi]%list_elem_of_lookup_1 Ha.
  eapply sign_flush; [|done..].
  eapply (forEach_invariant _ sign_inv); [|..|exact Hwalk].
  - intros acc s acc' _. apply sign_style_span.
  - split; [done|]. simpl. intros j c0 a0 Hj Ha0.
    rewrite Forall_forall in Hempty.
    rewrite (Hempty c0) in Ha0 by by eapply list_elem_of_lookup_2.
    by apply elem_of_nil in Ha0.
Qed.
End Sign.

(** ** The line splitter *)

Section Lines.
Implicit Types (c : TextChunk) (cs : list TextChunk) (ls : LineState).
Implicit Types (t : string) (toks : list string) (td : TokenData).

Definition is_newline t : Prop := t = newline_token.

(** The tokens of all chunks, in the order the splitter visits them. *)
Definition all_tokens cs : list string := flat_map tokens cs.

(** The running offset when the token at index [j] of [c] is reached:
    the chunk's [begin] plus the lengths of the chunk's earlier tokens. *)
Definition running_offset c (j : nat) : Z :=
  chunk_begin c + Z.of_nat (String.length (concat_tokens (take j (tokens c)))).

Definition token_at c (j : nat) t : TokenData :=
  make_token c (length (tokens c)) j
    (Z.of_nat (String.length (concat_tokens (take j (tokens c))))) t.

(** The token texts a list of lines stands for, each closed line followed
    by the newline that closed it. *)
Definition closed_texts (ls : list (list TokenData)) : list string :=
  flat_map (λ line, (td_text <$> line) ++ [newline_token]) ls.

Definition texts ls : list string :=
  closed_texts (all_lines ls) ++ (td_text <$> current_line ls).
Definition data ls : list TokenData := concat (all_lines ls) ++ current_line ls.

Lemma length_append (s1 s2 : string) :
  String.length (s1 +:+ s2) = (String.length s1 + String.length s2)%nat.
Proof.
  induction s1 as [|ch s1 IH]; [done|]. rewrite append_cons. simpl. by rewrite IH.
Qed.

Lemma closed_texts_app l1 l2 :
  closed_texts (l1 ++ l2) = closed_texts l1 ++ closed_texts l2.
Proof. unfold closed_texts. by rewrite flat_map_app. Qed.

Lemma split_tokens_spec c toks : ∀ pre ls,
  tokens c = pre ++ toks →
  let ls' := split_tokens c (length pre)
               (Z.of_nat (String.length (concat_tokens pre))) toks ls in
  texts ls' = texts ls ++ toks
  ∧ data ls' = data ls ++ filter (λ td, ¬ is_newline (td_text td))
                            (imap (λ k, token_at c (length pre + k)) toks)
  ∧ length (all_lines ls')
    = (length (all_lines ls) + length (filter is_newline toks))%nat
  ∧ last_tokens ls' = last_tokens ls.
Proof.
  induction toks as [|t toks IH]; intros pre ls Hpre ls'.
  { subst ls'. simpl. by rewrite !app_nil_r, Nat.add_0_r. }
  subst ls'. cbn [split_tokens].
  specialize (IH (pre ++ [t])).
  rewrite length_app, concat_tokens_app, length_append in IH.
  simpl in IH. rewrite append_empty_r, Nat2Z.inj_add in IH.
  replace (length pre + 1)%nat with (S (length pre)) in IH by lia.
  match goal with |- context [split_tokens _ _ _ toks ?X] =>
    specialize (IH X); destruct IH as (IH1 & IH2 & IH3 & IH4) end.
  { by rewrite <- app_assoc. }
  rewrite IH1, IH2, IH3, IH4. clear IH1 IH2 IH3 IH4.
  assert (token_at c (length pre + 0) t
          = make_token c (length (tokens c)) (length pre)
              (Z.of_nat (String.length (concat_tokens pre))) t) as Htok.
  { unfold token_at. rewrite Nat.add_0_r, Hpre, take_app_length. done. }
  assert (imap (λ k, token_at c (S (length pre) + k)) toks
          = imap ((λ k, token_at c (length pre + k)) ∘ S) toks) as Himap.
  { apply imap_ext. intros k t' _. simpl. f_equal. lia. }
  cbn [imap]. rewrite filter_cons, (filter_cons is_newline).
  unfold texts, data. rewrite Htok, Himap.
  case_decide as Hnl; simpl.
  - rewrite (decide_True (P := is_newline t)) by done.
    rewrite (decide_False (P := ¬ is_newline t)) by (intros Hn; by apply Hn).
    rewrite closed_texts_app, concat_app, length_app. simpl.
    rewrite !app_nil_r, <- !app_assoc. subst t. split_and!; [done..|lia|done].
  - rewrite (decide_False (P := is_newline t)) by done.
    rewrite (decide_True (P := ¬ is_newline t)) by done.
    rewrite fmap_app, <- !app_assoc. simpl. done.
Qed.

Lemma split_chunk_spec ls c :
  let ls' := split_chunk ls c in
  texts ls' = texts ls ++ tokens c
  ∧ data ls' = data ls ++ filter (λ td, ¬ is_newline (td_text td))
                            (imap (token_at c) (tokens c))
  ∧ length (all_lines ls')
    = (length (all_lines ls) + length (filter is_newline (tokens c)))%nat
  ∧ last_tokens ls' = tokens c.
Proof.
  unfold split_chunk.
  by destruct (split_tokens_spec c (tokens c) []
                 {| all_lines := all_lines ls; current_line := current_line ls;
                    last_tokens := tokens c |} eq_refl) as (? & ? & ? & ?).
Qed.

Lemma split_chunks_spec cs : ∀ ls,
  let ls' := foldl split_chunk ls cs in
  texts ls' = texts ls ++ all_tokens cs
  ∧ data ls' = data ls
      ++ filter (λ td, ¬ is_newline (td_text td))
           (flat_map (λ c, imap (token_at c) (tokens c)) cs)
  ∧ length (all_lines ls')
    = (length (all_lines ls) + length (filter is_newline (all_tokens cs)))%nat
  ∧ last_tokens ls' = default (last_tokens ls) (tokens <$> last cs).
Proof.
  induction cs as [|c cs IH]; intros ls; simpl.
  { by rewrite !app_nil_r, Nat.add_0_r. }
  destruct (IH (split_chunk ls c)) as (IH1 & IH2 & IH3 & IH4).
  destruct (split_chunk_spec ls c) as (H1 & H2 & H3 & H4).
  rewrite IH1, IH2, IH3, IH4, H1, H2, H3, H4.
  unfold all_tokens. simpl. rewrite !filter_app, length_app, <- !app_assoc.
  split_and!; [done..|lia|].
  rewrite last_cons. by destruct (last cs).
Qed.
End Lines.

Definition initial_lines : LineState :=
  {| all_lines := []; current_line := []; last_tokens := [] |}.

Lemma tokenizeTextChunks_unfold cs :
  tokenizeTextChunks cs
  = let ls := foldl split_chunk initial_lines cs in
    all_lines ls ++
      (if decide ((0 < length (current_line ls))%nat
                  ∨ ((0 < length (last_tokens ls))%nat
                     ∧ last (last_tokens ls) = Some newline_token))
       then [current_line ls] else []).
Proof.
  unfold tokenizeTextChunks, initial_lines. simpl.
  case_decide; [done|by rewrite app_nil_r].
Qed.

Lemma elem_of_concat {A} (x : A) (ls : list (list A)) :
  x ∈ concat ls ↔ ∃ l, l ∈ ls ∧ x ∈ l.
Proof.
  rewrite list_elem_of_In, in_concat. setoid_rewrite list_elem_of_In. done.
Qed.

Lemma elem_of_data cs td :
  td ∈ data (foldl split_chunk initial_lines cs) →
  ∃ c j t, c ∈ cs ∧ tokens c !! j = Some t ∧ td = token_at c j t
           ∧ ¬ is_newline t.
Proof.
  destruct (split_chunks_spec cs initial_lines) as (_ & -> & _). simpl.
  rewrite list_elem_of_filter, list_elem_of_In, in_flat_map.
  intros [Hnl (c & Hc%list_elem_of_In & Htd%list_elem_of_In)].
  apply elem_of_lookup_imap_1 in Htd as (j & t & -> & Hj).
  exists c, j, t. done.
Qed.

Lemma tokenizeTextChunks_elem cs line td :
  line ∈ tokenizeTextChunks cs → td ∈ line →
  ∃ c j t, c ∈ cs ∧ tokens c !! j = Some t ∧ td = token_at c j t
           ∧ ¬ is_newline t.
Proof.
  rewrite tokenizeTextChunks_unfold. simpl. intros Hline Htd.
  apply elem_of_data. unfold data. rewrite elem_of_app, elem_of_concat.
  apply elem_of_app in Hline as [Hline|Hline]; [left; eauto|].
  case_decide; [|by apply elem_of_nil in Hline].
  apply list_elem_of_singleton in Hline as ->. by right.
Qed.

Lemma tokenizeTextChunks_annotations cs line td :
  line ∈ tokenizeTextChunks cs → td ∈ line →
  ∃ c, c ∈ cs ∧ td_token_annotations td = token_annotations c.
Proof.
  intros Hline Htd.
  destruct (tokenizeTextChunks_elem cs line td Hline Htd)
    as (c & j & t & Hc & _ & -> & _).
  by exists c.
Qed.

Lemma last_all_tokens cs :
  Forall (λ c, tokens c ≠ []) cs →
  last (all_tokens cs) = last (default [] (tokens <$> last cs)).
Proof.
  induction 1 as [|c cs Hc Hcs IH]; [done|].
  unfold all_tokens in *. cbn [flat_map]. rewrite last_app, IH, last_cons.
  destruct (last cs) as [c1|] eqn:Hlast; simpl; [|done].
  assert (tokens c1 ≠ []) as Hc1.
  { rewrite Forall_forall in Hcs. by apply Hcs, last_Some_elem_of. }
  destruct (last (tokens c1)) eqn:Hl; [done|]. by apply last_None in Hl.
Qed.

Definition newline_sample : string := String "a" newline_token.
Definition newline_chunks : list TextChunk := chunkText [] newline_sample.

Lemma length_concat_take_S (l : list string) j t :
  l !! j = Some t →
  String.length (concat_tokens (take (S j) l))
  = (String.length (concat_tokens (take j l)) + String.length t)%nat.
Proof.
  intros Hj. rewrite (take_S_r l j t Hj), concat_tokens_app, length_append.
  simpl. by rewrite append_empty_r.
Qed.

Lemma length_concat_take_mono (l : list string) j k :
  (j <= k)%nat →
  (String.length (concat_tokens (take j l))
   <= String.length (concat_tokens (take k l)))%nat.
Proof.
  intros Hjk. replace k with (j + (k - j))%nat by lia.
  rewrite <- take_take_drop, concat_tokens_app, length_append. lia.
Qed.

Lemma length_concat_take_le (l : list string) j :
  (String.length (concat_tokens (take j l))
   <= String.length (concat_tokens l))%nat.
Proof.
  rewrite <- (take_drop j l) at 2. rewrite concat_tokens_app, length_append. lia.
Qed.

Lemma chunkText_tokens_nonempty spans text :
  Forall (λ c, tokens c ≠ []) (chunkText spans text).
Proof.
  unfold chunkText. generalize (sorted_indices spans text). intros l.
  induction l as [|b [|e l] IH]; [constructor..|].
  rewrite chunks_between_cons. constructor; [|done].
  apply chunk_tokens_nonempty.
Qed.

(** The decimal numeral of an integer, most significant digit first, with
    a minus sign in front of a negative one: how ["{begin}-{end}"] spells
    a number.  The digits are produced from the last one back; an integer
    has at most one more digit than its binary logarithm. *)
Definition decimal_digit (d : Z) : ascii := Ascii.ascii_of_nat (48 + Z.to_nat d).

Fixpoint decimal_digits (fuel : nat) (n : Z) (acc : string) : string :=
  match fuel with
  | O => acc
  | S fuel' =>
      let acc' := String (decimal_digit (n mod 10)) acc in
      if decide (n < 10) then acc' else decimal_digits fuel' (n / 10) acc'
  end.

Definition decimal (z : Z) : string :=
  let digits :=
    decimal_digits (S (Z.to_nat (Z.log2 (Z.abs z)))) (Z.abs z) EmptyString in
  if decide (z < 0) then String "-" digits else digits.

(** The TokenData that the token [t] at index [j] of chunk [c] stands
    for: it begins at the running offset, ends one token length further,
    and has the key ["{begin}-{end}"]. *)
Definition token_data (c : TextChunk) (j : nat) (t : string) : TokenData :=
  let b := running_offset c j in
  let e := b + Z.of_nat (String.length t) in
  {| td_text := t;
     key := decimal b +:+ "-" +:+ decimal e;
     td_begin := b;
     td_end := e;
     td_token_annotations := token_annotations c;
     isFirstTokenOfChunk := bool_decide (j = 0%nat);
     isLastTokenOfChunk := bool_decide (S j = length (tokens c)) |}.

(** The variable [tokens] when the loops are over: the tokens of the last
    chunk, or the empty array when there is no chunk. *)
Definition last_visited_tokens (cs : list TextChunk) : list string :=
  default [] (tokens <$> last cs).

(** A chunk whose offsets, from its [begin] to the end of its last token,
    are safe integers. *)
Definition safe_chunk (c : TextChunk) : Prop :=
  JS.safe_integer (chunk_begin c)
  ∧ Z.of_nat (String.length (concat_tokens (tokens c))) < 2 ^ 53
  ∧ chunk_begin c + Z.of_nat (String.length (concat_tokens (tokens c))) < 2 ^ 53.

Lemma decimal_digit_pretty (d : N) :
  (d < 10)%N → decimal_digit (Z.of_N d) = pretty_N_char d.
Proof.
  intros Hd.
  assert (d = 0 ∨ d = 1 ∨ d = 2 ∨ d = 3 ∨ d = 4 ∨ d = 5 ∨ d = 6 ∨ d = 7
          ∨ d = 8 ∨ d = 9)%N as Hcases by lia.
  repeat (destruct Hcases as [->|Hcases]; [done|]). by subst.
Qed.

Lemma decimal_digits_pretty fuel : ∀ (n : N) acc,
  (0 < n)%N → Z.of_N n < 2 ^ Z.of_nat fuel →
  decimal_digits fuel (Z.of_N n) acc = pretty_N_go n acc.
Proof.
  induction fuel as [|fuel IH]; intros n acc Hpos Hlt.
  { simpl in Hlt. lia. }
  rewrite pretty_N_go_step by done. cbn [decimal_digits].
  assert (Z.of_N n mod 10 = Z.of_N (n mod 10)) as -> by by rewrite N2Z.inj_mod.
  rewrite decimal_digit_pretty by (apply N.mod_lt; lia).
  case_decide as Hn.
  - assert (n `div` 10 = 0)%N as -> by (apply N.div_small; lia).
    by rewrite pretty_N_go_0.
  - assert (Z.of_N n / 10 = Z.of_N (n `div` 10)) as -> by by rewrite N2Z.inj_div.
    apply IH.
    + assert (1 <= n `div` 10)%N; [|lia].
      apply N.div_le_lower_bound; lia.
    + rewrite N2Z.inj_div. rewrite Nat2Z.inj_succ, Z.pow_succ_r in Hlt by lia.
      apply Z.div_lt_upper_bound; lia.
Qed.

Lemma decimal_positive (p : positive) :
  decimal_digits (S (Z.to_nat (Z.log2 (Z.pos p)))) (Z.pos p) EmptyString
  = pretty (N.pos p).
Proof.
  change (Z.pos p) with (Z.of_N (N.pos p)).
  rewrite decimal_digits_pretty; [done|lia|].
  rewrite Nat2Z.inj_succ, Z2Nat.id by apply Z.log2_nonneg.
  apply Z.log2_lt_pow2; [done|lia].
Qed.

(** The text of a number in a template literal is its decimal numeral. *)
Lemma number_to_string_decimal (z : Z) : JS.number_to_string z = decimal z.
Proof.
  unfold JS.number_to_string, decimal. cbv zeta. destruct z as [|p|p]; [done|..].
  - rewrite decide_False by lia. change (Z.abs (Z.pos p)) with (Z.pos p).
    by rewrite decimal_positive.
  - rewrite decide_True by lia. change (Z.abs (Z.neg p)) with (Z.pos p).
    by rewrite decimal_positive.
Qed.

Lemma token_at_token_data (c : TextChunk) (j : nat) (t : string) :
  token_at c j t = token_data c j t.
Proof.
  unfold token_at, token_data, make_token, running_offset. cbv zeta.
  rewrite !number_to_string_decimal. f_equal. apply bool_decide_ext. lia.
Qed.

Lemma token_data_safe (c : TextChunk) (j : nat) (t : string) :
  safe_chunk c → tokens c !! j = Some t →
  JS.safe_integer (td_begin (token_data c j t))
  ∧ JS.safe_integer (td_end (token_data c j t)).
Proof.
  intros (Hb & _ & He) Hj. unfold JS.safe_integer in *. simpl.
  unfold running_offset.
  pose proof (length_concat_take_S _ _ _ Hj) as HS.
  pose proof (length_concat_take_le (tokens c) (S j)) as Hle.
  lia.
Qed.

(** C8.  In the line splitter, every newline token closes a line and
    yields no TokenData; every other token yields one TokenData, in order,
    whose [begin] is the running offset (the chunk's [begin] plus the
    lengths of the chunk's earlier tokens), whose [end] is [begin] plus
    the token length and whose [key] is ["{begin}-{end}"] in decimal
    numerals; the trailing line is appended exactly when it is non-empty
    or the last token of the last chunk is a newline, which is the last
    token visited when every chunk holds a token, as every chunk of
    [chunkText] does; the text "a" followed by a newline gives the line of
    the token "a" with the key "0-1", then an empty line.  The offsets of
    the chunks are safe integers, and so are those of the tokens. *)
Theorem line_splitter_lines (cs : list TextChunk) :
  Forall safe_chunk cs →
  (∃ (closed : list (list TokenData)) (final : list TokenData),
    tokenizeTextChunks cs
    = closed ++ (if decide (final ≠ []
                            ∨ last (last_visited_tokens cs) = Some newline_token)
                 then [final] else [])
    ∧ length closed = length (filter is_newline (all_tokens cs))
    ∧ closed_texts closed ++ (td_text <$> final) = all_tokens cs
    ∧ concat closed ++ final
      = filter (λ td, td_text td ≠ newline_token)
          (flat_map (λ c, imap (token_data c) (tokens c)) cs)
    ∧ Forall (λ td, JS.safe_integer (td_begin td) ∧ JS.safe_integer (td_end td))
        (concat closed ++ final))
  ∧ (Forall (λ c, tokens c ≠ []) cs →
     last (last_visited_tokens cs) = last (all_tokens cs))
  ∧ (∀ spans text, Forall (λ c, tokens c ≠ []) (chunkText spans text))
  ∧ map (map (λ td, (td_text td, key td, td_begin td, td_end td)))
      (tokenizeTextChunks newline_chunks)
    = [[("a", "0-1", 0, 1)]; []].
Proof.
  intros Hsafe. split_and!;
    [|intros; symmetry; by apply last_all_tokens
     |apply chunkText_tokens_nonempty|by vm_compute].
  rewrite tokenizeTextChunks_unfold.
  set (ls := foldl split_chunk initial_lines cs).
  destruct (split_chunks_spec cs initial_lines) as (Htexts & Hdata & Hlen & Hlast).
  fold ls in Htexts, Hdata, Hlen, Hlast. simpl in Htexts, Hdata, Hlen, Hlast.
  assert (data ls = filter (λ td, td_text td ≠ newline_token)
                      (flat_map (λ c, imap (token_data c) (tokens c)) cs))
    as Hdata'.
  { rewrite Hdata. f_equal. apply flat_map_ext. intros c.
    apply imap_ext. intros j t _. apply token_at_token_data. }
  exists (all_lines ls), (current_line ls). split_and!.
  - cbv zeta. f_equal. apply decide_ext. unfold last_visited_tokens.
    rewrite Hlast.
    assert ((0 < length (current_line ls))%nat ↔ current_line ls ≠ []) as ->.
    { destruct (current_line ls); simpl; split; (done || lia). }
    assert (∀ l : list string,
              (0 < length l)%nat ∧ last l = Some newline_token
              ↔ last l = Some newline_token) as ->; [|done].
    intros [|t0 l0]; simpl; [naive_solver|]. split; [tauto|]. split; [lia|done].
  - done.
  - done.
  - done.
  - fold (data ls). rewrite Hdata'. apply Forall_forall. intros td.
    rewrite list_elem_of_filter, list_elem_of_In, in_flat_map.
    intros [_ (c & Hc%list_elem_of_In & Htd%list_elem_of_In)].
    apply elem_of_lookup_imap_1 in Htd as (j & t & -> & Hj).
    rewrite Forall_forall in Hsafe. by apply token_data_safe; [apply Hsafe|].
Qed.

(** ** tokenize, end to end *)

Lemma chunkText_fresh spans text :
  Forall (λ c, token_annotations c = []) (chunkText spans text).
Proof.
  unfold chunkText. generalize (sorted_indices spans text). intros l.
  induction l as [|b [|e l] IH]; [constructor..|].
  rewrite chunks_between_cons. by constructor.
Qed.

Lemma tokenize_Ok spans text styles r :
  tokenize spans text styles = Ok r ↔
    ∃ cs, styled_chunks spans text styles = Ok cs
          ∧ r = {| lines := tokenizeTextChunks cs;
                   ids := (λ s : TextSpan, span_id s) <$> sorted_spans spans text |}.
Proof.
  unfold tokenize, tokenize_array, styled_chunks, sorted_spans. simpl.
  destruct (styleTextChunks_ _ _ _) as [cs|]; simpl.
  - split; [intros [= <-]; eauto|]. by intros (? & [= <-] & ->).
  - split; [done|]. by intros (? & ? & _).
Qed.

(** C5.  After [tokenize] returns, an annotation with a non-null depth has
    a strictly negative depth when its style has the shape 'underline' and
    a non-negative depth otherwise. *)
Theorem depth_sign_invariant (spans : list SpanData) (text : string)
    (styles : StyleTable) (r : Tokenized) :
  tokenize spans text styles = Ok r →
  ∀ line td a x,
    line ∈ lines r → td ∈ line → a ∈ td_token_annotations td →
    depth a = Some x →
    if is_underline styles (ann_style a) then x < 0 else 0 <= x.
Proof.
  intros (cs & Hcs & ->)%tokenize_Ok line td a x Hline Htd Ha Hx. simpl in Hline.
  destruct (tokenizeTextChunks_annotations cs line td Hline Htd) as (c & Hc & Heq).
  rewrite Heq in Ha.
  pose proof (styleTextChunks_sign styles _ _ cs c a
                (chunkText_fresh _ _) Hcs Hc Ha) as Hsign.
  unfold sign_final in Hsign.
  destruct (is_underline styles (ann_style a)).
  - destruct Hsign as (y & Hy & ?). by simplify_eq.
  - by apply Hsign.
Qed.

(** ** What the layout leaves alone *)

Section Frame.
Context (styles : StyleTable).
Implicit Types (s : TextSpan) (c : TextChunk) (cs : list TextChunk).
Implicit Types (loc : SpanLocals) (st : Layout).

Lemma frame_annotate s loc c : frame (annotate s loc c) = frame c.
Proof. unfold annotate. repeat case_decide; done. Qed.

Lemma frame_flush_chunk st i c : frame (flush_chunk styles st i c) = frame c.
Proof. unfold flush_chunk. by case_decide. Qed.

Lemma frame_reverse st cs :
  frame <$> reverseUnderlineClusterDepths styles st cs = frame <$> cs.
Proof.
  apply list_eq. intros i.
  rewrite !list_lookup_fmap, reverseUnderlineClusterDepths_lookup.
  destruct (cs !! i); simpl; [|done]. by rewrite frame_flush_chunk.
Qed.

Lemma frame_open_cluster s cs st :
  frame <$> (open_cluster styles s (cs, st)).1 = frame <$> cs.
Proof.
  unfold open_cluster. repeat case_decide; simpl; [|done..]. apply frame_reverse.
Qed.

Lemma frame_style_span acc s acc' :
  style_span styles acc s = Ok acc' → frame <$> acc'.1 = frame <$> acc.1.
Proof.
  destruct acc as [cs st]. rewrite style_span_closed.
  destruct (span_locals _ _ _) as [loc|]; [|done]. simpl. intros [= <-]. simpl.
  rewrite <- list_fmap_compose.
  rewrite <- (frame_open_cluster s cs st).
  apply list_fmap_ext. intros i c _. apply frame_annotate.
Qed.

Lemma frame_forEach spans acc acc' :
  forEach (style_span styles) spans acc = Ok acc' →
  frame <$> acc'.1 = frame <$> acc.1.
Proof.
  apply (forEach_invariant _ (λ a, frame <$> a.1 = frame <$> acc.1)); [|done].
  intros a s a' _ <-. apply frame_style_span.
Qed.

Lemma frame_overlapping cs cs' s :
  frame <$> cs' = frame <$> cs →
  Exists (λ c, overlaps c s) cs → Exists (λ c, overlaps c s) cs'.
Proof.
  intros Hf (c & [i Hi]%list_elem_of_lookup_1 & Ho)%Exists_exists.
  assert ((frame <$> cs') !! i = Some (frame c)) as Hi'.
  { by rewrite Hf, list_lookup_fmap, Hi. }
  rewrite list_lookup_fmap in Hi'.
  destruct (cs' !! i) as [c'|] eqn:Hc'; [|done].
  apply Exists_exists. exists c'. split; [by eapply list_elem_of_lookup_2|].
  assert (chunk_begin c' = chunk_begin c ∧ chunk_end c' = chunk_end c)
    as [Hb He] by (unfold frame in Hi'; by simplify_eq/=).
  unfold overlaps in *. by rewrite Hb, He.
Qed.
End Frame.

Lemma styled_chunks_frame spans text styles cs :
  styled_chunks spans text styles = Ok cs →
  frame <$> cs = frame <$> chunkText (sorted_spans spans text) text.
Proof.
  unfold styled_chunks, styleTextChunks_.
  destruct (forEach _ _ _) as [[cs1 st1]|] eqn:Hwalk; [|done]. simpl.
  intros [= <-]. apply frame_forEach in Hwalk. simpl in Hwalk.
  by rewrite frame_reverse.
Qed.

(** The chunks that reach the line splitter hold at least one token each. *)
Lemma styled_chunks_tokens_nonempty spans text styles cs :
  styled_chunks spans text styles = Ok cs → Forall (λ c, tokens c ≠ []) cs.
Proof.
  intros Hf%styled_chunks_frame. apply Forall_forall.
  intros c [i Hi]%list_elem_of_lookup_1.
  assert ((frame <$> chunkText (sorted_spans spans text) text) !! i
          = Some (frame c)) as Hi' by by rewrite <- Hf, list_lookup_fmap, Hi.
  rewrite list_lookup_fmap in Hi'.
  destruct (chunkText _ _ !! i) as [c0|] eqn:Hc0; [|done].
  pose proof (chunkText_tokens_nonempty (sorted_spans spans text) text) as Hne.
  rewrite Forall_forall in Hne. apply list_elem_of_lookup_2, Hne in Hc0.
  assert (tokens c0 = tokens c) as <-; [|done].
  unfold frame in Hi'. by simplify_eq/=.
Qed.

(** ** Unknown styles *)

Section Unknown.
Context (styles : StyleTable).
Implicit Types (s : TextSpan) (c : TextChunk) (cs : list TextChunk).

Lemma assign_depths_unknown style anns :
  lookup_style styles style = None →
  assign_depths styles style anns = TypeError.
Proof.
  intros Hnone. unfold assign_depths.
  destruct (scan_annotations _ _ _); simpl; [|done]. by rewrite Hnone.
Qed.

Lemma span_locals_unknown s cs :
  span_mouseSelected s = false →
  lookup_style styles (span_style s) = None →
  Exists (λ c, overlaps c s) cs →
  span_locals styles s cs = TypeError.
Proof.
  intros Hms Hnone Hex. unfold span_locals, eligible, auto_nesting.
  rewrite Hms, Hnone. simpl.
  destruct (list_find _ cs) as [[i c]|] eqn:Hfind.
  - by apply assign_depths_unknown.
  - apply list_find_None in Hfind. apply Exists_exists in Hex as (c & Hc & Ho).
    rewrite Forall_forall in Hfind. by destruct (Hfind c Hc).
Qed.

Lemma style_span_unknown s cs st :
  span_mouseSelected s = false →
  lookup_style styles (span_style s) = None →
  Exists (λ c, overlaps c s) cs →
  style_span styles (cs, st) s = TypeError.
Proof.
  intros Hms Hnone Hex. rewrite style_span_closed.
  rewrite span_locals_unknown; [done..|].
  eapply frame_overlapping; [|done]. apply frame_open_cluster.
Qed.

Lemma styleTextChunks_unknown text_chunks spans s :
  s ∈ spans →
  span_mouseSelected s = false →
  lookup_style styles (span_style s) = None →
  Exists (λ c, overlaps c s) text_chunks →
  styleTextChunks_ text_chunks spans styles = TypeError.
Proof.
  intros (l1 & l2 & ->)%list_elem_of_split Hms Hnone Hex.
  unfold styleTextChunks_. rewrite forEach_app.
  destruct (forEach _ l1 _) as [[cs1 st1]|] eqn:Hl1; [|done].
  apply frame_forEach in Hl1. simpl in *.
  rewrite style_span_unknown; [done..|].
  by eapply frame_overlapping.
Qed.
End Unknown.

Lemma elem_of_sorted_spans spans text (s : SpanData) :
  s ∈ spans → attach_text text s ∈ sorted_spans spans text.
Proof.
  intros Hs. unfold sorted_spans. apply list_elem_of_fmap_2.
  by rewrite sort_perm.
Qed.

Definition unstyled_spans : list SpanData :=
  [span 0 4 true "m1" "nostyle"; span 2 2 false "z" "nostyle"].

(** A span whose style name is a member of [Object.prototype]. *)
Definition inherited_style_spans : list SpanData :=
  [span 0 4 false "c" "constructor"].

Lemma lookup_style_None (styles : StyleTable) (style : option string) :
  lookup_style styles style = None
  ↔ styles !! style_key style = None ∧ style_key style ∉ Object_prototype.
Proof.
  unfold lookup_style. destruct (styles !! style_key style); [naive_solver|].
  case_decide; naive_solver.
Qed.

(** C7, as the code has it.  [tokenize] raises whenever a span that is not
    mouse-selected and has [begin < end] names a style that [styles[style]]
    does not find: the style table has no entry of that name, and the name
    is not one that the table inherits from [Object.prototype]. *)
Theorem unknown_style_raises (spans : list SpanData) (text : string)
    (styles : StyleTable) (s : SpanData) :
  s ∈ spans →
  span_mouseSelected s = false →
  span_begin s < span_end s →
  styles !! style_key (span_style s) = None →
  style_key (span_style s) ∉ Object_prototype →
  tokenize spans text styles = TypeError.
Proof.
  intros Hs Hms Hlt Hown Hinherited.
  assert (lookup_style styles (span_style s) = None) as Hnone
    by by apply lookup_style_None.
  destruct (tokenize spans text styles) as [r|] eqn:Hr; [|done].
  apply tokenize_Ok in Hr as (cs & Hcs & _). unfold styled_chunks in Hcs.
  rewrite (styleTextChunks_unknown styles _ _ (attach_text text s)) in Hcs;
    [done|by apply elem_of_sorted_spans|done..|].
  apply Exists_exists.
  apply (chunkText_overlapping_chunk _ text (attach_text text s));
    [by apply elem_of_sorted_spans|done].
Qed.

(** C7 as stated fails: a mouse-selected span and a zero-width span may
    name a style that is not in the table, and [tokenize] returns; so may
    an ordinary span whose style name the table inherits from
    [Object.prototype], which is laid out as a box at depth 0. *)
Lemma unknown_style_tolerated :
  Forall (λ s, sample_styles !! style_key (span_style s) = None) unstyled_spans
  ∧ (∃ r, tokenize unstyled_spans "hello" sample_styles = Ok r)
  ∧ Forall (λ s, sample_styles !! style_key (span_style s) = None)
      inherited_style_spans
  ∧ ∃ r, tokenize inherited_style_spans "hello" sample_styles = Ok r
         ∧ Forall (λ td, depth <$> td_token_annotations td = [Some 0])
             (take 1 (concat (lines r))).
Proof.
  split_and!; [by repeat constructor|by eexists; vm_compute
              |by repeat constructor|].
  eexists. split; [by vm_compute|]. by repeat constructor.
Qed.

(** ** Spans and their annotations *)

Section Provenance.
Context (styles : StyleTable).
Implicit Types (s t : TextSpan) (c : TextChunk) (cs : list TextChunk).
Implicit Types (loc : SpanLocals) (st : Layout) (a : TokenAnnotation).

(** [a] is an annotation that span [t] leaves on chunk [c]: everything
    but the depth and the z-index. *)
Definition annotation_of c a t : Prop :=
  ann_label a = span_label t ∧ ann_style a = span_style t
  ∧ ann_id a = span_id t ∧ ann_selected a = span_selected t
  ∧ ann_highlighted a = span_highlighted t
  ∧ ann_mouseSelected a = span_mouseSelected t ∧ ann_text a = span_text t
  ∧ openleft a = bool_decide (chunk_begin c ≠ span_begin t)
  ∧ openright a = bool_decide (chunk_end c ≠ span_end t)
  ∧ isFirstTokenOfSpan a = bool_decide (chunk_begin c = span_begin t).

Definition overlapping c (spans : list TextSpan) : list TextSpan :=
  filter (λ t : TextSpan, overlaps c t) spans.

Definition provenance (processed : list TextSpan) cs : Prop :=
  ∀ i c, cs !! i = Some c →
    Forall2 (annotation_of c) (token_annotations c) (rev (overlapping c processed)).

Lemma annotation_of_frame c c' a t :
  frame c' = frame c → annotation_of c a t → annotation_of c' a t.
Proof.
  unfold frame, annotation_of. intros [= -> -> _]. done.
Qed.

Lemma overlapping_frame c c' spans :
  frame c' = frame c → overlapping c' spans = overlapping c spans.
Proof.
  unfold frame. intros [= Hb He _]. apply list_filter_iff.
  intros t. unfold overlaps. by rewrite Hb, He.
Qed.

Lemma Forall2_annotation_of_frame c c' l1 l2 :
  frame c' = frame c →
  Forall2 (annotation_of c) l1 l2 → Forall2 (annotation_of c') l1 l2.
Proof.
  intros Hf H. eapply Forall2_impl; [exact H|].
  intros a t. by apply annotation_of_frame.
Qed.

Lemma annotation_of_reverse d c a t :
  annotation_of c a t → annotation_of c (reverse_annotation styles d a) t.
Proof. unfold reverse_annotation. by case_match. Qed.

Lemma provenance_flush processed st cs :
  provenance processed cs →
  provenance processed (reverseUnderlineClusterDepths styles st cs).
Proof.
  intros Hp i c'. rewrite reverseUnderlineClusterDepths_lookup.
  destruct (cs !! i) as [c|] eqn:Hc; [|done]. intros [= <-].
  specialize (Hp i c Hc).
  rewrite (overlapping_frame c) by apply frame_flush_chunk.
  apply (Forall2_annotation_of_frame c); [apply frame_flush_chunk|].
  unfold flush_chunk. case_decide; [|done]. simpl.
  apply Forall2_fmap_l. eapply Forall2_impl; [done|].
  intros a t. apply annotation_of_reverse.
Qed.

Lemma provenance_open_cluster processed s cs st :
  provenance processed cs →
  provenance processed (open_cluster styles s (cs, st)).1.
Proof.
  intros Hp. unfold open_cluster. repeat case_decide; simpl; [|done..].
  by apply provenance_flush.
Qed.

Lemma provenance_annotate processed s loc cs :
  provenance processed cs →
  provenance (processed ++ [s]) (annotate s loc <$> cs).
Proof.
  intros Hp i c'. rewrite list_lookup_fmap.
  destruct (cs !! i) as [c|] eqn:Hc; [|done]. intros [= <-].
  specialize (Hp i c Hc).
  rewrite (overlapping_frame c) by apply frame_annotate.
  apply (Forall2_annotation_of_frame c); [apply frame_annotate|].
  unfold overlapping. rewrite filter_app, rev_app_distr.
  unfold annotate. rewrite filter_cons, filter_nil.
  destruct (decide (overlaps c s)) as [Ho|Ho]; simpl; [|done].
  rewrite token_annotations_relabel. constructor; [|done].
  unfold annotation_of. simpl. by repeat case_decide.
Qed.

Lemma provenance_forEach spans : ∀ processed acc acc',
  provenance processed acc.1 →
  forEach (style_span styles) spans acc = Ok acc' →
  provenance (processed ++ spans) acc'.1.
Proof.
  induction spans as [|s spans IH]; intros processed [cs st] acc' Hp; simpl.
  - intros [= <-]. by rewrite app_nil_r.
  - rewrite style_span_closed.
    destruct (span_locals _ _ _) as [loc|]; [|done]. simpl.
    intros Hrest. rewrite (assoc_L _ processed [s] spans : processed ++ s :: spans = _).
    eapply IH; [|done]. simpl.
    by apply provenance_annotate, provenance_open_cluster.
Qed.

Lemma styleTextChunks_provenance text_chunks spans cs :
  Forall (λ c, token_annotations c = []) text_chunks →
  styleTextChunks_ text_chunks spans styles = Ok cs →
  provenance spans cs.
Proof.
  intros Hfresh. unfold styleTextChunks_.
  destruct (forEach _ _ _) as [[cs1 st1]|] eqn:Hwalk; [|done]. simpl.
  intros [= <-]. apply provenance_flush.
  apply (provenance_forEach spans [] _ _) in Hwalk; [done|].
  intros i c Hc. simpl. rewrite Forall_forall in Hfresh.
  rewrite (Hfresh c) by by eapply list_elem_of_lookup_2. constructor.
Qed.
End Provenance.

(** ** When the layout returns *)

Lemma forEach_total {A S} (f : S → A → result S) (P : S → Prop) l :
  (∀ acc x, x ∈ l → P acc → ∃ acc', f acc x = Ok acc' ∧ P acc') →
  ∀ acc, P acc → ∃ acc', forEach f l acc = Ok acc' ∧ P acc'.
Proof.
  induction l as [|x l IH]; intros Hstep acc HP; simpl; [eauto|].
  destruct (Hstep acc x) as (acc1 & -> & HP1); [left|done|]. simpl.
  apply IH; [|done]. intros ?? Hin. apply Hstep. by right.
Qed.

Section Total.
Context (styles : StyleTable).
Implicit Types (s : TextSpan) (c : TextChunk) (cs : list TextChunk).
Implicit Types (loc : SpanLocals) (st : Layout) (a : TokenAnnotation).

(** Every annotation the depth computation looks at has a style that
    [styles[style]] finds. *)
Definition known_styles (anns : list TokenAnnotation) : Prop :=
  ∀ a, a ∈ anns → ann_mouseSelected a = false →
       is_Some (lookup_style styles (ann_style a)).

Definition all_known cs : Prop :=
  ∀ c, c ∈ cs → known_styles (token_annotations c).

(** The span names a style that [styles[style]] finds, if the layout asks
    for it. *)
Definition styled cs s : Prop :=
  span_mouseSelected s = false → Exists (λ c, overlaps c s) cs →
  is_Some (lookup_style styles (span_style s)).

Lemma scan_annotations_total anns : ∀ m,
  known_styles anns → ∃ m', scan_annotations styles anns m = Ok m'.
Proof.
  induction anns as [|a anns IH]; intros m Hk; simpl; [eauto|].
  assert (known_styles anns) as Hk'.
  { intros a' Ha'. apply Hk. by right. }
  destruct (ann_mouseSelected a) eqn:Hms; [by apply IH|].
  destruct (Hk a) as [ps ->]; [left|done|]. by apply IH.
Qed.

Lemma assign_depths_total style anns :
  known_styles anns → is_Some (lookup_style styles style) →
  ∃ loc, assign_depths styles style anns = Ok loc.
Proof.
  intros Hk [ps Hps]. unfold assign_depths.
  destruct (scan_annotations_total anns
              {| missingBoxDepths := [false]; missingUnderlineDepths := [false];
                 missingZIndices := [false] |} Hk) as [m ->].
  simpl. rewrite Hps. eauto.
Qed.

Lemma span_locals_total s cs :
  all_known cs → styled cs s → ∃ loc, span_locals styles s cs = Ok loc.
Proof.
  intros Hk Hs. unfold span_locals.
  destruct (eligible styles s) eqn:He; [|eauto].
  destruct (list_find _ cs) as [[i c]|] eqn:Hfind; [|eauto].
  apply list_find_Some in Hfind as (Hi & Ho & _).
  apply list_elem_of_lookup_2 in Hi.
  apply assign_depths_total; [by apply Hk|]. apply Hs.
  - unfold eligible in He. by destruct (span_mouseSelected s).
  - apply Exists_exists. eauto.
Qed.

Lemma known_reverse d anns :
  known_styles anns → known_styles (reverse_annotation styles d <$> anns).
Proof.
  intros Hk a' (a & -> & Ha)%list_elem_of_fmap.
  rewrite ann_style_reverse.
  assert (ann_mouseSelected (reverse_annotation styles d a) = ann_mouseSelected a)
    as -> by (unfold reverse_annotation; by case_match).
  by apply Hk.
Qed.

Lemma all_known_flush st cs :
  all_known cs → all_known (reverseUnderlineClusterDepths styles st cs).
Proof.
  intros Hk c' [i Hi]%list_elem_of_lookup_1.
  rewrite reverseUnderlineClusterDepths_lookup in Hi.
  destruct (cs !! i) as [c|] eqn:Hc; [|done]. simplify_eq/=.
  apply list_elem_of_lookup_2 in Hc. unfold flush_chunk.
  case_decide; [|by apply Hk]. simpl. by apply known_reverse, Hk.
Qed.

Lemma all_known_open_cluster s cs st :
  all_known cs → all_known (open_cluster styles s (cs, st)).1.
Proof.
  intros Hk. unfold open_cluster. repeat case_decide; simpl; [|done..].
  by apply all_known_flush.
Qed.

Lemma all_known_annotate s loc cs :
  all_known cs → styled cs s → all_known (annotate s loc <$> cs).
Proof.
  intros Hk Hs c' (c & -> & Hc)%list_elem_of_fmap a.
  rewrite elem_of_annotate. intros [[Ho ->]|Ha]; [|by apply (Hk c Hc a Ha)].
  simpl. intros Hms. apply Hs; [done|]. apply Exists_exists. eauto.
Qed.

Lemma styled_frame cs cs' s :
  frame <$> cs' = frame <$> cs → styled cs s → styled cs' s.
Proof.
  intros Hf Hs Hms Hex. apply Hs; [done|]. by eapply frame_overlapping.
Qed.

Lemma styleTextChunks_total text_chunks spans :
  Forall (λ c, token_annotations c = []) text_chunks →
  (∀ s, s ∈ spans → styled text_chunks s) →
  ∃ cs, styleTextChunks_ text_chunks spans styles = Ok cs.
Proof.
  intros Hfresh Hstyled. unfold styleTextChunks_.
  destruct (forEach_total (style_span styles)
              (λ acc, all_known acc.1 ∧ frame <$> acc.1 = frame <$> text_chunks)
              spans) with (acc := (text_chunks, initial_layout))
    as ([cs st] & -> & _); [| |simpl; eauto].
  - intros [cs st] s Hs [Hk Hf]. simpl in *.
    rewrite style_span_closed.
    assert (styled (open_cluster styles s (cs, st)).1 s) as Hs1.
    { eapply styled_frame; [|by apply Hstyled].
      by rewrite frame_open_cluster. }
    destruct (span_locals_total s (open_cluster styles s (cs, st)).1)
      as [loc ->]; [by apply all_known_open_cluster|done|].
    simpl. eexists. split; [done|]. simpl. split.
    + apply all_known_annotate; [by apply all_known_open_cluster|done].
    + rewrite <- list_fmap_compose, <- Hf, <- (frame_open_cluster styles s cs st).
      apply list_fmap_ext. intros ???. apply frame_annotate.
  - split; [|done]. simpl. intros c Hc a Ha.
    rewrite Forall_forall in Hfresh. rewrite (Hfresh c Hc) in Ha.
    by apply elem_of_nil in Ha.
Qed.
End Total.

Lemma chunkText_overlaps_nonempty spans text c (s : TextSpan) :
  c ∈ chunkText spans text → s ∈ spans → overlaps c s →
  span_begin s < span_end s.
Proof.
  intros Hc Hs Ho. apply (chunkText_overlaps_iff spans text c s Hc Hs) in Ho.
  destruct (chunkText_no_boundary_inside spans text c 0 Hc) as [? _].
  { apply elem_of_boundary_indices. auto. }
  lia.
Qed.

(** [tokenize] returns whenever the spans that are laid out automatically
    and have [begin < end] name styles that [styles[style]] finds. *)
Lemma tokenize_total (spans : list SpanData) text styles :
  (∀ t, t ∈ spans → span_mouseSelected t = false → span_begin t < span_end t →
        is_Some (lookup_style styles (span_style t))) →
  ∃ r, tokenize spans text styles = Ok r.
Proof.
  intros Hstyles.
  destruct (styleTextChunks_total styles
              (chunkText (sorted_spans spans text) text) (sorted_spans spans text))
    as [cs Hcs]; [apply chunkText_fresh| |].
  - intros s Hs Hms (c & Hc & Ho)%Exists_exists.
    pose proof (chunkText_overlaps_nonempty _ _ _ _ Hc Hs Ho) as Hlt.
    unfold sorted_spans in Hs.
    apply list_elem_of_fmap in Hs as (t & -> & Ht). rewrite sort_perm in Ht.
    by apply Hstyles.
  - eexists. apply tokenize_Ok. exists cs. done.
Qed.

(** C10.  A zero-width span does not keep [tokenize] from returning, no
    chunk overlaps it, so that the annotations of every chunk are those of
    the other spans (the ones that overlap the chunk, latest first), and
    its id is in the returned [ids] at the index the sort gave the span. *)
Theorem zero_width_span_unannotated (spans : list SpanData) (text : string)
    (styles : StyleTable) (s : SpanData) :
  s ∈ spans → span_begin s = span_end s →
  ((∀ t, t ∈ spans → span_mouseSelected t = false → span_begin t < span_end t →
         is_Some (lookup_style styles (span_style t))) →
   ∃ r, tokenize spans text styles = Ok r)
  ∧ (∀ c, c ∈ chunkText (sorted_spans spans text) text → ¬ overlaps c s)
  ∧ (∀ cs c, styled_chunks spans text styles = Ok cs → c ∈ cs →
       ¬ overlaps c s
       ∧ (attach_text text s ∉ overlapping c (sorted_spans spans text))
       ∧ Forall2 (annotation_of c) (token_annotations c)
           (rev (overlapping c (sorted_spans spans text))))
  ∧ (∀ r, tokenize spans text styles = Ok r →
       ids r = (span_id <$> JS.sort compare_spans spans)
       ∧ ∃ i, JS.sort compare_spans spans !! i = Some s
              ∧ ids r !! i = Some (span_id s)).
Proof.
  intros Hs Hzero.
  assert (∀ c, c ∈ chunkText (sorted_spans spans text) text → ¬ overlaps c s)
    as Hmiss.
  { intros c Hc Ho.
    pose proof (chunkText_overlaps_nonempty _ _ _ (attach_text text s) Hc
                  (elem_of_sorted_spans _ _ _ Hs) Ho) as Hlt.
    simpl in Hlt. lia. }
  split_and!; [apply tokenize_total|done| |].
  - intros cs c Hcs [i Hi]%list_elem_of_lookup_1.
    assert (¬ overlaps c s) as Hc.
    { unfold styled_chunks, styleTextChunks_ in Hcs.
      destruct (forEach _ _ _) as [[cs1 st1]|] eqn:Hwalk; [|done].
      simpl in Hcs. simplify_eq.
      apply frame_forEach in Hwalk. simpl in Hwalk.
      assert ((frame <$> chunkText (sorted_spans spans text) text) !! i
              = Some (frame c)) as Hi'.
      { by rewrite <- Hwalk, <- (frame_reverse styles st1),
                   list_lookup_fmap, Hi. }
      rewrite list_lookup_fmap in Hi'.
      destruct (chunkText _ _ !! i) as [c0|] eqn:Hc0; [|done].
      apply list_elem_of_lookup_2, Hmiss in Hc0.
      assert (chunk_begin c = chunk_begin c0 ∧ chunk_end c = chunk_end c0)
        as [Hb He] by (unfold frame in Hi'; by simplify_eq/=).
      unfold overlaps in *. by rewrite Hb, He. }
    split_and!; [done| |].
    + unfold overlapping. rewrite list_elem_of_filter. by intros [? _].
    + eapply styleTextChunks_provenance; [apply chunkText_fresh|exact Hcs|done].
  - intros r (cs & _ & ->)%tokenize_Ok. simpl. unfold sorted_spans.
    rewrite <- list_fmap_compose. split; [done|].
    assert (s ∈ JS.sort compare_spans spans) as [i Hi]%list_elem_of_lookup_1
      by by rewrite sort_perm.
    exists i. split; [done|]. by rewrite list_lookup_fmap, Hi.
Qed.

(** ** Sample layouts *)

(** The depths a result carries: per line, per token, the id, the depth
    and the z-index of each annotation. *)
Definition layout_of (r : result Tokenized)
  : option (list (list (string * list (option string * option Z * option Z)))) :=
  match r with
  | Ok t =>
      Some (map (map (λ td, (td_text td,
                             map (λ a, (ann_id a, depth a, zIndex a))
                                 (td_token_annotations td))))
                (lines t))
  | TypeError => None
  end.

Definition two_clusters : list SpanData :=
  [span 0 4 false "a" "under"; span 1 3 false "b" "under";
   span 6 11 false "c" "under"].

Definition opted_out : list SpanData :=
  [span 0 5 true "m" "under"; span 6 11 false "f" "fixedunder"].

Definition revisited : list SpanData :=
  [span 0 4 true "m1" "under"; span 6 8 true "m2" "box"; span 0 2 false "r" "box"].

Definition unsorted : list SpanData :=
  [span 6 11 false "b" "box"; span 0 5 false "a" "box"].

(** ** The first free slot *)

Section FirstFree.
Context (styles : StyleTable).
Implicit Types (arr : list bool) (a : TokenAnnotation) (m : Missing).

Definition marked arr (n : nat) : Prop := arr !! n = Some true.

Lemma marked_array_set arr i n :
  marked (JS.array_set arr i) n ↔ n = i ∨ marked arr n.
Proof.
  unfold marked, JS.array_set. case_decide as Hi.
  - destruct (decide (n = i)) as [->|Hne].
    + rewrite list_lookup_insert_eq by done. naive_solver.
    + rewrite list_lookup_insert_ne by done. naive_solver.
  - destruct (decide (n < length arr)%nat).
    + rewrite lookup_app_l by done. split; [auto|]. intros [->|?]; [lia|done].
    + rewrite lookup_app_r by lia.
      destruct (decide (n - length arr < i - length arr)%nat).
      * rewrite lookup_app_l by (rewrite length_replicate; lia).
        rewrite lookup_replicate_2 by done.
        split; [done|]. intros [->|H]; [lia|].
        apply lookup_lt_Some in H. lia.
      * rewrite lookup_app_r by (rewrite length_replicate; lia).
        rewrite length_replicate.
        destruct (decide (n = i)) as [->|Hne].
        -- replace (i - length arr - (i - length arr))%nat with 0%nat by lia.
           naive_solver.
        -- replace (n - length arr - (i - length arr))%nat
             with (S (n - i - 1)) by lia.
           simpl. rewrite lookup_nil. split; [done|].
           intros [?|H]; [done|]. apply lookup_lt_Some in H. lia.
Qed.

Lemma marked_mark arr v n :
  marked (mark arr v) n ↔ v = Some (Z.of_nat n) ∨ marked arr n.
Proof.
  unfold mark. destruct v as [z|]; [|naive_solver].
  case_decide.
  - rewrite marked_array_set. split.
    + intros [->|?]; [left; f_equal; lia|auto].
    + intros [[= ->]|?]; [left; lia|auto].
  - split; [auto|]. intros [[= ->]|?]; [lia|done].
Qed.

Lemma findIndex_not_Some arr i :
  JS.findIndex_not arr = Some i →
  ¬ marked arr i ∧ ∀ k, (k < i)%nat → marked arr k.
Proof.
  revert i. induction arr as [|b arr IH]; intros i; simpl; [done|].
  destruct b.
  - destruct (JS.findIndex_not arr) as [i'|]; simpl; [|done].
    intros [= <-]. destruct (IH i' eq_refl) as [Hi Hlt].
    split; [done|]. intros [|k] ?; [done|]. apply Hlt. lia.
  - intros [= <-]. split; [done|]. intros; lia.
Qed.

Lemma findIndex_not_None arr :
  JS.findIndex_not arr = None →
  ∀ k, (k < length arr)%nat → marked arr k.
Proof.
  induction arr as [|b arr IH]; simpl; [intros; lia|].
  destruct b; [|done].
  destruct (JS.findIndex_not arr); [done|]. intros _ [|k] ?; [done|].
  apply IH; [done|lia].
Qed.

(** [n] is the smallest non-negative integer outside of [occupied]. *)
Definition least_free (n : Z) (occupied : Z → Prop) : Prop :=
  0 <= n ∧ ¬ occupied n ∧ ∀ k, 0 <= k < n → occupied k.

Lemma first_missing_least arr :
  least_free (first_missing arr) (λ k, marked arr (Z.to_nat k)).
Proof.
  unfold first_missing, least_free.
  destruct (JS.findIndex_not arr) as [i|] eqn:Hfind.
  - apply findIndex_not_Some in Hfind as [Hi Hlt].
    rewrite Nat2Z.id. split_and!; [lia|done|]. intros k ?. apply Hlt. lia.
  - pose proof (findIndex_not_None arr Hfind) as Hlt.
    rewrite Nat2Z.id. split_and!; [lia| |intros k ?; apply Hlt; lia].
    unfold marked. by rewrite lookup_ge_None_2.
Qed.

(** The depths and z-indices a scan sees. *)
Definition depth_seen (underline : bool) (anns : list TokenAnnotation) (k : Z) : Prop :=
  ∃ a, a ∈ anns ∧ ann_mouseSelected a = false
       ∧ is_underline styles (ann_style a) = underline ∧ depth a = Some k.
Definition zIndex_seen (anns : list TokenAnnotation) (k : Z) : Prop :=
  ∃ a, a ∈ anns ∧ ann_mouseSelected a = false ∧ zIndex a = Some k.

Lemma depth_seen_nil u k : ¬ depth_seen u [] k.
Proof. intros (a & Ha & _). by apply elem_of_nil in Ha. Qed.

Lemma zIndex_seen_nil k : ¬ zIndex_seen [] k.
Proof. intros (a & Ha & _). by apply elem_of_nil in Ha. Qed.

Lemma depth_seen_cons u a anns k :
  depth_seen u (a :: anns) k ↔
    (ann_mouseSelected a = false ∧ is_underline styles (ann_style a) = u
     ∧ depth a = Some k)
    ∨ depth_seen u anns k.
Proof.
  unfold depth_seen. split.
  - intros (b & [->|Hb]%elem_of_cons & H); [by left|right; eauto].
  - intros [H|(b & Hb & H)]; [exists a|exists b]; (split; [|done]);
      [left|by right].
Qed.

Lemma zIndex_seen_cons a anns k :
  zIndex_seen (a :: anns) k ↔
    (ann_mouseSelected a = false ∧ zIndex a = Some k) ∨ zIndex_seen anns k.
Proof.
  unfold zIndex_seen. split.
  - intros (b & [->|Hb]%elem_of_cons & H); [by left|right; eauto].
  - intros [H|(b & Hb & H)]; [exists a|exists b]; (split; [|done]);
      [left|by right].
Qed.

Lemma scan_annotations_marked anns : ∀ m m',
  scan_annotations styles anns m = Ok m' →
  ∀ n,
    (marked (missingUnderlineDepths m') n ↔
       marked (missingUnderlineDepths m) n ∨ depth_seen true anns (Z.of_nat n))
    ∧ (marked (missingBoxDepths m') n ↔
         marked (missingBoxDepths m) n ∨ depth_seen false anns (Z.of_nat n))
    ∧ (marked (missingZIndices m') n ↔
         marked (missingZIndices m) n ∨ zIndex_seen anns (Z.of_nat n)).
Proof.
  induction anns as [|a anns IH]; intros m m'; simpl.
  { intros [= <-] n.
    pose proof (depth_seen_nil true (Z.of_nat n)).
    pose proof (depth_seen_nil false (Z.of_nat n)).
    pose proof (zIndex_seen_nil (Z.of_nat n)). tauto. }
  destruct (ann_mouseSelected a) eqn:Hms.
  { intros Hscan n. destruct (IH _ _ Hscan n) as (-> & -> & ->).
    rewrite !depth_seen_cons, zIndex_seen_cons, Hms.
    split_and!; split; intros; destruct_or?; destruct_and?; try done; tauto. }
  destruct (lookup_style styles (ann_style a)) as [ps|] eqn:Hps; [|done].
  assert (is_underline styles (ann_style a) = underline_shaped ps)
    as Hu by (unfold is_underline; by rewrite Hps).
  intros Hscan n. destruct (IH _ _ Hscan n) as (-> & -> & ->).
  rewrite !depth_seen_cons, zIndex_seen_cons, Hu.
  destruct (underline_shaped ps); simpl;
    rewrite !marked_mark; split_and!; split; intros; try tauto;
    destruct_or?; destruct_and?; simplify_eq; tauto.
Qed.

(** The depth and the z-index of lines 109-116, as the claim words them. *)
Lemma assign_depths_least style anns loc :
  assign_depths styles style anns = Ok loc →
  ∃ d z, loc = {| newDepth := Some d; newZIndex := Some z |}
         ∧ least_free d (depth_seen (is_underline styles style) anns)
         ∧ least_free z (zIndex_seen anns).
Proof.
  unfold assign_depths.
  destruct (scan_annotations _ _ _) as [m|] eqn:Hscan; simpl; [|done].
  destruct (lookup_style styles style) as [ps|] eqn:Hps; [|done].
  intros [= <-]. eexists _, _. split; [done|].
  assert (is_underline styles style = underline_shaped ps)
    as -> by (unfold is_underline; by rewrite Hps).
  pose proof (scan_annotations_marked _ _ _ Hscan) as Hm. simpl in Hm.
  assert (∀ n, ¬ marked [false] n) as Hinit.
  { intros [|n]; unfold marked; simpl; [done|]. by rewrite lookup_nil. }
  assert (∀ (arr : list bool) (P : Z → Prop),
            (∀ n, marked arr n ↔ P (Z.of_nat n)) →
            least_free (first_missing arr) P) as Hleast.
  { intros arr P HP. destruct (first_missing_least arr) as (H0 & Hfree & Hlow).
    split_and!; [done| |].
    - intros HPn. apply Hfree, HP. by rewrite Z2Nat.id.
    - intros k Hk. specialize (Hlow k Hk). apply HP in Hlow.
      by rewrite Z2Nat.id in Hlow by lia. }
  split; [destruct (underline_shaped ps)|];
    apply Hleast; intros n; destruct (Hm n) as (Hu & Hb & Hz);
    [rewrite Hu|rewrite Hb|rewrite Hz]; specialize (Hinit n); tauto.
Qed.
End FirstFree.

(** ** Shape separation *)

Section Separation.
Context (styles : StyleTable).
Implicit Types (s : TextSpan) (c f : TextChunk) (cs : list TextChunk).
Implicit Types (loc : SpanLocals) (st : Layout) (a b : TokenAnnotation).
Implicit Types (anns : list TokenAnnotation).

(** An annotation of a span that went through the automatic layout. *)
Definition auto a : Prop :=
  ann_mouseSelected a = false ∧ auto_nesting styles (ann_style a) = true.

Definition same_shape a b : Prop :=
  is_underline styles (ann_style a) = is_underline styles (ann_style b).

Definition deep anns : Prop := ∀ a, a ∈ anns → auto a → is_Some (depth a).

Definition separated anns : Prop :=
  ∀ j k a b, anns !! j = Some a → anns !! k = Some b → j ≠ k →
             auto a → auto b → same_shape a b → depth a ≠ depth b.

Lemma auto_reverse d a : auto (reverse_annotation styles d a) ↔ auto a.
Proof. unfold reverse_annotation, auto. by case_match. Qed.

Lemma deep_reverse d anns :
  deep anns → deep (reverse_annotation styles d <$> anns).
Proof.
  intros Hd a' (a & -> & Ha)%list_elem_of_fmap Hauto%auto_reverse.
  destruct (Hd a Ha Hauto) as [x Hx].
  unfold reverse_annotation. case_match; simpl; eauto.
Qed.

Lemma separated_reverse d anns :
  deep anns → separated anns → separated (reverse_annotation styles d <$> anns).
Proof.
  intros Hd Hs j k a' b'. rewrite !list_lookup_fmap.
  destruct (anns !! j) as [a|] eqn:Ha; [|done].
  destruct (anns !! k) as [b|] eqn:Hb; [|done].
  intros [= <-] [= <-] Hjk Hautoa%auto_reverse Hautob%auto_reverse.
  unfold same_shape. rewrite !ann_style_reverse. intros Hshape.
  pose proof (Hs j k a b Ha Hb Hjk Hautoa Hautob Hshape) as Hne.
  destruct (Hd a) as [x Hx]; [by eapply list_elem_of_lookup_2|done|].
  destruct (Hd b) as [y Hy]; [by eapply list_elem_of_lookup_2|done|].
  unfold reverse_annotation. rewrite <- Hshape.
  destruct (is_underline styles (ann_style a)); simpl; [|done].
  rewrite Hx, Hy in *. simpl. intros [= ?]. apply Hne. f_equal. lia.
Qed.

Lemma separated_cons a anns :
  separated anns →
  (auto a → ∀ b, b ∈ anns → auto b → same_shape a b → depth a ≠ depth b) →
  separated (a :: anns).
Proof.
  intros Hs Ha [|j] [|k] a1 b1 H1 H2 Hjk; simplify_eq/=.
  - intros ? ? ?. eapply Ha; [done| |done..]. by eapply list_elem_of_lookup_2.
  - intros ? ? Hsh Heq. eapply (Ha H0 a1); [|done| |done].
    + by eapply list_elem_of_lookup_2.
    + by unfold same_shape in *.
  - apply (Hs j k); [done..|]. by intros ->.
Qed.

(** The chunk list, up to annotations and labels. *)
Definition ordered cs : Prop :=
  ∀ i j f c, (i <= j)%nat → cs !! i = Some f → cs !! j = Some c →
             chunk_begin f <= chunk_begin c.

Definition no_straddle (x : Z) cs : Prop :=
  ∀ c, c ∈ cs → chunk_begin c < x → chunk_end c <= x.

Lemma lookup_frame cs cs' i c' :
  frame <$> cs' = frame <$> cs → cs' !! i = Some c' →
  ∃ c, cs !! i = Some c ∧ chunk_begin c = chunk_begin c'
       ∧ chunk_end c = chunk_end c'.
Proof.
  intros Hf Hi.
  assert ((frame <$> cs) !! i = Some (frame c')) as Hi'
    by by rewrite <- Hf, list_lookup_fmap, Hi.
  rewrite list_lookup_fmap in Hi'.
  destruct (cs !! i) as [c|]; [|done].
  exists c. unfold frame in Hi'. by simplify_eq/=.
Qed.

Lemma ordered_frame cs cs' :
  frame <$> cs' = frame <$> cs → ordered cs → ordered cs'.
Proof.
  intros Hf Ho i j f' c' Hij Hi Hj.
  destruct (lookup_frame cs cs' i f' Hf Hi) as (f & Hf0 & <- & _).
  destruct (lookup_frame cs cs' j c' Hf Hj) as (c & Hc0 & <- & _).
  by eapply Ho.
Qed.

Lemma no_straddle_frame x cs cs' :
  frame <$> cs' = frame <$> cs → no_straddle x cs → no_straddle x cs'.
Proof.
  intros Hf Hn c' [i Hi]%list_elem_of_lookup_1.
  destruct (lookup_frame cs cs' i c' Hf Hi) as (c & Hc0 & <- & <-).
  apply Hn. by eapply list_elem_of_lookup_2.
Qed.

(** The chunks of the open cluster start before [rightMostOffset]. *)
Definition cluster_bound (acc : list TextChunk * Layout) : Prop :=
  ∀ i c, acc.1 !! i = Some c → i ∈ underlineCluster acc.2 →
         chunk_begin c < rightMostOffset acc.2.

Lemma cluster_bound_open s acc :
  cluster_bound acc →
  cluster_bound (open_cluster styles s acc)
  ∧ span_end s <= rightMostOffset (open_cluster styles s acc).2.
Proof.
  destruct acc as [cs st]. intros Hb. unfold open_cluster, cluster_bound.
  repeat case_decide; simpl.
  - split; [|lia]. intros i c _ Hi. by apply elem_of_empty in Hi.
  - split; [|lia]. intros i c Hc Hi. specialize (Hb i c Hc Hi). simpl in Hb. lia.
  - split; [|lia]. done.
Qed.

Lemma cluster_bound_visit s loc cs st :
  cluster_bound (cs, st) → span_end s <= rightMostOffset st →
  cluster_bound (annotate s loc <$> cs, visited styles s loc 0 cs st).
Proof.
  intros Hb Hend i c'. simpl. rewrite list_lookup_fmap, visited_rightMostOffset.
  destruct (cs !! i) as [c|] eqn:Hc; [|done]. intros [= <-].
  assert (chunk_begin (annotate s loc c) = chunk_begin c) as ->.
  { pose proof (frame_annotate s loc c) as Hf. unfold frame in Hf.
    by simplify_eq/=. }
  rewrite elem_of_visited_cluster.
  intros [Hi|(j & c1 & -> & Hj & Ho)]; [by apply (Hb i c)|].
  simpl in *. simplify_eq. unfold overlaps in Ho. lia.
Qed.

(** The invariant of the walk over the spans that are not
    mouse-selected, [lo] being the [begin] of the last of them: the
    chunks that end after [lo] carry the same automatic annotations as
    the chunks before them that also end after [lo], with the depths the
    spans were given. *)
Record inv (cs0 : list TextChunk) (lo : Z) (acc : list TextChunk * Layout) : Prop := {
  inv_frame : frame <$> acc.1 = frame <$> cs0;
  inv_deep : ∀ c, c ∈ acc.1 → deep (token_annotations c);
  inv_separated : ∀ c, c ∈ acc.1 → separated (token_annotations c);
  inv_shared : ∀ i j f c a,
    (i <= j)%nat → acc.1 !! i = Some f → acc.1 !! j = Some c →
    lo < chunk_end f → lo < chunk_end c →
    a ∈ token_annotations c → auto a →
    ∃ a', a' ∈ token_annotations f ∧ ann_mouseSelected a' = false
          ∧ ann_style a' = ann_style a ∧ depth a' = depth a;
  inv_cluster : cluster_bound acc;
}.

Lemma inv_flush cs0 lo cs st :
  inv cs0 lo (cs, st) →
  (∀ c, c ∈ reverseUnderlineClusterDepths styles st cs →
        deep (token_annotations c) ∧ separated (token_annotations c)).
Proof.
  intros [_ Hd Hs _ _] c' [i Hi]%list_elem_of_lookup_1. simpl in *.
  rewrite reverseUnderlineClusterDepths_lookup in Hi.
  destruct (cs !! i) as [c|] eqn:Hc; [|done]. simplify_eq/=.
  apply list_elem_of_lookup_2 in Hc. unfold flush_chunk.
  case_decide; simpl; [|by split; [apply Hd|apply Hs]].
  split; [by apply deep_reverse, Hd|by apply separated_reverse; [apply Hd|apply Hs]].
Qed.

Lemma inv_open_cluster cs0 lo s acc :
  inv cs0 lo acc → lo <= span_begin s → no_straddle (span_begin s) cs0 →
  inv cs0 (span_begin s) (open_cluster styles s acc)
  ∧ span_end s <= rightMostOffset (open_cluster styles s acc).2.
Proof.
  intros Hinv Hlo Hns.
  destruct (cluster_bound_open s acc (inv_cluster _ _ _ Hinv)) as [Hcb Hend].
  split; [|done]. destruct acc as [cs st].
  unfold open_cluster in *.
  destruct (decide (span_begin s >= rightMostOffset st)) as [Hflush|Hcont].
  - pose proof (inv_flush _ _ _ _ Hinv) as Hfl.
    destruct Hinv as [Hf Hd Hs Hsh Hb]. simpl in *.
    assert (∀ i c', reverseUnderlineClusterDepths styles st cs !! i = Some c' →
              span_begin s < chunk_end c' → cs !! i = Some c') as Hsame.
    { intros i c'. rewrite reverseUnderlineClusterDepths_lookup.
      destruct (cs !! i) as [c|] eqn:Hc; [|done]. intros [= <-] Hlive.
      unfold flush_chunk in *. case_decide as Hi; [|done]. exfalso.
      simpl in Hlive. specialize (Hb i c Hc Hi). simpl in Hb.
      assert (chunk_end c <= span_begin s); [|lia].
      eapply (no_straddle_frame _ cs0 cs); [done..| |lia].
      by eapply list_elem_of_lookup_2. }
    split; simpl.
    + by rewrite frame_reverse.
    + intros c Hc. by apply Hfl.
    + intros c Hc. by apply Hfl.
    + intros i j f c a Hij Hi Hj Hlf Hlc Ha Hauto.
      apply Hsame in Hi; [|done]. apply Hsame in Hj; [|done].
      eapply (Hsh i j f c a); (done || lia).
    + done.
  - destruct Hinv as [Hf Hd Hs Hsh Hb]. simpl in *.
    assert (inv cs0 (span_begin s) (cs, st) → ∀ st',
              cluster_bound (cs, st') → inv cs0 (span_begin s) (cs, st')) as Hst.
    { intros [] st' ?. by split. }
    case_decide; apply Hst; try done; split; simpl; try done;
      intros i j f c a Hij Hi Hj Hlf Hlc Ha Hauto;
      eapply (Hsh i j f c a); (done || lia).
Qed.
End Separation.

Section Walk.
Context (styles : StyleTable) (cs0 : list TextChunk).
Hypothesis cs0_ordered : ordered cs0.
Implicit Types (s : TextSpan) (c f : TextChunk) (cs : list TextChunk).
Implicit Types (loc : SpanLocals) (st : Layout) (a b : TokenAnnotation).

Lemma frame_annotate_all s loc cs :
  frame <$> (annotate s loc <$> cs) = frame <$> cs.
Proof.
  rewrite <- list_fmap_compose. apply list_fmap_ext.
  intros ???. apply frame_annotate.
Qed.

Lemma chunk_bounds_annotate s loc c :
  chunk_begin (annotate s loc c) = chunk_begin c
  ∧ chunk_end (annotate s loc c) = chunk_end c.
Proof.
  pose proof (frame_annotate s loc c) as Hf. unfold frame in Hf.
  by simplify_eq/=.
Qed.

Lemma span_locals_first s cs loc j c :
  span_locals styles s cs = Ok loc → eligible styles s = true →
  cs !! j = Some c → overlaps c s →
  ∃ i0 f0, (i0 <= j)%nat ∧ cs !! i0 = Some f0 ∧ overlaps f0 s
           ∧ assign_depths styles (span_style s) (token_annotations f0) = Ok loc.
Proof.
  unfold span_locals. intros Hloc He Hj Ho. rewrite He in Hloc.
  destruct (list_find _ cs) as [[i0 f0]|] eqn:Hfind.
  - apply list_find_Some in Hfind as (Hi0 & Ho0 & Hfirst).
    exists i0, f0. split_and!; [|done..].
    destruct (decide (i0 <= j)%nat); [done|].
    destruct (Hfirst j c Hj); [lia|done].
  - apply list_find_None in Hfind. rewrite Forall_forall in Hfind.
    destruct (Hfind c); [by eapply list_elem_of_lookup_2|done].
Qed.

Lemma auto_make_annotation c s loc :
  auto styles (make_annotation c s loc) →
  span_mouseSelected s = false ∧ eligible styles s = true.
Proof.
  unfold auto, eligible. simpl. intros [-> ->]. done.
Qed.

Lemma inv_visit s loc cs st :
  inv styles cs0 (span_begin s) (cs, st) →
  span_end s <= rightMostOffset st →
  span_mouseSelected s = false →
  span_locals styles s cs = Ok loc →
  inv styles cs0 (span_begin s)
    (annotate s loc <$> cs, visited styles s loc 0 cs st).
Proof.
  intros [Hf Hd Hs Hsh Hb] Hend Hms Hloc. simpl in *.
  assert (ordered cs) as Hord by by eapply ordered_frame.
  split; simpl.
  - by rewrite frame_annotate_all.
  - intros c' (c & -> & Hc)%list_elem_of_fmap a.
    rewrite elem_of_annotate. intros [[Ho ->]|Ha]; [|by apply (Hd c)].
    intros [_ He]%auto_make_annotation.
    apply list_elem_of_lookup_1 in Hc as [j Hj].
    destruct (span_locals_first s cs loc j c Hloc He Hj Ho)
      as (i0 & f0 & _ & _ & _ & Hassign).
    apply assign_depths_is_Some in Hassign as (d & z & -> & _). simpl. eauto.
  - intros c' (c & -> & Hc)%list_elem_of_fmap.
    unfold annotate. case_decide as Ho; [|by apply Hs].
    simpl. rewrite token_annotations_relabel.
    apply separated_cons; [by apply Hs|].
    intros [_ He]%auto_make_annotation b Hbin Hautob Hshape Heq.
    apply list_elem_of_lookup_1 in Hc as [j Hj].
    destruct (span_locals_first s cs loc j c Hloc He Hj Ho)
      as (i0 & f0 & Hi0j & Hi0 & Ho0 & Hassign).
    apply assign_depths_least in Hassign as (d & z & -> & (_ & Hfree & _) & _).
    simpl in Heq. apply Hfree.
    destruct (Hsh i0 j f0 c b Hi0j Hi0 Hj) as (b' & Hb' & Hmsb' & Hstyle & Hdepth);
      [unfold overlaps in *; lia..|done|done|].
    exists b'. split_and!; [done..| |congruence].
    rewrite Hstyle. unfold same_shape in Hshape. simpl in Hshape.
    by rewrite Hshape.
  - intros i j f' c' a Hij. rewrite !list_lookup_fmap.
    destruct (cs !! i) as [f|] eqn:Hi; [|done].
    destruct (cs !! j) as [c|] eqn:Hj; [|done].
    intros [= <-] [= <-].
    destruct (chunk_bounds_annotate s loc f) as [_ ->].
    destruct (chunk_bounds_annotate s loc c) as [_ ->].
    intros Hlf Hlc. rewrite elem_of_annotate. intros [[Ho ->]|Ha] Hauto.
    + exists (make_annotation f s loc). split_and!; [|done..].
      apply elem_of_annotate. left. split; [|done].
      pose proof (Hord i j f c Hij Hi Hj). unfold overlaps in *. lia.
    + destruct (Hsh i j f c a Hij Hi Hj Hlf Hlc Ha Hauto) as (a' & Ha' & ?).
      exists a'. split; [|done]. apply elem_of_annotate. by right.
  - by apply cluster_bound_visit.
Qed.

Lemma inv_style_span lo acc s acc' :
  inv styles cs0 lo acc → lo <= span_begin s →
  span_mouseSelected s = false → no_straddle (span_begin s) cs0 →
  style_span styles acc s = Ok acc' →
  inv styles cs0 (span_begin s) acc'.
Proof.
  intros Hinv Hlo Hms Hns. destruct acc as [cs st]. rewrite style_span_closed.
  destruct (inv_open_cluster styles cs0 lo s (cs, st) Hinv Hlo Hns) as [Hinv1 Hend].
  destruct (open_cluster styles s (cs, st)) as [cs1 st1]. simpl in *.
  destruct (span_locals styles s cs1) as [loc|] eqn:Hloc; [|done]. simpl.
  intros [= <-]. by apply inv_visit.
Qed.

Lemma inv_forEach rs : ∀ lo acc acc',
  StronglySorted (λ s t : TextSpan, span_begin s <= span_begin t) rs →
  Forall (λ s : TextSpan, lo <= span_begin s) rs →
  Forall (λ s : TextSpan, span_mouseSelected s = false
                          ∧ no_straddle (span_begin s) cs0) rs →
  inv styles cs0 lo acc →
  forEach (style_span styles) rs acc = Ok acc' →
  ∃ lo', inv styles cs0 lo' acc'.
Proof.
  induction rs as [|s rs IH]; intros lo acc acc' Hsorted Hlo Hreg Hinv; simpl.
  - intros [= <-]. eauto.
  - apply StronglySorted_inv in Hsorted as [Hsorted Hs].
    apply Forall_cons in Hlo as [Hlo _]. apply Forall_cons in Hreg as [[Hms Hns] Hreg].
    destruct (style_span styles acc s) as [acc1|] eqn:Hstep; [|done]. simpl.
    apply (IH (span_begin s)); [done..|].
    by eapply inv_style_span.
Qed.

(** The walk over the mouse-selected spans leaves only mouse-selected
    annotations. *)
Definition mouse_inv (acc : list TextChunk * Layout) : Prop :=
  frame <$> acc.1 = frame <$> cs0
  ∧ (∀ c a, c ∈ acc.1 → a ∈ token_annotations c → ann_mouseSelected a = true)
  ∧ cluster_bound acc.

Lemma mouse_only_open_cluster s cs st :
  (∀ c a, c ∈ cs → a ∈ token_annotations c → ann_mouseSelected a = true) →
  ∀ c a, c ∈ (open_cluster styles s (cs, st)).1 →
         a ∈ token_annotations c → ann_mouseSelected a = true.
Proof.
  intros Hm. unfold open_cluster. repeat case_decide; simpl; try done.
  intros c' a' [i Hi]%list_elem_of_lookup_1.
  rewrite reverseUnderlineClusterDepths_lookup in Hi.
  destruct (cs !! i) as [c|] eqn:Hc; [|done]. simplify_eq/=.
  apply list_elem_of_lookup_2 in Hc. rewrite elem_of_flush_chunk.
  case_decide; [|by apply Hm]. intros (a & Ha & ->).
  unfold reverse_annotation. case_match; simpl; by apply (Hm c).
Qed.

Lemma mouse_inv_style_span acc s acc' :
  mouse_inv acc → span_mouseSelected s = true →
  style_span styles acc s = Ok acc' → mouse_inv acc'.
Proof.
  intros (Hf & Hm & Hb) Hms Hstep.
  pose proof (frame_style_span styles acc s acc' Hstep) as Hf'.
  destruct acc as [cs st]. rewrite style_span_closed in Hstep.
  destruct (cluster_bound_open styles s (cs, st) Hb) as [Hb1 Hend].
  pose proof (mouse_only_open_cluster s cs st Hm) as Hm1.
  destruct (open_cluster styles s (cs, st)) as [cs1 st1]. simpl in *.
  destruct (span_locals styles s cs1) as [loc|]; [|done]. simpl in Hstep.
  simplify_eq. split_and!; simpl.
  - rewrite <- Hf. exact Hf'.
  - intros c' a (c & -> & Hc)%list_elem_of_fmap.
    rewrite elem_of_annotate. intros [[_ ->]|Ha]; [done|by apply (Hm1 c)].
  - by apply cluster_bound_visit.
Qed.

Lemma mouse_inv_inv lo acc : mouse_inv acc → inv styles cs0 lo acc.
Proof.
  intros (Hf & Hm & Hb). split; [done| | | |done].
  - intros c Hc a Ha [Hms _]. by rewrite (Hm c a) in Hms.
  - intros c Hc j k a b Ha%list_elem_of_lookup_2 _ _ [Hms _].
    by rewrite (Hm c a) in Hms.
  - intros i j f c a _ _ Hj%list_elem_of_lookup_2 _ _ Ha [Hms _].
    by rewrite (Hm c a) in Hms.
Qed.

Lemma styleTextChunks_separated ms rs cs :
  Forall (λ c, token_annotations c = []) cs0 →
  Forall (λ s : TextSpan, span_mouseSelected s = true) ms →
  Forall (λ s : TextSpan, span_mouseSelected s = false
                          ∧ no_straddle (span_begin s) cs0) rs →
  StronglySorted (λ s t : TextSpan, span_begin s <= span_begin t) rs →
  styleTextChunks_ cs0 (ms ++ rs) styles = Ok cs →
  ∀ c, c ∈ cs → separated styles (token_annotations c).
Proof.
  intros Hfresh Hms Hrs Hsorted. unfold styleTextChunks_.
  rewrite forEach_app.
  destruct (forEach _ ms _) as [acc1|] eqn:Hwalk1; [|done]. simpl.
  destruct (forEach _ rs _) as [[cs2 st2]|] eqn:Hwalk2; [|done]. simpl.
  intros [= <-] c Hc.
  assert (mouse_inv acc1) as Hm.
  { revert Hwalk1. apply forEach_invariant.
    - intros acc s acc' Hs Hacc. apply mouse_inv_style_span; [done|].
      rewrite Forall_forall in Hms. by apply Hms.
    - split_and!; [done| |by intros i c' _ Hi; apply elem_of_empty in Hi].
      simpl. intros c' a Hc' Ha. rewrite Forall_forall in Hfresh.
      rewrite (Hfresh c' Hc') in Ha. by apply elem_of_nil in Ha. }
  set (lo := match rs with s :: _ => span_begin s | [] => 0 end).
  destruct (inv_forEach rs lo acc1 (cs2, st2)) as [lo' Hinv]; [done| |done| |done|].
  - destruct rs as [|s rs']; [constructor|]. subst lo. simpl.
    apply StronglySorted_inv in Hsorted as [_ Hle].
    constructor; [lia|]. eapply Forall_impl; [exact Hle|]. simpl. intros; lia.
  - by apply mouse_inv_inv.
  - by apply (inv_flush styles cs0 lo' cs2 st2 Hinv c).
Qed.
End Walk.

(** ** The order of the spans *)

Lemma compare_spans_total (x y : SpanData) :
  compare_spans x y <= 0 ∨ compare_spans y x <= 0.
Proof.
  unfold compare_spans.
  destruct (span_mouseSelected x), (span_mouseSelected y);
    repeat case_decide; try done; lia.
Qed.

Lemma compare_spans_trans (x y z : SpanData) :
  compare_spans x y <= 0 → compare_spans y z <= 0 → compare_spans x z <= 0.
Proof.
  unfold compare_spans.
  destruct (span_mouseSelected x), (span_mouseSelected y), (span_mouseSelected z);
    repeat case_decide; try done; lia.
Qed.

Lemma sort_spans_sorted (spans : list SpanData) :
  StronglySorted (λ a b, compare_spans a b <= 0) (JS.sort compare_spans spans).
Proof.
  apply (sort_sorted compare_spans).
  - apply compare_spans_total.
  - apply compare_spans_trans.
Qed.

(** The sorted spans are the mouse-selected ones followed by the others,
    these by ascending [begin]. *)
Lemma sorted_phases (l : list SpanData) :
  StronglySorted (λ a b, compare_spans a b <= 0) l →
  ∃ ms rs, l = ms ++ rs
    ∧ Forall (λ s, span_mouseSelected s = true) ms
    ∧ Forall (λ s, span_mouseSelected s = false) rs
    ∧ StronglySorted (λ a b : SpanData, span_begin a <= span_begin b) rs.
Proof.
  induction 1 as [|x l Hsorted IH Hx].
  { exists [], []. split_and!; constructor. }
  destruct IH as (ms & rs & -> & Hms & Hrs & Hbegin).
  destruct (span_mouseSelected x) eqn:Hmx.
  { exists (x :: ms), rs. split_and!; [done|by constructor|done..]. }
  assert (∀ y, y ∈ ms ++ rs →
               span_mouseSelected y = false ∧ span_begin x <= span_begin y) as Hy.
  { rewrite Forall_forall in Hx. intros y Hle%Hx.
    unfold compare_spans in Hle. rewrite Hmx in Hle.
    destruct (span_mouseSelected y); repeat case_decide; try done; lia. }
  destruct ms as [|m ms].
  - exists [], (x :: rs). simpl in *. split_and!; [done|constructor|by constructor|].
    constructor; [done|]. apply Forall_forall. intros y Hin. by apply Hy.
  - apply Forall_cons in Hms as [Hm _].
    destruct (Hy m) as [Hm' _]; [left|]. congruence.
Qed.

Lemma StronglySorted_lookup {A} (R : A → A → Prop) (l : list A) i j x y :
  StronglySorted R l → (i < j)%nat → l !! i = Some x → l !! j = Some y → R x y.
Proof.
  intros Hs. revert i j. induction Hs as [|z l Hs IH Hz]; intros i j Hij Hi Hj.
  { by rewrite lookup_nil in Hi. }
  destruct j as [|j]; [lia|]. destruct i as [|i]; simpl in *.
  - simplify_eq. rewrite Forall_forall in Hz.
    by apply Hz, (list_elem_of_lookup_2 _ j).
  - apply (IH i j); (done || lia).
Qed.

Lemma StronglySorted_fmap_attach text (l : list SpanData) :
  StronglySorted (λ a b : SpanData, span_begin a <= span_begin b) l →
  StronglySorted (λ s t : TextSpan, span_begin s <= span_begin t)
    (attach_text text <$> l).
Proof.
  induction 1 as [|x l Hs IH Hx]; simpl; constructor; [done|].
  apply Forall_fmap. eapply Forall_impl; [exact Hx|]. done.
Qed.

Lemma chunkText_is_ordered spans text : ordered (chunkText spans text).
Proof.
  intros i j f c Hij Hi Hj.
  destruct (decide (i = j)) as [->|Hne]; [by simplify_eq|].
  pose proof (StronglySorted_lookup _ _ i j f c (chunkText_ordered spans text)) as Hb.
  unfold chunk_before in Hb.
  destruct (chunkText_no_boundary_inside spans text f 0) as [? _].
  { by eapply list_elem_of_lookup_2. }
  { apply elem_of_boundary_indices. auto. }
  specialize (Hb ltac:(lia) Hi Hj). lia.
Qed.

Lemma chunkText_no_straddle spans text (s : TextSpan) :
  s ∈ spans → no_straddle (span_begin s) (chunkText spans text).
Proof.
  intros Hs c Hc Hlt.
  destruct (chunkText_no_boundary_inside spans text c (span_begin s) Hc) as [_ ?].
  { apply elem_of_boundary_indices. eauto 6. }
  lia.
Qed.

Lemma styled_chunks_separated spans text styles cs c :
  styled_chunks spans text styles = Ok cs → c ∈ cs →
  separated styles (token_annotations c).
Proof.
  unfold styled_chunks. intros Hcs Hc.
  destruct (sorted_phases _ (sort_spans_sorted spans))
    as (ms & rs & Hsplit & Hms & Hrs & Hbegin).
  assert (sorted_spans spans text
          = (attach_text text <$> ms) ++ (attach_text text <$> rs)) as Hsp.
  { unfold sorted_spans. by rewrite Hsplit, fmap_app. }
  set (cs0 := chunkText (sorted_spans spans text) text) in *.
  rewrite Hsp in Hcs.
  eapply (styleTextChunks_separated styles cs0); [| | | | |exact Hcs|exact Hc].
  - apply chunkText_is_ordered.
  - apply chunkText_fresh.
  - apply Forall_fmap. eapply Forall_impl; [exact Hms|]. done.
  - apply Forall_forall. intros s Hs. split.
    + apply list_elem_of_fmap in Hs as (s0 & -> & Hs0).
      rewrite Forall_forall in Hrs. by apply Hrs.
    + apply chunkText_no_straddle. rewrite Hsp, elem_of_app. by right.
  - by apply StronglySorted_fmap_attach.
Qed.

Definition fixed_pair : list SpanData :=
  [span 0 5 false "p" "fixedbox"; span 0 5 false "q" "fixedbox"].

Definition fixed_and_auto : list SpanData :=
  [span 0 5 false "f" "fixedunder"; span 0 5 false "u" "under"].

(** C3, as the code has it.  After layout, on every chunk, two annotations
    of spans that went through the automatic layout (not mouse-selected,
    [autoNestingLayout] not false) and whose styles have the same shape
    category have different depths.  When such a span is visited, the depth
    it gets is the smallest non-negative integer that is not the depth of a
    same-shape, non-mouse-selected annotation of its first overlapping
    chunk, its z-index the smallest one that is not the z-index of a
    non-mouse-selected annotation there, and every chunk it overlaps gets
    an annotation with this depth and z-index in front. *)
Theorem shape_separation (spans : list SpanData) (text : string)
    (styles : StyleTable) (chunks : list TextChunk) :
  styled_chunks spans text styles = Ok chunks →
  (∀ c i j a b,
     c ∈ chunks →
     token_annotations c !! i = Some a →
     token_annotations c !! j = Some b → i ≠ j →
     auto styles a → auto styles b → same_shape styles a b →
     depth a ≠ depth b)
  ∧ (∀ cs st (s : TextSpan) cs' st' i f,
       style_span styles (cs, st) s = Ok (cs', st') →
       span_mouseSelected s = false →
       auto_nesting styles (span_style s) = true →
       list_find (λ c, overlaps c s) (open_cluster styles s (cs, st)).1
         = Some (i, f) →
       ∃ d z,
         least_free d (depth_seen styles (is_underline styles (span_style s))
                         (token_annotations f))
         ∧ least_free z (zIndex_seen (token_annotations f))
         ∧ ∀ j c', cs' !! j = Some c' → overlaps c' s →
             ∃ a rest, token_annotations c' = a :: rest
                       ∧ annotation_of c' a s
                       ∧ depth a = Some d ∧ zIndex a = Some z).
Proof.
  intros Hcs. split.
  - intros c i j a b Hc. by apply (styled_chunks_separated spans text styles chunks c).
  - clear. intros cs st s cs' st' i f Hstep Hms Hauto Hfind.
    rewrite style_span_closed in Hstep. unfold span_locals, eligible in Hstep.
    rewrite Hms, Hauto, Hfind in Hstep. simpl in Hstep.
    destruct (assign_depths _ _ _) as [loc|] eqn:Hloc; [|done].
    simpl in Hstep. simplify_eq.
    apply assign_depths_least in Hloc as (d & z & -> & Hd & Hz).
    exists d, z. split_and!; [done..|].
    intros j c'. rewrite list_lookup_fmap.
    destruct (_ !! j) as [c|]; [|done]. intros [= <-] Ho.
    assert (overlaps c s) as Hoc.
    { destruct (chunk_bounds_annotate s
                  {| newDepth := Some d; newZIndex := Some z |} c) as [Hb He].
      unfold overlaps in *. by rewrite <- Hb, <- He. }
    unfold annotate in *. rewrite decide_True in * by done.
    eexists _, _. split; [done|]. split; [|done].
    unfold annotation_of. simpl. by repeat case_decide.
Qed.

(** C3 as stated fails: two spans whose style opts out of the layout sit
    on one chunk with the same (null) depth, and a span that opted out of
    the layout shares the depth -1 with an automatic underline span. *)
Lemma opted_out_depths_collide :
  (∃ chunks c a b,
     styled_chunks fixed_pair "hello" sample_styles = Ok chunks
     ∧ c ∈ chunks ∧ token_annotations c = [a; b]
     ∧ ann_mouseSelected a = false ∧ ann_mouseSelected b = false
     ∧ same_shape sample_styles a b
     ∧ depth a = None ∧ depth b = None)
  ∧ (∃ chunks c a b,
       styled_chunks fixed_and_auto "hello" sample_styles = Ok chunks
       ∧ c ∈ chunks ∧ token_annotations c = [a; b]
       ∧ ann_mouseSelected a = false ∧ ann_mouseSelected b = false
       ∧ same_shape sample_styles a b
       ∧ depth a = Some (-1) ∧ depth b = Some (-1)).
Proof.
  split; eexists _, _, _, _;
    (split; [vm_compute; reflexivity|]); (split; [left|]); by vm_compute.
Qed.

(** ** Spans that opt out *)

Section OptOut.
Context (styles : StyleTable).
Implicit Types (s : TextSpan) (c : TextChunk) (cs : list TextChunk).
Implicit Types (loc : SpanLocals) (st : Layout) (a : TokenAnnotation).

Definition opts_out a : Prop :=
  ann_mouseSelected a = true ∨ auto_nesting styles (ann_style a) = false.

(** What an opted-out annotation keeps: a null z-index, and a null depth
    unless its style is underline-shaped. *)
Definition left_unset a : Prop :=
  opts_out a →
  zIndex a = None ∧ (is_underline styles (ann_style a) = false → depth a = None).

Definition all_left_unset cs : Prop :=
  ∀ c a, c ∈ cs → a ∈ token_annotations c → left_unset a.

Lemma left_unset_reverse d a :
  left_unset a → left_unset (reverse_annotation styles d a).
Proof.
  unfold left_unset, opts_out, reverse_annotation.
  destruct (is_underline styles (ann_style a)) eqn:Hu; simpl;
    [|by rewrite Hu; intros H Ho; apply H].
  rewrite Hu. intros H Ho. by destruct (H Ho) as [Hz _].
Qed.

Lemma all_left_unset_flush st cs :
  all_left_unset cs → all_left_unset (reverseUnderlineClusterDepths styles st cs).
Proof.
  intros Hall c' a' [i Hi]%list_elem_of_lookup_1.
  rewrite reverseUnderlineClusterDepths_lookup in Hi.
  destruct (cs !! i) as [c|] eqn:Hc; [|done]. simplify_eq/=.
  apply list_elem_of_lookup_2 in Hc. rewrite elem_of_flush_chunk.
  case_decide; [|by apply Hall]. intros (a & Ha & ->).
  by apply left_unset_reverse, (Hall c).
Qed.

Lemma all_left_unset_style_span acc s acc' :
  all_left_unset acc.1 → style_span styles acc s = Ok acc' →
  all_left_unset acc'.1.
Proof.
  destruct acc as [cs st]. intros Hall. rewrite style_span_closed.
  assert (all_left_unset (open_cluster styles s (cs, st)).1) as Hall1.
  { unfold open_cluster. repeat case_decide; simpl; try done.
    by apply all_left_unset_flush. }
  destruct (open_cluster styles s (cs, st)) as [cs1 st1]. simpl in *.
  destruct (span_locals styles s cs1) as [loc|] eqn:Hloc; [|done]. simpl.
  intros [= <-]. simpl. intros c' a (c & -> & Hc)%list_elem_of_fmap.
  rewrite elem_of_annotate. intros [[Ho ->]|Ha]; [|by apply (Hall1 c)].
  intros Hout. unfold opts_out in Hout. simpl in Hout.
  assert (eligible styles s = false) as He.
  { unfold eligible. destruct Hout as [-> | ->]; [done|apply andb_false_r]. }
  unfold span_locals in Hloc. rewrite He in Hloc. by simplify_eq.
Qed.

Lemma styleTextChunks_left_unset text_chunks spans cs :
  Forall (λ c, token_annotations c = []) text_chunks →
  styleTextChunks_ text_chunks spans styles = Ok cs →
  all_left_unset cs.
Proof.
  intros Hfresh. unfold styleTextChunks_.
  destruct (forEach _ _ _) as [[cs1 st1]|] eqn:Hwalk; [|done]. simpl.
  intros [= <-]. apply all_left_unset_flush.
  apply (forEach_invariant _ (λ acc, all_left_unset acc.1) _
           (λ acc s acc' _, all_left_unset_style_span acc s acc') _ _) in Hwalk;
    [done|].
  intros c a Hc Ha. rewrite Forall_forall in Hfresh.
  rewrite (Hfresh c Hc) in Ha. by apply elem_of_nil in Ha.
Qed.
End OptOut.

(** The part of the opt-out that holds: after [tokenize] returns, the
    annotations of a span that is mouse-selected or whose style has
    [autoNestingLayout] false have a null z-index, and a null depth when
    the style is not underline-shaped. *)
Lemma opted_out_annotations (spans : list SpanData) text styles r :
  tokenize spans text styles = Ok r →
  ∀ line td a,
    line ∈ lines r → td ∈ line → a ∈ td_token_annotations td →
    opts_out styles a →
    zIndex a = None ∧ (is_underline styles (ann_style a) = false → depth a = None).
Proof.
  intros (cs & Hcs & ->)%tokenize_Ok line td a Hline Htd Ha. simpl in Hline.
  destruct (tokenizeTextChunks_annotations cs line td Hline Htd) as (c & Hc & Heq).
  rewrite Heq in Ha.
  by apply (styleTextChunks_left_unset styles _ _ cs (chunkText_fresh _ _) Hcs c a).
Qed.

(** ** One depth per span *)

Section Consistency.
Context (styles : StyleTable) (cs0 : list TextChunk).
Implicit Types (s t : TextSpan) (c : TextChunk) (cs : list TextChunk).
Implicit Types (loc : SpanLocals) (st : Layout) (a : TokenAnnotation).

(** A span together with the depth and the z-index of its annotations. *)
Definition Assigned : Type := TextSpan * (option Z * option Z).
Implicit Types (p : Assigned) (ps : list Assigned).

(** The spans whose annotations keep one depth: all but the mouse-selected
    spans with an underline style. *)
Definition stays t : Prop :=
  span_mouseSelected t = false ∨ is_underline styles (span_style t) = false.

Definition instance_of c a p : Prop :=
  annotation_of c a p.1 ∧ zIndex a = p.2.2 ∧ (stays p.1 → depth a = p.2.1).

Definition instances ps cs : Prop :=
  ∀ i c, cs !! i = Some c →
    Forall2 (instance_of c) (token_annotations c)
      (rev (filter (λ p, overlaps c p.1) ps)).

(** Whether a flush reaches the span: one of its chunks is in the cluster. *)
Definition reached cs st t : Prop :=
  Exists (λ ic : nat * TextChunk, overlaps ic.2 t ∧ ic.1 ∈ underlineCluster st)
         (imap pair cs).

Lemma reached_iff cs st t :
  reached cs st t ↔
    ∃ i c, cs !! i = Some c ∧ overlaps c t ∧ i ∈ underlineCluster st.
Proof.
  unfold reached. rewrite Exists_exists. split.
  - intros ([i c] & (j & c' & [= -> ->] & Hj)%elem_of_lookup_imap_1 & Ho & Hi).
    eauto.
  - intros (i & c & Hi & Ho & Hin). exists (i, c). split; [|done].
    by apply (elem_of_lookup_imap_2 pair cs c i).
Qed.

Definition flush_assigned cs st p : Assigned :=
  if is_underline styles (span_style p.1) && bool_decide (reached cs st p.1)
  then (p.1, (Some (to_number p.2.1 - underlineClusterDepth st - 1), p.2.2))
  else p.

Lemma flush_assigned_fst cs st p : (flush_assigned cs st p).1 = p.1.
Proof. unfold flush_assigned. by case_match. Qed.

(** A span that is not mouse-selected has all its chunks in the open
    cluster, or none: then its chunks end at or before [lo], out of the
    reach of the spans to come. *)
Definition in_cluster (acc : list TextChunk * Layout) t : Prop :=
  span_end t <= rightMostOffset acc.2
  ∧ ∀ i c, acc.1 !! i = Some c → overlaps c t → i ∈ underlineCluster acc.2.

Definition settled (lo : Z) (acc : list TextChunk * Layout) t : Prop :=
  ∀ i c, acc.1 !! i = Some c → overlaps c t →
         (i ∉ underlineCluster acc.2) ∧ chunk_end c <= lo.

Definition tracked (lo : Z) (acc : list TextChunk * Layout) ps : Prop :=
  ∀ p, p ∈ ps → span_mouseSelected p.1 = false →
       in_cluster acc p.1 ∨ settled lo acc p.1.

Lemma Forall2_fmap_l_r_elem {A B C} (P : A → B → Prop) (Q : A → C → Prop)
    (h : A → A) (g : B → C) (l1 : list A) (l2 : list B) :
  Forall2 P l1 l2 →
  (∀ x y, y ∈ l2 → P x y → Q (h x) (g y)) →
  Forall2 Q (h <$> l1) (g <$> l2).
Proof.
  induction 1 as [|x y l1 l2 Hxy _ IH]; intros HPQ; simpl; constructor.
  - apply HPQ; [left|done].
  - apply IH. intros ?? Hin. apply HPQ. by right.
Qed.

Lemma rev_fmap {A B} (g : A → B) (l : list A) : rev (g <$> l) = g <$> rev l.
Proof.
  induction l as [|x l IH]; [done|].
  rewrite fmap_cons. simpl. by rewrite IH, fmap_app.
Qed.

Lemma elem_of_rev_iff {A} (x : A) (l : list A) : x ∈ rev l ↔ x ∈ l.
Proof. rewrite !list_elem_of_In. symmetry. apply in_rev. Qed.

Lemma filter_flush_assigned cs st c ps :
  filter (λ p, overlaps c p.1) (flush_assigned cs st <$> ps)
  = flush_assigned cs st <$> filter (λ p, overlaps c p.1) ps.
Proof.
  induction ps as [|p ps IH]; [done|].
  rewrite fmap_cons, !filter_cons, flush_assigned_fst.
  case_decide; by rewrite ?fmap_cons, IH.
Qed.

Lemma instances_flush lo ps cs st :
  instances ps cs → tracked lo (cs, st) ps →
  instances (flush_assigned cs st <$> ps)
            (reverseUnderlineClusterDepths styles st cs).
Proof.
  intros Hinst Htr i c'. rewrite reverseUnderlineClusterDepths_lookup.
  destruct (cs !! i) as [c|] eqn:Hc; [|done]. intros [= <-].
  specialize (Hinst i c Hc).
  assert (∀ p, overlaps (flush_chunk styles st i c) p.1 ↔ overlaps c p.1) as Hov.
  { intros p. pose proof (frame_flush_chunk styles st i c) as Hf.
    unfold frame in Hf. unfold overlaps.
    assert (chunk_begin (flush_chunk styles st i c) = chunk_begin c
            ∧ chunk_end (flush_chunk styles st i c) = chunk_end c) as [-> ->]
      by by simplify_eq/=.
    done. }
  rewrite (list_filter_iff _ (λ p, overlaps c p.1)) by apply Hov.
  rewrite filter_flush_assigned, rev_fmap.
  assert (∀ a p, p ∈ rev (filter (λ p, overlaps c p.1) ps) →
            instance_of c a p →
            instance_of (flush_chunk styles st i c)
              (if decide (i ∈ underlineCluster st)
               then reverse_annotation styles (underlineClusterDepth st) a else a)
              (flush_assigned cs st p)) as Hstep.
  { intros a p Hp (Hof & Hz & Hd).
    rewrite elem_of_rev_iff, list_elem_of_filter in Hp. destruct Hp as [Ho Hp].
    assert (is_underline styles (ann_style a) = is_underline styles (span_style p.1))
      as Hstyle.
    { destruct Hof as (_ & -> & _). done. }
    unfold instance_of. rewrite flush_assigned_fst. split_and!.
    - apply (annotation_of_frame c); [apply frame_flush_chunk|].
      case_decide; [by apply annotation_of_reverse|done].
    - unfold flush_assigned, reverse_annotation.
      by repeat case_match.
    - intros Hstays. specialize (Hd Hstays).
      unfold flush_assigned, reverse_annotation. rewrite Hstyle.
      destruct (is_underline styles (span_style p.1)) eqn:Hu; simpl;
        [|by case_decide].
      destruct Hstays as [Hms|?]; [|congruence].
      destruct (Htr p Hp Hms) as [[_ Hin]|Hset].
      + specialize (Hin i c Hc Ho). simpl in Hin.
        rewrite decide_True by done.
        rewrite bool_decide_eq_true_2 by (apply reached_iff; eauto).
        simpl. by rewrite Hd.
      + assert (¬ reached cs st p.1) as Hnot.
        { rewrite reached_iff. intros (j & c1 & Hj & Ho1 & Hin).
          by destruct (Hset j c1 Hj Ho1). }
        rewrite bool_decide_eq_false_2 by done.
        destruct (Hset i c Hc Ho) as [Hni _]. simpl in Hni.
        by rewrite decide_False by done. }
  assert (token_annotations (flush_chunk styles st i c)
          = (λ a, if decide (i ∈ underlineCluster st)
                  then reverse_annotation styles (underlineClusterDepth st) a
                  else a) <$> token_annotations c) as ->.
  { unfold flush_chunk. case_decide; simpl; [done|]. by rewrite list_fmap_id. }
  eapply Forall2_fmap_l_r_elem; [exact Hinst|]. exact Hstep.
Qed.
Record consistent (lo : Z) ps (acc : list TextChunk * Layout) : Prop := {
  con_frame : frame <$> acc.1 = frame <$> cs0;
  con_instances : instances ps acc.1;
  con_tracked : tracked lo acc ps;
}.

Lemma tracked_mouse lo acc ps :
  Forall (λ p, span_mouseSelected p.1 = true) ps → tracked lo acc ps.
Proof.
  intros Hms p Hp Hreg. rewrite Forall_forall in Hms.
  rewrite (Hms p Hp) in Hreg. done.
Qed.

Lemma consistent_open lo s ps acc :
  consistent lo ps acc → lo <= span_begin s → no_straddle (span_begin s) cs0 →
  ∃ ps1, fst <$> ps1 = fst <$> ps
         ∧ consistent (span_begin s) ps1 (open_cluster styles s acc)
         ∧ span_end s <= rightMostOffset (open_cluster styles s acc).2.
Proof.
  destruct acc as [cs st]. intros [Hf Hinst Htr] Hlo Hns. simpl in *.
  unfold open_cluster.
  destruct (decide (span_begin s >= rightMostOffset st)) as [Hflush|Hcont].
  - exists (flush_assigned cs st <$> ps). split_and!; [| |simpl; lia].
    { rewrite <- list_fmap_compose. apply list_fmap_ext.
      intros ???. apply flush_assigned_fst. }
    split; simpl.
    + by rewrite frame_reverse.
    + by eapply instances_flush.
    + intros p' (p & -> & Hp)%list_elem_of_fmap. rewrite flush_assigned_fst.
      intros Hreg. right. intros i c'. simpl.
      rewrite reverseUnderlineClusterDepths_lookup.
      destruct (cs !! i) as [c|] eqn:Hc; [|done]. intros [= <-] Ho.
      split; [apply not_elem_of_empty|].
      pose proof (frame_flush_chunk styles st i c) as Hfc. unfold frame in Hfc.
      assert (chunk_begin (flush_chunk styles st i c) = chunk_begin c
              ∧ chunk_end (flush_chunk styles st i c) = chunk_end c) as [Hb He]
        by by simplify_eq/=.
      unfold overlaps in Ho. rewrite Hb, He in *.
      destruct (Htr p Hp Hreg) as [[Hend _]|Hset].
      * simpl in Hend.
        eapply (no_straddle_frame _ cs0 cs); [done..| |lia].
        by eapply list_elem_of_lookup_2.
      * destruct (Hset i c Hc) as [_ ?]; [done|lia].
  - exists ps. split; [done|].
    assert (∀ st', underlineCluster st' = underlineCluster st →
                   rightMostOffset st <= rightMostOffset st' →
                   consistent (span_begin s) ps (cs, st')) as Hst.
    { intros st' Hcl HR. split; simpl; [done..|].
      intros p Hp Hreg. destruct (Htr p Hp Hreg) as [[Hend Hin]|Hset].
      - left. split; simpl in *; [lia|]. by rewrite Hcl.
      - right. intros i c Hc Ho. destruct (Hset i c Hc Ho) as [Hni ?].
        simpl in *. rewrite Hcl. split; [done|lia]. }
    case_decide; (split; [apply Hst; simpl; (done || lia)|simpl; lia]).
Qed.

Lemma consistent_visit s loc ps cs st :
  consistent (span_begin s) ps (cs, st) →
  span_end s <= rightMostOffset st →
  consistent (span_begin s) (ps ++ [(s, (newDepth loc, newZIndex loc))])
    (annotate s loc <$> cs, visited styles s loc 0 cs st).
Proof.
  intros [Hf Hinst Htr] Hend. simpl in *.
  assert (∀ i c', (annotate s loc <$> cs) !! i = Some c' →
            ∃ c, cs !! i = Some c ∧ c' = annotate s loc c
                 ∧ ∀ t, overlaps c' t ↔ overlaps c t) as Hback.
  { intros i c'. rewrite list_lookup_fmap.
    destruct (cs !! i) as [c|]; [|done]. intros [= <-].
    exists c. split_and!; [done..|]. intros t.
    destruct (chunk_bounds_annotate s loc c) as [Hb He].
    unfold overlaps. by rewrite Hb, He. }
  split; simpl.
  - by rewrite frame_annotate_all.
  - intros i c' Hi. destruct (Hback i c' Hi) as (c & Hc & -> & Hov).
    specialize (Hinst i c Hc).
    rewrite (list_filter_iff _ (λ p, overlaps c p.1)) by (intros p; apply Hov).
    rewrite filter_app, rev_app_distr, filter_cons, filter_nil. simpl.
    assert (Forall2 (instance_of (annotate s loc c)) (token_annotations c)
              (rev (filter (λ p, overlaps c p.1) ps))) as Hold.
    { eapply Forall2_impl; [exact Hinst|]. intros a p (Hof & ? & ?).
      split_and!; [|done..].
      apply (annotation_of_frame c); [apply frame_annotate|done]. }
    unfold annotate at 2. destruct (decide (overlaps c s)) as [Ho|Ho]; simpl; [|done].
    rewrite token_annotations_relabel. constructor; [|done].
    unfold instance_of. simpl. split_and!; [|done..].
    apply (annotation_of_frame c); [apply frame_annotate|].
    unfold annotation_of. simpl. by repeat case_decide.
  - intros p [Hp|Hp%list_elem_of_singleton]%elem_of_app Hreg; [|subst p].
    + destruct (Htr p Hp Hreg) as [[Hpend Hin]|Hset]; simpl in *.
      * left. split; simpl; [by rewrite visited_rightMostOffset|].
        intros i c' Hi Ho. destruct (Hback i c' Hi) as (c & Hc & -> & Hov).
        apply elem_of_visited_cluster. left. apply (Hin i c Hc). by apply Hov.
      * right. intros i c' Hi Ho. destruct (Hback i c' Hi) as (c & Hc & -> & Hov).
        destruct (Hset i c Hc) as [Hni Hle]; [by apply Hov|].
        destruct (chunk_bounds_annotate s loc c) as [_ ->]. split; [|done].
        simpl. rewrite elem_of_visited_cluster. intros [?|(j & c1 & -> & Hj & Ho1)]; [done|].
        simpl in *. simplify_eq. unfold overlaps in Ho1. lia.
    + left. split; simpl; [by rewrite visited_rightMostOffset|].
      intros i c' Hi Ho. destruct (Hback i c' Hi) as (c & Hc & -> & Hov).
      apply elem_of_visited_cluster. right. exists i, c. split_and!; [done..|].
      by apply Hov.
Qed.

Lemma consistent_style_span lo ps acc s acc' :
  consistent lo ps acc → lo <= span_begin s → no_straddle (span_begin s) cs0 →
  style_span styles acc s = Ok acc' →
  ∃ dz, ∃ ps1, fst <$> ps1 = fst <$> ps
               ∧ consistent (span_begin s) (ps1 ++ [(s, dz)]) acc'.
Proof.
  intros Hcon Hlo Hns. destruct acc as [cs st]. rewrite style_span_closed.
  destruct (consistent_open lo s ps (cs, st) Hcon Hlo Hns) as (ps1 & Hfst & Hcon1 & Hend).
  destruct (open_cluster styles s (cs, st)) as [cs1 st1]. simpl in *.
  destruct (span_locals styles s cs1) as [loc|]; [|done]. simpl.
  intros [= <-]. exists (newDepth loc, newZIndex loc), ps1. split; [done|].
  by apply consistent_visit.
Qed.

Lemma consistent_forEach rs : ∀ lo ps acc acc',
  StronglySorted (λ s t : TextSpan, span_begin s <= span_begin t) rs →
  Forall (λ s : TextSpan, lo <= span_begin s) rs →
  Forall (λ s : TextSpan, no_straddle (span_begin s) cs0) rs →
  consistent lo ps acc →
  forEach (style_span styles) rs acc = Ok acc' →
  ∃ lo' ps', fst <$> ps' = (fst <$> ps) ++ rs ∧ consistent lo' ps' acc'.
Proof.
  induction rs as [|s rs IH]; intros lo ps acc acc' Hsorted Hlo Hns Hcon; simpl.
  - intros [= <-]. exists lo, ps. by rewrite app_nil_r.
  - apply StronglySorted_inv in Hsorted as [Hsorted Hs].
    apply Forall_cons in Hlo as [Hlo _]. apply Forall_cons in Hns as [Hns Hnss].
    destruct (style_span styles acc s) as [acc1|] eqn:Hstep; [|done]. simpl.
    destruct (consistent_style_span lo ps acc s acc1 Hcon Hlo Hns Hstep)
      as (dz & ps1 & Hfst & Hcon1).
    intros Hrest.
    destruct (IH (span_begin s) (ps1 ++ [(s, dz)]) acc1 acc' Hsorted Hs Hnss Hcon1 Hrest)
      as (lo' & ps' & Hfst' & Hcon').
    exists lo', ps'. split; [|done].
    rewrite Hfst', fmap_app, Hfst. simpl. by rewrite <- app_assoc.
Qed.

Lemma mouse_forEach ms : ∀ ps acc acc',
  Forall (λ s : TextSpan, span_mouseSelected s = true
                          ∧ no_straddle (span_begin s) cs0) ms →
  Forall (λ p, span_mouseSelected p.1 = true) ps →
  frame <$> acc.1 = frame <$> cs0 → instances ps acc.1 →
  forEach (style_span styles) ms acc = Ok acc' →
  ∃ ps', fst <$> ps' = (fst <$> ps) ++ ms
         ∧ Forall (λ p, span_mouseSelected p.1 = true) ps'
         ∧ frame <$> acc'.1 = frame <$> cs0 ∧ instances ps' acc'.1.
Proof.
  induction ms as [|s ms IH]; intros ps acc acc' Hms Hps Hf Hinst; simpl.
  - intros [= <-]. exists ps. by rewrite app_nil_r.
  - apply Forall_cons in Hms as [[Hs Hns] Hms].
    destruct (style_span styles acc s) as [acc1|] eqn:Hstep; [|done]. simpl.
    destruct (consistent_style_span (span_begin s) ps acc s acc1) as
      (dz & ps1 & Hfst & [Hf1 Hinst1 _]); [|lia|done..|].
    { split; [done..|]. by apply tracked_mouse. }
    intros Hrest.
    assert (Forall (λ p, span_mouseSelected p.1 = true) (ps1 ++ [(s, dz)])) as Hps1.
    { apply Forall_app. split; [|by repeat constructor].
      apply (Forall_fmap fst (λ t : TextSpan, span_mouseSelected t = true)).
      rewrite Hfst. apply Forall_fmap. exact Hps. }
    destruct (IH (ps1 ++ [(s, dz)]) acc1 acc' Hms Hps1 Hf1 Hinst1 Hrest)
      as (ps' & Hfst' & ? & ? & ?).
    exists ps'. split; [|done].
    rewrite Hfst', fmap_app, Hfst. simpl. by rewrite <- app_assoc.
Qed.

Lemma styleTextChunks_consistent ms rs cs :
  Forall (λ c, token_annotations c = []) cs0 →
  Forall (λ s : TextSpan, span_mouseSelected s = true
                          ∧ no_straddle (span_begin s) cs0) ms →
  Forall (λ s : TextSpan, no_straddle (span_begin s) cs0) rs →
  StronglySorted (λ s t : TextSpan, span_begin s <= span_begin t) rs →
  styleTextChunks_ cs0 (ms ++ rs) styles = Ok cs →
  ∃ ps, fst <$> ps = ms ++ rs ∧ instances ps cs.
Proof.
  intros Hfresh Hms Hrs Hsorted. unfold styleTextChunks_.
  rewrite forEach_app.
  destruct (forEach _ ms _) as [acc1|] eqn:Hwalk1; [|done]. simpl.
  destruct (forEach _ rs _) as [[cs2 st2]|] eqn:Hwalk2; [|done]. simpl.
  intros [= <-].
  destruct (mouse_forEach ms [] (cs0, initial_layout) acc1)
    as (ps1 & Hfst1 & Hps1 & Hf1 & Hinst1); [done|constructor|done| |done|].
  { intros i c Hc. simpl. rewrite Forall_forall in Hfresh.
    rewrite (Hfresh c) by by eapply list_elem_of_lookup_2. constructor. }
  set (lo := match rs with s :: _ => span_begin s | [] => 0 end).
  destruct (consistent_forEach rs lo ps1 acc1 (cs2, st2))
    as (lo' & ps2 & Hfst2 & [Hf2 Hinst2 Htr2]); [done| |done| |done|].
  - destruct rs as [|s rs']; [constructor|]. subst lo. simpl.
    apply StronglySorted_inv in Hsorted as [_ Hle].
    constructor; [lia|]. eapply Forall_impl; [exact Hle|]. simpl. intros; lia.
  - split; [done..|]. by apply tracked_mouse.
  - exists (flush_assigned cs2 st2 <$> ps2). split.
    + rewrite <- list_fmap_compose.
      rewrite (list_fmap_ext _ fst ps2) by (intros ???; apply flush_assigned_fst).
      by rewrite Hfst2, Hfst1.
    + by eapply instances_flush.
Qed.
End Consistency.

(** What holds of the agreement between the annotations of a span: after
    layout, every span has one z-index and, unless it is mouse-selected
    with an underline style, one depth, such that the annotations of every
    chunk are those of the spans that overlap it, latest first, each with
    the z-index and the depth of its span. *)
Lemma depth_consistency (spans : list SpanData) text styles cs :
  styled_chunks spans text styles = Ok cs →
  ∃ ps : list Assigned,
    fst <$> ps = sorted_spans spans text
    ∧ ∀ c, c ∈ cs →
        Forall2 (instance_of styles c) (token_annotations c)
          (rev (filter (λ p : Assigned, overlaps c p.1) ps)).
Proof.
  unfold styled_chunks. intros Hcs.
  destruct (sorted_phases _ (sort_spans_sorted spans))
    as (ms & rs & Hsplit & Hms & Hrs & Hbegin).
  assert (sorted_spans spans text
          = (attach_text text <$> ms) ++ (attach_text text <$> rs)) as Hsp.
  { unfold sorted_spans. by rewrite Hsplit, fmap_app. }
  set (cs0 := chunkText (sorted_spans spans text) text) in *.
  rewrite Hsp in Hcs.
  destruct (styleTextChunks_consistent styles cs0
              (attach_text text <$> ms) (attach_text text <$> rs) cs)
    as (ps & Hfst & Hinst); [| | | |exact Hcs|].
  - apply chunkText_fresh.
  - apply Forall_forall. intros s Hs. split.
    + apply list_elem_of_fmap in Hs as (s0 & -> & Hs0).
      rewrite Forall_forall in Hms. by apply Hms.
    + apply chunkText_no_straddle. rewrite Hsp, elem_of_app. by left.
  - apply Forall_forall. intros s Hs.
    apply chunkText_no_straddle. rewrite Hsp, elem_of_app. by right.
  - by apply StronglySorted_fmap_attach.
  - exists ps. split; [by rewrite Hsp|].
    intros c [i Hi]%list_elem_of_lookup_1. by apply (Hinst i c).
Qed.

(** ** The layouts of the sample inputs *)

(** A flush leaves [underlineClusterDepth] as it is. *)
Lemma open_cluster_keeps_depth styles (s : TextSpan) acc :
  underlineClusterDepth (open_cluster styles s acc).2 = underlineClusterDepth acc.2.
Proof. destruct acc as [cs st]. unfold open_cluster. by repeat case_decide. Qed.

(** C1.  The span "c" is alone in the second cluster and gets the depth 0
    there, so that the final flush should rewrite it to 0 - 0 - 1 = -1; it
    becomes -2, the value for the depth 1 that the first cluster reached. *)
Theorem cluster_depth_outlives_cluster :
  layout_of (tokenize two_clusters "hello world" sample_styles)
  = Some [[("h", [(Some "a", Some (-2), Some 0)]);
           ("el", [(Some "b", Some (-1), Some 1); (Some "a", Some (-2), Some 0)]);
           ("l", [(Some "a", Some (-2), Some 0)]);
           ("o", []);
           (" ", []);
           ("world", [(Some "c", Some (-2), Some 0)])]].
Proof. by vm_compute. Qed.

(** C2.  A mouse-selected span and a span whose style has
    [autoNestingLayout] false keep a null z-index, but with an underline
    style their null depth is -1 after the flush. *)
Theorem opted_out_underline_depth :
  layout_of (tokenize opted_out "hello world" sample_styles)
  = Some [[("hello", [(Some "m", Some (-1), None)]);
           (" ", []);
           ("world", [(Some "f", Some (-1), None)])]].
Proof. by vm_compute. Qed.

(** C4.  The mouse-selected span "m1" covers the chunks "he" and "ll";
    both are flushed when "m2" opens a cluster, and "he" is flushed once
    more after the span "r" brought it back into the cluster: the depth of
    "m1" is -2 on "he" and -1 on "ll". *)
Theorem revisited_chunk_depths_differ :
  layout_of (tokenize revisited "hello world" sample_styles)
  = Some [[("he", [(Some "r", Some 0, Some 0); (Some "m1", Some (-2), None)]);
           ("ll", [(Some "m1", Some (-1), None)]);
           ("o", []);
           (" ", []);
           ("wo", [(Some "m2", None, None)]);
           ("rld", [])]].
Proof. by vm_compute. Qed.

(** C9.  After [tokenize], the array the caller passed holds its spans in
    sorted order: each span is unchanged, their order is not. *)
Theorem caller_array_is_sorted_in_place :
  (tokenize_array unsorted "hello world" sample_styles).1
  = [span 0 5 false "a" "box"; span 6 11 false "b" "box"]
  ∧ (tokenize_array unsorted "hello world" sample_styles).1 <> unsorted.
Proof. split; [by vm_compute|]. intros [=]. Qed.

(** ** The theorems at sample inputs *)

Definition in_range_spans : list TextSpan :=
  attach_text "hello world" <$> [span 0 5 false "a" "box"; span 3 8 false "b" "under"].

(** The five offsets at which these spans cut the eleven characters. *)
Definition in_range_boundaries : gset Z := {[0; 3; 5; 8; 11]}.

Lemma shape_separation_witness :
  ∃ chunks, styled_chunks two_clusters "hello world" sample_styles = Ok chunks
       ∧ ∀ c i j a b,
           c ∈ chunks →
           token_annotations c !! i = Some a →
           token_annotations c !! j = Some b → i ≠ j →
           auto sample_styles a → auto sample_styles b →
           same_shape sample_styles a b →
           depth a ≠ depth b.
Proof.
  eexists. split; [vm_compute; reflexivity|].
  apply (shape_separation two_clusters "hello world" sample_styles).
  vm_compute; reflexivity.
Defined.

Lemma depth_sign_invariant_witness :
  ∃ r, tokenize two_clusters "hello world" sample_styles = Ok r
       ∧ ∀ line td a x,
           line ∈ lines r → td ∈ line → a ∈ td_token_annotations td →
           depth a = Some x →
           if is_underline sample_styles (ann_style a) then x < 0 else 0 <= x.
Proof.
  eexists. split; [vm_compute; reflexivity|].
  apply (depth_sign_invariant two_clusters "hello world" sample_styles).
  vm_compute; reflexivity.
Defined.

Lemma chunkText_round_trip_witness :
  concat_tokens (flat_map tokens (chunkText in_range_spans "hello world"))
  = "hello world"
  ∧ length (chunkText in_range_spans "hello world")
    = (size in_range_boundaries - 1)%nat.
Proof.
  apply (chunkText_round_trip in_range_spans "hello world").
  - intros s Hs. unfold in_range_spans in Hs. simpl in Hs.
    apply elem_of_cons in Hs as [->|Hs]; [simpl; lia|].
    apply elem_of_cons in Hs as [->|Hs]; [simpl; lia|].
    by apply elem_of_nil in Hs.
  - intros x. rewrite <- elem_of_boundary_indices.
    unfold boundary_indices, in_range_spans, in_range_boundaries. simpl.
    rewrite !elem_of_union, !elem_of_singleton, !elem_of_cons, elem_of_nil.
    lia.
Defined.

Lemma unknown_style_raises_witness :
  tokenize [span 0 4 false "x" "nostyle"] "hello" sample_styles = TypeError.
Proof.
  apply (unknown_style_raises _ "hello" sample_styles (span 0 4 false "x" "nostyle")).
  - left.
  - reflexivity.
  - simpl. lia.
  - vm_compute. reflexivity.
  - apply (bool_decide_unpack _). vm_compute. exact I.
Defined.

Lemma line_splitter_lines_witness :
  (∃ (closed : list (list TokenData)) (final : list TokenData),
    tokenizeTextChunks newline_chunks
    = closed ++ (if decide (final ≠ []
                            ∨ last (last_visited_tokens newline_chunks)
                              = Some newline_token)
                 then [final] else [])
    ∧ length closed = length (filter is_newline (all_tokens newline_chunks))
    ∧ closed_texts closed ++ (td_text <$> final) = all_tokens newline_chunks
    ∧ concat closed ++ final
      = filter (λ td, td_text td ≠ newline_token)
          (flat_map (λ c, imap (token_data c) (tokens c)) newline_chunks)
    ∧ Forall (λ td, JS.safe_integer (td_begin td) ∧ JS.safe_integer (td_end td))
        (concat closed ++ final))
  ∧ (Forall (λ c, tokens c ≠ []) newline_chunks →
     last (last_visited_tokens newline_chunks) = last (all_tokens newline_chunks))
  ∧ (∀ spans text, Forall (λ c, tokens c ≠ []) (chunkText spans text))
  ∧ map (map (λ td, (td_text td, key td, td_begin td, td_end td)))
      (tokenizeTextChunks newline_chunks)
    = [[("a", "0-1", 0, 1)]; []].
Proof.
  apply (line_splitter_lines newline_chunks).
  repeat constructor; vm_compute; done.
Defined.

Lemma zero_width_span_unannotated_witness :
  ∃ r, tokenize unstyled_spans "hello" sample_styles = Ok r
       ∧ ids r = [Some "m1"; Some "z"]
       ∧ ∀ cs c, styled_chunks unstyled_spans "hello" sample_styles = Ok cs →
                 c ∈ cs → ¬ overlaps c (span 2 2 false "z" "nostyle").
Proof.
  destruct (zero_width_span_unannotated unstyled_spans "hello" sample_styles
              (span 2 2 false "z" "nostyle")) as (_ & _ & Hchunks & _).
  - right. left.
  - reflexivity.
  - eexists. split; [vm_compute; reflexivity|]. split; [reflexivity|].
    intros cs c Hcs Hc. by destruct (Hchunks cs c Hcs Hc).
Defined.

(** * Further properties *)

(** ** chunkText: where the chunks lie *)

Lemma chunks_between_bounds text l :
  chunk_begin <$> chunks_between text l = take (length l - 1) l
  ∧ chunk_end <$> chunks_between text l = drop 1 l.
Proof.
  induction l as [|b [|e l] IH]; [done..|].
  rewrite chunks_between_cons, !fmap_cons. destruct IH as [-> ->].
  simpl. by rewrite Nat.sub_0_r.
Qed.

(** The chunks are the gaps between the consecutive distinct boundary
    values: 0, the length of the text and the [begin] and [end] of every
    span, in ascending order.  A chunk begins where the one before it
    ends. *)
Theorem chunkText_boundaries (spans : list TextSpan) (text : string) :
  ∃ indices : list Z,
    StronglySorted Z.lt indices
    ∧ (∀ x, x ∈ indices ↔
         x = 0 ∨ x = Z.of_nat (String.length text)
         ∨ ∃ s : TextSpan, s ∈ spans ∧ (x = span_begin s ∨ x = span_end s))
    ∧ chunk_begin <$> chunkText spans text = take (length indices - 1) indices
    ∧ chunk_end <$> chunkText spans text = drop 1 indices.
Proof.
  exists (sorted_indices spans text). split_and!.
  - apply sorted_indices_sorted.
  - intros x. by rewrite elem_of_sorted_indices, elem_of_boundary_indices.
  - apply chunks_between_bounds.
  - apply chunks_between_bounds.
Qed.

Lemma chunks_between_ending_at text l x y :
  StronglySorted Z.lt l → x ∈ l → y ∈ l → x < y →
  ∃ c, c ∈ chunks_between text l ∧ chunk_end c = y.
Proof.
  intros Hs Hx Hy Hxy.
  assert (y ∈ chunk_end <$> chunks_between text l) as Hin.
  { destruct (chunks_between_bounds text l) as [_ ->].
    destruct l as [|h l]; [by apply elem_of_nil in Hy|]. simpl.
    apply elem_of_cons in Hy as [->|Hy]; [|done].
    apply StronglySorted_inv in Hs as [_ Hh]. rewrite Forall_forall in Hh.
    apply elem_of_cons in Hx as [->|Hx]; [lia|]. specialize (Hh x Hx). lia. }
  apply list_elem_of_fmap in Hin as (c & -> & Hc). eauto.
Qed.

(** A span never covers part of a chunk: it overlaps a chunk exactly when
    it contains it.  A span with [begin < end] has a chunk that begins at
    its [begin] and a chunk that ends at its [end]. *)
Theorem chunkText_span_cover (spans : list TextSpan) (text : string)
    (s : TextSpan) :
  s ∈ spans →
  (∀ c, c ∈ chunkText spans text →
        overlaps c s ↔ span_begin s <= chunk_begin c ∧ chunk_end c <= span_end s)
  ∧ (span_begin s < span_end s →
     (∃ c, c ∈ chunkText spans text ∧ overlaps c s
           ∧ chunk_begin c = span_begin s)
     ∧ (∃ c, c ∈ chunkText spans text ∧ overlaps c s
             ∧ chunk_end c = span_end s)).
Proof.
  intros Hs. split.
  { intros c Hc. by apply (chunkText_overlaps_iff spans text). }
  intros Hlt.
  assert (span_begin s ∈ sorted_indices spans text) as Hb.
  { apply elem_of_sorted_indices, elem_of_boundary_indices. eauto 6. }
  assert (span_end s ∈ sorted_indices spans text) as He.
  { apply elem_of_sorted_indices, elem_of_boundary_indices. eauto 6. }
  pose proof (sorted_indices_sorted spans text) as Hsorted.
  split.
  - destruct (chunks_between_starting_at text _ _ _ Hsorted Hb He Hlt)
      as (c & Hc & Hcb & Hce).
    exists c. split_and!; [done| |done].
    apply (chunkText_overlaps_iff spans text c s Hc Hs). lia.
  - destruct (chunks_between_ending_at text _ _ _ Hsorted Hb He Hlt)
      as (c & Hc & Hce).
    exists c. split_and!; [done| |done].
    destruct (chunkText_no_boundary_inside spans text c (span_begin s) Hc)
      as [Hpos Hout].
    { apply elem_of_boundary_indices. eauto 6. }
    unfold overlaps. lia.
Qed.

Lemma chunkText_span_cover_witness :
  (∀ c, c ∈ chunkText in_range_spans "hello world" →
        overlaps c (attach_text "hello world" (span 3 8 false "b" "under"))
        ↔ 3 <= chunk_begin c ∧ chunk_end c <= 8)
  ∧ ∃ c, c ∈ chunkText in_range_spans "hello world" ∧ chunk_begin c = 3.
Proof.
  destruct (chunkText_span_cover in_range_spans "hello world"
              (attach_text "hello world" (span 3 8 false "b" "under")))
    as [Hcover Hends].
  - right. left.
  - split; [exact Hcover|].
    destruct Hends as [(c & Hc & _ & Hb) _]; [simpl; lia|]. by exists c.
Defined.

(** ** chunkText: the tokens of a chunk *)

Fixpoint all_chars (p : ascii → bool) (s : string) : bool :=
  match s with
  | EmptyString => true
  | String c s' => p c && all_chars p s'
  end.

(** A match of [/\n|[^ \n]+|[ ]+/]: one newline, or a non-empty run of
    spaces, or a non-empty run of characters that are neither. *)
Definition is_token (t : string) : Prop :=
  t = newline_token
  ∨ (t ≠ EmptyString ∧ all_chars JS.is_space t = true)
  ∨ (t ≠ EmptyString ∧ all_chars JS.is_word_char t = true).

(** [R] relates every element of the list to the next one. *)
Fixpoint adjacent {A} (R : A → A → Prop) (l : list A) : Prop :=
  match l with
  | x :: (y :: _) as l' => R x y ∧ adjacent R l'
  | _ => True
  end.

(** Two tokens that one longer match of [[ ]+] or [[^ \n]+] would not
    cover. *)
Definition not_one_run (t1 t2 : string) : Prop :=
  all_chars JS.is_space (t1 +:+ t2) = false
  ∧ all_chars JS.is_word_char (t1 +:+ t2) = false.

Lemma all_chars_app p (s1 s2 : string) :
  all_chars p (s1 +:+ s2) = all_chars p s1 && all_chars p s2.
Proof.
  induction s1 as [|c s1 IH]; [done|].
  rewrite append_cons. simpl. by rewrite IH, andb_assoc.
Qed.

Lemma run_all p s r rest :
  JS.run p s = (r, rest) →
  all_chars p r = true
  ∧ match rest with
    | EmptyString => True
    | String c _ => p c = false
    end.
Proof.
  revert r rest. induction s as [|c s IH]; intros r rest; simpl.
  - by intros [= <- <-].
  - destruct (p c) eqn:Hc.
    + destruct (JS.run p s) as [r' rest']. intros [= <- <-].
      destruct (IH _ _ eq_refl) as [Hr Hrest]. simpl. by rewrite Hc, Hr.
    + intros [= <- <-]. done.
Qed.

Lemma char_classes c :
  Ascii.eqb c JS.newline = false → JS.is_word_char c = false →
  JS.is_space c = true.
Proof.
  unfold JS.is_word_char, JS.is_space. intros ->.
  destruct (Ascii.eqb c JS.space); done.
Qed.

Lemma word_char_not_space c : JS.is_word_char c = true → JS.is_space c = false.
Proof.
  unfold JS.is_word_char, JS.is_space. destruct (Ascii.eqb c JS.space); done.
Qed.

Lemma newline_classes c :
  Ascii.eqb c JS.newline = true →
  JS.is_space c = false ∧ JS.is_word_char c = false.
Proof.
  intros ->%Ascii.eqb_eq. done.
Qed.

Lemma match_loop_tokens fuel s : Forall is_token (JS.match_loop fuel s).
Proof.
  revert s. induction fuel as [|fuel IH]; intros [|c s]; simpl; try by constructor.
  destruct (Ascii.eqb c JS.newline) eqn:Hnl.
  { constructor; [|done]. left. apply Ascii.eqb_eq in Hnl as ->. done. }
  destruct (JS.is_word_char c) eqn:Hw.
  - destruct (JS.run JS.is_word_char s) as [r rest] eqn:Hrun.
    apply run_all in Hrun as [Hr _].
    constructor; [|done]. right; right. split; [done|]. simpl. by rewrite Hw.
  - destruct (JS.run JS.is_space s) as [r rest] eqn:Hrun.
    apply run_all in Hrun as [Hr _].
    constructor; [|done]. right; left. split; [done|]. simpl.
    by rewrite (char_classes c Hnl Hw).
Qed.

(** The first match starts at the first character. *)
Lemma match_loop_head fuel s t l :
  JS.match_loop fuel s = t :: l →
  ∃ c r s', t = String c r ∧ s = String c s'.
Proof.
  destruct fuel as [|fuel], s as [|c s]; simpl; try done.
  destruct (Ascii.eqb c JS.newline); [intros [= <- _]; eauto|].
  destruct (JS.is_word_char c).
  - destruct (JS.run JS.is_word_char s). intros [= <- _]; eauto.
  - destruct (JS.run JS.is_space s). intros [= <- _]; eauto.
Qed.

Lemma match_loop_adjacent fuel s : adjacent not_one_run (JS.match_loop fuel s).
Proof.
  revert s. induction fuel as [|fuel IH]; intros [|c s]; simpl; try done.
  assert (∀ t l, adjacent not_one_run l →
            match l with
            | [] => True
            | t2 :: _ => not_one_run t t2
            end → adjacent not_one_run (t :: l)) as Hcons.
  { intros t [|t2 l]; simpl; tauto. }
  destruct (Ascii.eqb c JS.newline) eqn:Hnl.
  { apply Hcons; [apply IH|].
    destruct (JS.match_loop fuel s); [done|].
    destruct (newline_classes c Hnl) as [Hs Hw].
    split; rewrite append_cons; simpl; [by rewrite Hs|by rewrite Hw]. }
  destruct (JS.is_word_char c) eqn:Hw.
  - destruct (JS.run JS.is_word_char s) as [r rest] eqn:Hrun.
    apply run_all in Hrun as [Hr Hrest].
    apply Hcons; [apply IH|].
    destruct (JS.match_loop fuel rest) as [|t2 l] eqn:Hloop; [done|].
    apply match_loop_head in Hloop as (c2 & r2 & s2 & -> & ->).
    split; rewrite append_cons; simpl.
    + by rewrite (word_char_not_space c Hw).
    + rewrite all_chars_app. simpl. rewrite Hrest. simpl.
      by rewrite andb_false_r, andb_false_r.
  - destruct (JS.run JS.is_space s) as [r rest] eqn:Hrun.
    apply run_all in Hrun as [Hr Hrest].
    apply Hcons; [apply IH|].
    destruct (JS.match_loop fuel rest) as [|t2 l] eqn:Hloop; [done|].
    apply match_loop_head in Hloop as (c2 & r2 & s2 & -> & ->).
    split; rewrite append_cons; simpl.
    + rewrite all_chars_app. simpl. rewrite Hrest. simpl.
      by rewrite andb_false_r, andb_false_r.
    + by rewrite Hw.
Qed.

Lemma is_token_nonempty t : is_token t → (0 < String.length t)%nat.
Proof.
  intros [->|[[Ht _]|[Ht _]]]; [simpl; lia|..]; destruct t; simpl; (done || lia).
Qed.

Lemma filter_nonempty_tokens l :
  Forall is_token l → filter (λ t, 0 < String.length t)%nat l = l.
Proof.
  induction 1 as [|t l Ht _ IH]; [done|].
  rewrite filter_cons_True by by apply is_token_nonempty. by rewrite IH.
Qed.

Lemma chunk_tokens_matches sl :
  sl ≠ EmptyString → chunk_tokens sl = JS.match_tokens sl.
Proof.
  intros Hne. unfold chunk_tokens.
  rewrite decide_True by (destruct sl; simpl; (done || lia)).
  apply filter_nonempty_tokens, match_loop_tokens.
Qed.

(** The tokens of a chunk whose slice of the text is not empty are matches
    of the regular expression: each is a newline, a run of spaces or a run
    of other characters, and none is empty.  A chunk whose slice is empty
    (it lies outside of the text) holds the empty token alone. *)
Theorem chunkText_token_classes (spans : list TextSpan) (text : string) :
  Forall (λ c,
            let text_slice := JS.slice text (chunk_begin c) (chunk_end c) in
            if decide (text_slice = EmptyString)
            then tokens c = [EmptyString]
            else Forall is_token (tokens c))
         (chunkText spans text).
Proof.
  apply Forall_forall. intros c Hc.
  apply elem_of_chunks_between in Hc as (l1 & l2 & b & e & _ & ->). simpl.
  case_decide as Hsl.
  - by rewrite Hsl.
  - rewrite chunk_tokens_matches by done. apply match_loop_tokens.
Qed.

(** The matches are the longest ones: no two tokens that follow each other
    in a chunk are both runs of spaces, or both runs of other characters. *)
Theorem chunkText_tokens_maximal (spans : list TextSpan) (text : string) :
  Forall (λ c, adjacent not_one_run (tokens c)) (chunkText spans text).
Proof.
  apply Forall_forall. intros c Hc.
  apply elem_of_chunks_between in Hc as (l1 & l2 & b & e & _ & ->). simpl.
  destruct (decide (JS.slice text b e = EmptyString)) as [->|Hsl]; [done|].
  rewrite chunk_tokens_matches by done. apply match_loop_adjacent.
Qed.

(** ** The order of the spans and of the ids *)

(** The order in which [tokenize] lays the spans out: the mouse-selected
    spans first; among spans that are both mouse-selected, or both not,
    by ascending [begin], and by descending [end] where the [begin]s are
    equal. *)
Definition display_order (a b : SpanData) : Prop :=
  (span_mouseSelected b = true → span_mouseSelected a = true)
  ∧ (span_mouseSelected a = span_mouseSelected b →
     span_begin a <= span_begin b
     ∧ (span_begin a = span_begin b → span_end b <= span_end a)).

Lemma compare_spans_display_order a b :
  compare_spans a b <= 0 ↔ display_order a b.
Proof.
  unfold compare_spans, display_order.
  destruct (span_mouseSelected a), (span_mouseSelected b);
    repeat case_decide; try done; split; try lia; try naive_solver lia.
Qed.

(** The spans are laid out in display order: the array the caller passed
    holds, when [tokenize] is done, the spans it was given in that order,
    and [ids] lists their ids in that order too. *)
Theorem tokenize_display_order (spans : list SpanData) (text : string)
    (styles : StyleTable) :
  let sorted := (tokenize_array spans text styles).1 in
  sorted ≡ₚ spans
  ∧ StronglySorted display_order sorted
  ∧ ∀ r, tokenize spans text styles = Ok r → ids r = span_id <$> sorted.
Proof.
  simpl. split_and!.
  - apply sort_perm.
  - eapply StronglySorted_weaken; [|apply sort_spans_sorted].
    intros a b. apply compare_spans_display_order.
  - intros r (cs & _ & ->)%tokenize_Ok. simpl. unfold sorted_spans.
    by rewrite <- list_fmap_compose.
Qed.

(** Spans that the comparison function does not tell apart. *)
Definition same_rank (a b : SpanData) : Prop :=
  span_mouseSelected a = span_mouseSelected b
  ∧ span_begin a = span_begin b ∧ span_end a = span_end b.
#[global] Instance same_rank_dec a b : Decision (same_rank a b).
Proof. unfold same_rank. apply _. Defined.

Lemma compare_spans_same_rank a b : same_rank a b → compare_spans b a = 0.
Proof.
  intros (Hms & Hb & He). unfold compare_spans. rewrite Hms, Hb, He.
  repeat case_decide; (done || lia).
Qed.

Lemma same_rank_trans k a b : same_rank k a → same_rank k b → same_rank a b.
Proof. unfold same_rank. intros (-> & -> & ->) (-> & -> & ->). done. Qed.

Lemma filter_insert_same_rank k x l :
  filter (same_rank k) (JS.insert compare_spans x l)
  = filter (same_rank k) (x :: l).
Proof.
  induction l as [|y l IH]; simpl; [done|].
  case_decide as Hxy; [done|].
  rewrite filter_cons, IH, !filter_cons.
  destruct (decide (same_rank k y)) as [Hy|Hy]; [|done].
  destruct (decide (same_rank k x)) as [Hx|Hx]; [|done].
  destruct Hxy. rewrite (compare_spans_same_rank y x); [lia|].
  by apply (same_rank_trans k).
Qed.

(** The sort is stable: spans with the same [mouseSelected], [begin] and
    [end] stay in the order the caller gave them. *)
Theorem sort_spans_stable (spans : list SpanData) (k : SpanData) :
  filter (same_rank k) (JS.sort compare_spans spans)
  = filter (same_rank k) spans.
Proof.
  induction spans as [|x l IH]; [done|]. simpl.
  by rewrite filter_insert_same_rank, !filter_cons, IH.
Qed.

Lemma sort_sorted_id {A} (cmp : A → A → Z) (l : list A) :
  StronglySorted (λ x y, cmp x y <= 0) l → JS.sort cmp l = l.
Proof.
  induction 1 as [|x l Hs IH Hx]; [done|]. simpl. rewrite IH.
  destruct l as [|y l]; [done|]. simpl.
  apply Forall_cons in Hx as [Hxy _]. by rewrite decide_True.
Qed.

(** A second call on the same array finds it in display order, leaves it
    as it is and returns what the first call returned. *)
Theorem tokenize_array_idempotent (spans : list SpanData) (text : string)
    (styles : StyleTable) :
  tokenize_array (tokenize_array spans text styles).1 text styles
  = tokenize_array spans text styles.
Proof.
  unfold tokenize_array. simpl.
  by rewrite (sort_sorted_id compare_spans _ (sort_spans_sorted spans)).
Qed.

(** ** styleTextChunks_: what it changes and when it returns *)

(** The layout writes labels and annotations only: it returns as many
    chunks as it was given, each with the [begin], the [end] and the
    tokens it had. *)
Theorem styleTextChunks_keeps_frame (text_chunks : list TextChunk)
    (spans : list TextSpan) (styles : StyleTable) (cs : list TextChunk) :
  styleTextChunks_ text_chunks spans styles = Ok cs →
  (λ c, (chunk_begin c, chunk_end c, tokens c)) <$> cs
  = (λ c, (chunk_begin c, chunk_end c, tokens c)) <$> text_chunks.
Proof.
  unfold styleTextChunks_.
  destruct (forEach _ _ _) as [[cs1 st1]|] eqn:Hwalk; [|done]. simpl.
  intros [= <-]. apply frame_forEach in Hwalk. simpl in Hwalk.
  change (frame <$> reverseUnderlineClusterDepths styles st1 cs1
          = frame <$> text_chunks).
  rewrite <- Hwalk. apply frame_reverse.
Qed.

Lemma styleTextChunks_keeps_frame_witness :
  ∃ cs, styleTextChunks_ (chunkText in_range_spans "hello world")
          in_range_spans sample_styles = Ok cs
        ∧ (λ c, (chunk_begin c, chunk_end c, tokens c)) <$> cs
          = (λ c, (chunk_begin c, chunk_end c, tokens c))
              <$> chunkText in_range_spans "hello world".
Proof.
  eexists. split; [vm_compute; reflexivity|].
  apply (styleTextChunks_keeps_frame _ in_range_spans sample_styles).
  vm_compute; reflexivity.
Defined.

(** [tokenize] raises exactly when some span that is not mouse-selected
    and has [begin < end] names a style that [styles[style]] does not
    find: the style table has no entry of that name, and the name is not
    one that the table inherits from [Object.prototype]. *)
Theorem tokenize_raises_iff (spans : list SpanData) (text : string)
    (styles : StyleTable) :
  tokenize spans text styles = TypeError ↔
    ∃ s, s ∈ spans ∧ span_mouseSelected s = false
         ∧ span_begin s < span_end s
         ∧ styles !! style_key (span_style s) = None
         ∧ style_key (span_style s) ∉ Object_prototype.
Proof.
  setoid_rewrite <- lookup_style_None. split.
  - intros Hraise.
    destruct (decide (Exists (λ s : SpanData,
                span_mouseSelected s = false ∧ span_begin s < span_end s
                ∧ ¬ is_Some (lookup_style styles (span_style s))) spans))
      as [Hex|Hall].
    + apply Exists_exists in Hex as (s & Hs & Hms & Hlt & Hnone).
      exists s. split_and!; [done..|].
      destruct (lookup_style styles (span_style s)); [|done].
      destruct Hnone. eauto.
    + destruct (tokenize_total spans text styles) as [r Hr]; [|congruence].
      intros t Ht Hms Hlt.
      destruct (decide (is_Some (lookup_style styles (span_style t))));
        [done|].
      destruct Hall. apply Exists_exists. eauto.
  - intros (s & Hs & Hms & Hlt & Hnone).
    destruct (tokenize spans text styles) as [r|] eqn:Hr; [|done].
    apply tokenize_Ok in Hr as (cs & Hcs & _). unfold styled_chunks in Hcs.
    rewrite (styleTextChunks_unknown styles _ _ (attach_text text s)) in Hcs;
      [done|by apply elem_of_sorted_spans|done..|].
    apply Exists_exists.
    apply (chunkText_overlapping_chunk _ text (attach_text text s));
      [by apply elem_of_sorted_spans|done].
Qed.

(** ** Spans that are laid out automatically *)

Section Numbered.
Context (styles : StyleTable).
Implicit Types (s : TextSpan) (c : TextChunk) (cs : list TextChunk).
Implicit Types (loc : SpanLocals) (st : Layout) (a : TokenAnnotation).

Definition numbered a : Prop :=
  auto styles a →
  (∃ d, depth a = Some d) ∧ ∃ z, zIndex a = Some z ∧ 0 <= z.

Definition all_numbered cs : Prop :=
  ∀ c a, c ∈ cs → a ∈ token_annotations c → numbered a.

Lemma numbered_reverse d a :
  numbered a → numbered (reverse_annotation styles d a).
Proof.
  unfold numbered. rewrite auto_reverse. intros H Hauto.
  destruct (H Hauto) as [[x Hx] Hz].
  unfold reverse_annotation. case_match; simpl; eauto.
Qed.

Lemma all_numbered_flush st cs :
  all_numbered cs → all_numbered (reverseUnderlineClusterDepths styles st cs).
Proof.
  intros Hall c' a' [i Hi]%list_elem_of_lookup_1.
  rewrite reverseUnderlineClusterDepths_lookup in Hi.
  destruct (cs !! i) as [c|] eqn:Hc; [|done]. simplify_eq/=.
  apply list_elem_of_lookup_2 in Hc. rewrite elem_of_flush_chunk.
  case_decide; [|by apply Hall]. intros (a & Ha & ->).
  by apply numbered_reverse, (Hall c).
Qed.

Lemma all_numbered_style_span acc s acc' :
  all_numbered acc.1 → style_span styles acc s = Ok acc' →
  all_numbered acc'.1.
Proof.
  destruct acc as [cs st]. intros Hall. rewrite style_span_closed.
  assert (all_numbered (open_cluster styles s (cs, st)).1) as Hall1.
  { unfold open_cluster. repeat case_decide; simpl; try done.
    by apply all_numbered_flush. }
  destruct (open_cluster styles s (cs, st)) as [cs1 st1]. simpl in *.
  destruct (span_locals styles s cs1) as [loc|] eqn:Hloc; [|done]. simpl.
  intros [= <-]. simpl. intros c' a (c & -> & Hc)%list_elem_of_fmap.
  rewrite elem_of_annotate. intros [[Ho ->]|Ha]; [|by apply (Hall1 c)].
  intros [_ He]%auto_make_annotation.
  apply list_elem_of_lookup_1 in Hc as [j Hj].
  destruct (span_locals_first styles s cs1 loc j c Hloc He Hj Ho)
    as (i0 & f0 & _ & _ & _ & Hassign).
  apply assign_depths_is_Some in Hassign as (d & z & -> & ? & ?).
  simpl. eauto.
Qed.

Lemma styleTextChunks_numbered text_chunks spans cs :
  Forall (λ c, token_annotations c = []) text_chunks →
  styleTextChunks_ text_chunks spans styles = Ok cs →
  all_numbered cs.
Proof.
  intros Hfresh. unfold styleTextChunks_.
  destruct (forEach _ _ _) as [[cs1 st1]|] eqn:Hwalk; [|done]. simpl.
  intros [= <-]. apply all_numbered_flush.
  apply (forEach_invariant _ (λ acc, all_numbered acc.1) _
           (λ acc s acc' _, all_numbered_style_span acc s acc') _ _) in Hwalk;
    [done|].
  intros c a Hc Ha. rewrite Forall_forall in Hfresh.
  rewrite (Hfresh c Hc) in Ha. by apply elem_of_nil in Ha.
Qed.
End Numbered.

(** After [tokenize] returns, the annotations of a span that is not
    mouse-selected and whose style does not have [autoNestingLayout] false
    carry a depth and a z-index that are numbers, the z-index not
    negative. *)
Theorem automatic_spans_numbered (spans : list SpanData) (text : string)
    (styles : StyleTable) (r : Tokenized) :
  tokenize spans text styles = Ok r →
  ∀ line td a,
    line ∈ lines r → td ∈ line → a ∈ td_token_annotations td →
    ann_mouseSelected a = false → auto_nesting styles (ann_style a) = true →
    (∃ d, depth a = Some d) ∧ ∃ z, zIndex a = Some z ∧ 0 <= z.
Proof.
  intros (cs & Hcs & ->)%tokenize_Ok line td a Hline Htd Ha Hms Hauto.
  simpl in Hline.
  destruct (tokenizeTextChunks_annotations cs line td Hline Htd) as (c & Hc & Heq).
  rewrite Heq in Ha.
  by apply (styleTextChunks_numbered styles _ _ cs (chunkText_fresh _ _) Hcs c a).
Qed.

Lemma automatic_spans_numbered_witness :
  ∃ r, tokenize two_clusters "hello world" sample_styles = Ok r
       ∧ ∀ line td a,
           line ∈ lines r → td ∈ line → a ∈ td_token_annotations td →
           ann_mouseSelected a = false →
           auto_nesting sample_styles (ann_style a) = true →
           (∃ d, depth a = Some d) ∧ ∃ z, zIndex a = Some z ∧ 0 <= z.
Proof.
  eexists. split; [vm_compute; reflexivity|].
  apply (automatic_spans_numbered two_clusters "hello world" sample_styles).
  vm_compute; reflexivity.
Defined.

(** ** The stacking order *)

Section Stacking.
Context (styles : StyleTable).
Implicit Types (s : TextSpan) (c f : TextChunk) (cs : list TextChunk).
Implicit Types (loc : SpanLocals) (st : Layout) (a b : TokenAnnotation).
Implicit Types (anns : list TokenAnnotation).

(** No two annotations of automatically laid out spans share a z-index. *)
Definition z_separated anns : Prop :=
  ∀ j k a b, anns !! j = Some a → anns !! k = Some b → j ≠ k →
             auto styles a → auto styles b → zIndex a ≠ zIndex b.

Lemma zIndex_reverse d a : zIndex (reverse_annotation styles d a) = zIndex a.
Proof. unfold reverse_annotation. by case_match. Qed.

Lemma mouseSelected_reverse d a :
  ann_mouseSelected (reverse_annotation styles d a) = ann_mouseSelected a.
Proof. unfold reverse_annotation. by case_match. Qed.

Lemma z_separated_reverse d anns :
  z_separated anns → z_separated (reverse_annotation styles d <$> anns).
Proof.
  intros Hs j k a' b'. rewrite !list_lookup_fmap.
  destruct (anns !! j) as [a|] eqn:Ha; [|done].
  destruct (anns !! k) as [b|] eqn:Hb; [|done].
  intros [= <-] [= <-] Hjk Hautoa%auto_reverse Hautob%auto_reverse.
  rewrite !zIndex_reverse. by apply (Hs j k).
Qed.

Lemma z_separated_cons a anns :
  z_separated anns →
  (auto styles a → ∀ b, b ∈ anns → auto styles b → zIndex a ≠ zIndex b) →
  z_separated (a :: anns).
Proof.
  intros Hs Ha [|j] [|k] a1 b1 H1 H2 Hjk Hauto1 Hauto2; simplify_eq/=.
  - eapply Ha; [done| |done]. by eapply list_elem_of_lookup_2.
  - intros Heq. eapply (Ha Hauto2 a1); [|done|done].
    by eapply list_elem_of_lookup_2.
  - apply (Hs j k); [done..| |done|done]. by intros ->.
Qed.

Lemma flush_chunk_annotations st i c :
  token_annotations (flush_chunk styles st i c)
  = (λ a, if decide (i ∈ underlineCluster st)
          then reverse_annotation styles (underlineClusterDepth st) a
          else a) <$> token_annotations c.
Proof.
  unfold flush_chunk. case_decide; simpl; [done|]. by rewrite list_fmap_id.
Qed.

Lemma flush_chunk_end st i c :
  chunk_end (flush_chunk styles st i c) = chunk_end c.
Proof. unfold flush_chunk. by case_decide. Qed.

(** The invariant of the walk over the spans that are not mouse-selected,
    [lo] being the [begin] of the last of them: a chunk that ends after
    [lo] carries the z-indices of the automatic annotations of every
    later chunk. *)
Record zinv (cs0 : list TextChunk) (lo : Z) (cs : list TextChunk) : Prop := {
  zinv_frame : frame <$> cs = frame <$> cs0;
  zinv_separated : ∀ c, c ∈ cs → z_separated (token_annotations c);
  zinv_shared : ∀ i j f c a,
    (i <= j)%nat → cs !! i = Some f → cs !! j = Some c →
    lo < chunk_end f → lo < chunk_end c →
    a ∈ token_annotations c → auto styles a →
    ∃ a', a' ∈ token_annotations f ∧ ann_mouseSelected a' = false
          ∧ zIndex a' = zIndex a;
}.

Lemma zinv_weaken cs0 lo lo' cs :
  zinv cs0 lo cs → lo <= lo' → zinv cs0 lo' cs.
Proof.
  intros [Hf Hs Hsh] Hlo. split; [done..|].
  intros i j f c a Hij Hi Hj Hlf Hlc. apply (Hsh i j); (done || lia).
Qed.

Lemma zinv_flush cs0 lo cs st :
  zinv cs0 lo cs → zinv cs0 lo (reverseUnderlineClusterDepths styles st cs).
Proof.
  intros [Hf Hs Hsh]. split.
  - by rewrite frame_reverse.
  - intros c' [i Hi]%list_elem_of_lookup_1.
    rewrite reverseUnderlineClusterDepths_lookup in Hi.
    destruct (cs !! i) as [c|] eqn:Hc; [|done]. simplify_eq/=.
    apply list_elem_of_lookup_2 in Hc. unfold flush_chunk.
    case_decide; simpl; [|by apply Hs]. by apply z_separated_reverse, Hs.
  - intros i j f' c' a' Hij. rewrite !reverseUnderlineClusterDepths_lookup.
    destruct (cs !! i) as [f|] eqn:Hi; [|done].
    destruct (cs !! j) as [c|] eqn:Hj; [|done].
    intros [= <-] [= <-]. rewrite !flush_chunk_end, !flush_chunk_annotations.
    intros Hlf Hlc (a & -> & Ha)%list_elem_of_fmap Hauto.
    assert (auto styles a ∧ zIndex (if decide (j ∈ underlineCluster st)
              then reverse_annotation styles (underlineClusterDepth st) a
              else a) = zIndex a) as [Hauto' ->].
    { case_decide; [|done]. rewrite zIndex_reverse.
      by apply auto_reverse in Hauto. }
    destruct (Hsh i j f c a Hij Hi Hj Hlf Hlc Ha Hauto')
      as (a0 & Ha0 & Hms & Hz).
    eexists. split; [apply list_elem_of_fmap_2, Ha0|].
    destruct (decide (i ∈ underlineCluster st));
      rewrite ?mouseSelected_reverse, ?zIndex_reverse; by split.
Qed.

Lemma zinv_open_cluster cs0 lo s cs st :
  zinv cs0 lo cs → lo <= span_begin s →
  zinv cs0 (span_begin s) (open_cluster styles s (cs, st)).1.
Proof.
  intros Hinv Hlo. apply (zinv_weaken cs0 lo); [|done].
  unfold open_cluster. repeat case_decide; simpl; [|done..].
  by apply zinv_flush.
Qed.

Lemma zinv_visit cs0 s loc cs :
  ordered cs0 →
  zinv cs0 (span_begin s) cs →
  span_locals styles s cs = Ok loc →
  zinv cs0 (span_begin s) (annotate s loc <$> cs).
Proof.
  intros Hord0 [Hf Hs Hsh] Hloc.
  assert (ordered cs) as Hord by by eapply ordered_frame.
  split.
  - by rewrite frame_annotate_all.
  - intros c' (c & -> & Hc)%list_elem_of_fmap.
    unfold annotate. case_decide as Ho; [|by apply Hs].
    simpl. rewrite token_annotations_relabel.
    apply z_separated_cons; [by apply Hs|].
    intros [_ He]%auto_make_annotation b Hbin Hautob Heq.
    apply list_elem_of_lookup_1 in Hc as [j Hj].
    destruct (span_locals_first styles s cs loc j c Hloc He Hj Ho)
      as (i0 & f0 & Hi0j & Hi0 & Ho0 & Hassign).
    apply assign_depths_least in Hassign as (d & z & -> & _ & (_ & Hfree & _)).
    simpl in Heq. apply Hfree.
    destruct (Hsh i0 j f0 c b Hi0j Hi0 Hj) as (b' & Hb' & Hmsb' & Hz);
      [unfold overlaps in *; lia..|done|done|].
    exists b'. split_and!; [done..|congruence].
  - intros i j f' c' a Hij. rewrite !list_lookup_fmap.
    destruct (cs !! i) as [f|] eqn:Hi; [|done].
    destruct (cs !! j) as [c|] eqn:Hj; [|done].
    intros [= <-] [= <-].
    destruct (chunk_bounds_annotate s loc f) as [_ ->].
    destruct (chunk_bounds_annotate s loc c) as [_ ->].
    intros Hlf Hlc. rewrite elem_of_annotate. intros [[Ho ->]|Ha] Hauto.
    + exists (make_annotation f s loc). split_and!; [| |done].
      * apply elem_of_annotate. left. split; [|done].
        pose proof (Hord i j f c Hij Hi Hj). unfold overlaps in *. lia.
      * by destruct Hauto.
    + destruct (Hsh i j f c a Hij Hi Hj Hlf Hlc Ha Hauto) as (a' & Ha' & ?).
      exists a'. split; [|done]. apply elem_of_annotate. by right.
Qed.

Lemma zinv_forEach cs0 rs : ∀ lo acc acc',
  ordered cs0 →
  StronglySorted (λ s t : TextSpan, span_begin s <= span_begin t) rs →
  Forall (λ s : TextSpan, lo <= span_begin s) rs →
  zinv cs0 lo acc.1 →
  forEach (style_span styles) rs acc = Ok acc' →
  ∃ lo', zinv cs0 lo' acc'.1.
Proof.
  induction rs as [|s rs IH]; intros lo acc acc' Hord Hsorted Hlo Hinv; simpl.
  - intros [= <-]. eauto.
  - apply StronglySorted_inv in Hsorted as [Hsorted Hs].
    apply Forall_cons in Hlo as [Hlo _].
    destruct (style_span styles acc s) as [acc1|] eqn:Hstep; [|done]. simpl.
    apply (IH (span_begin s)); [done..|].
    destruct acc as [cs st]. rewrite style_span_closed in Hstep.
    pose proof (zinv_open_cluster cs0 lo s cs st Hinv Hlo) as Hinv1.
    destruct (open_cluster styles s (cs, st)) as [cs1 st1]. simpl in *.
    destruct (span_locals styles s cs1) as [loc|] eqn:Hloc; [|done].
    simpl in Hstep. simplify_eq. simpl. by apply zinv_visit.
Qed.

Lemma mouse_inv_zinv cs0 lo acc : mouse_inv cs0 acc → zinv cs0 lo acc.1.
Proof.
  intros (Hf & Hm & _). split; [done| |].
  - intros c Hc j k a b Ha%list_elem_of_lookup_2 _ _ [Hms _].
    by rewrite (Hm c a) in Hms.
  - intros i j f c a _ _ Hj%list_elem_of_lookup_2 _ _ Ha [Hms _].
    by rewrite (Hm c a) in Hms.
Qed.

Lemma styleTextChunks_z_separated cs0 ms rs cs :
  ordered cs0 →
  Forall (λ c, token_annotations c = []) cs0 →
  Forall (λ s : TextSpan, span_mouseSelected s = true) ms →
  StronglySorted (λ s t : TextSpan, span_begin s <= span_begin t) rs →
  styleTextChunks_ cs0 (ms ++ rs) styles = Ok cs →
  ∀ c, c ∈ cs → z_separated (token_annotations c).
Proof.
  intros Hord Hfresh Hms Hsorted. unfold styleTextChunks_.
  rewrite forEach_app.
  destruct (forEach _ ms _) as [acc1|] eqn:Hwalk1; [|done]. simpl.
  destruct (forEach _ rs _) as [[cs2 st2]|] eqn:Hwalk2; [|done]. simpl.
  intros [= <-] c Hc.
  assert (mouse_inv cs0 acc1) as Hm.
  { revert Hwalk1. apply forEach_invariant.
    - intros acc s acc' Hs Hacc. apply mouse_inv_style_span; [done|].
      rewrite Forall_forall in Hms. by apply Hms.
    - split_and!; [done| |by intros i c' _ Hi; apply elem_of_empty in Hi].
      simpl. intros c' a Hc' Ha. rewrite Forall_forall in Hfresh.
      rewrite (Hfresh c' Hc') in Ha. by apply elem_of_nil in Ha. }
  set (lo := match rs with s :: _ => span_begin s | [] => 0 end).
  destruct (zinv_forEach cs0 rs lo acc1 (cs2, st2)) as [lo' Hinv];
    [done|done| |by apply mouse_inv_zinv|done|].
  - destruct rs as [|s rs']; [constructor|]. subst lo. simpl.
    apply StronglySorted_inv in Hsorted as [_ Hle].
    constructor; [lia|]. eapply Forall_impl; [exact Hle|]. simpl. intros; lia.
  - by apply (zinv_separated _ _ _ (zinv_flush cs0 lo' cs2 st2 Hinv)).
Qed.
End Stacking.

Lemma styled_chunks_z_separated spans text styles cs c :
  styled_chunks spans text styles = Ok cs → c ∈ cs →
  z_separated styles (token_annotations c).
Proof.
  unfold styled_chunks. intros Hcs Hc.
  destruct (sorted_phases _ (sort_spans_sorted spans))
    as (ms & rs & Hsplit & Hms & Hrs & Hbegin).
  assert (sorted_spans spans text
          = (attach_text text <$> ms) ++ (attach_text text <$> rs)) as Hsp.
  { unfold sorted_spans. by rewrite Hsplit, fmap_app. }
  set (cs0 := chunkText (sorted_spans spans text) text) in *.
  rewrite Hsp in Hcs.
  eapply (styleTextChunks_z_separated styles cs0); [| | | |exact Hcs|exact Hc].
  - apply chunkText_is_ordered.
  - apply chunkText_fresh.
  - apply Forall_fmap. eapply Forall_impl; [exact Hms|]. done.
  - by apply StronglySorted_fmap_attach.
Qed.

(** After [tokenize] returns, the annotations a token carries for spans
    that were laid out automatically (not mouse-selected,
    [autoNestingLayout] not false) have pairwise different z-indices,
    whatever their shapes. *)
Theorem zIndex_separation (spans : list SpanData) (text : string)
    (styles : StyleTable) (r : Tokenized) :
  tokenize spans text styles = Ok r →
  ∀ line td i j a b,
    line ∈ lines r → td ∈ line →
    td_token_annotations td !! i = Some a →
    td_token_annotations td !! j = Some b → i ≠ j →
    auto styles a → auto styles b →
    zIndex a ≠ zIndex b.
Proof.
  intros (cs & Hcs & ->)%tokenize_Ok line td i j a b Hline Htd. simpl in Hline.
  destruct (tokenizeTextChunks_annotations cs line td Hline Htd) as (c & Hc & ->).
  by apply (styled_chunks_z_separated spans text styles cs c).
Qed.

Lemma zIndex_separation_witness :
  ∃ r, tokenize two_clusters "hello world" sample_styles = Ok r
       ∧ ∀ line td i j a b,
           line ∈ lines r → td ∈ line →
           td_token_annotations td !! i = Some a →
           td_token_annotations td !! j = Some b → i ≠ j →
           auto sample_styles a → auto sample_styles b →
           zIndex a ≠ zIndex b.
Proof.
  eexists. split; [vm_compute; reflexivity|].
  apply (zIndex_separation two_clusters "hello world" sample_styles).
  vm_compute; reflexivity.
Defined.

(** ** The lines and the text *)

(** The text a line stands for, and the text a list of lines stands for:
    the lines, joined by newlines. *)
Definition line_text (line : list TokenData) : string :=
  concat_tokens (td_text <$> line).

Fixpoint join_lines (ls : list (list TokenData)) : string :=
  match ls with
  | [] => EmptyString
  | line :: ls' =>
      match ls' with
      | [] => line_text line
      | _ :: _ => line_text line +:+ newline_token +:+ join_lines ls'
      end
  end.

Lemma join_lines_closed closed final :
  join_lines (closed ++ [final])
  = concat_tokens (closed_texts closed ++ (td_text <$> final)).
Proof.
  induction closed as [|line closed IH]; [done|].
  assert (join_lines ((line :: closed) ++ [final])
          = line_text line +:+ newline_token +:+ join_lines (closed ++ [final]))
    as -> by by destruct closed.
  rewrite IH. unfold closed_texts. cbn [flat_map].
  rewrite <- !app_assoc, !concat_tokens_app. done.
Qed.

Lemma last_closed_texts (ls : list (list TokenData)) :
  closed_texts ls ≠ [] → last (closed_texts ls) = Some newline_token.
Proof.
  induction ls as [|line ls IH] using rev_ind; [done|]. intros _.
  rewrite closed_texts_app. unfold closed_texts at 2. simpl.
  by rewrite app_nil_r, !app_assoc, last_snoc.
Qed.

(** With at least one chunk, the trailing line is always appended. *)
Lemma tokenizeTextChunks_final cs :
  cs ≠ [] → Forall (λ c, tokens c ≠ []) cs →
  let ls := foldl split_chunk initial_lines cs in
  tokenizeTextChunks cs = all_lines ls ++ [current_line ls]
  ∧ texts ls = all_tokens cs.
Proof.
  intros Hcs Htokens ls.
  assert (texts ls = all_tokens cs
          ∧ last_tokens ls = default [] (tokens <$> last cs)) as [Htexts Hlast].
  { by destruct (split_chunks_spec cs initial_lines) as (? & _ & _ & ?). }
  split; [|done]. rewrite tokenizeTextChunks_unfold. fold ls. cbv zeta.
  assert (all_tokens cs ≠ []) as Hne.
  { destruct cs as [|c0 cs']; [done|]. unfold all_tokens. simpl.
    apply Forall_cons in Htokens as [H0 _]. by destruct (tokens c0). }
  rewrite decide_True; [done|].
  destruct (current_line ls) as [|td line] eqn:Hcur; [right|left; simpl; lia].
  assert (closed_texts (all_lines ls) = all_tokens cs) as Hclosed.
  { rewrite <- Htexts. unfold texts. rewrite Hcur. simpl.
    by rewrite app_nil_r. }
  assert (last (last_tokens ls) = Some newline_token) as Hnl.
  { rewrite Hlast.
    rewrite <- (last_all_tokens cs Htokens), <- Hclosed.
    apply last_closed_texts. by rewrite Hclosed. }
  split; [|done]. destruct (last_tokens ls); [done|simpl; lia].
Qed.

Lemma tokenizeTextChunks_join cs :
  Forall (λ c, tokens c ≠ []) cs →
  join_lines (tokenizeTextChunks cs) = concat_tokens (all_tokens cs).
Proof.
  intros Htokens. destruct (decide (cs = [])) as [->|Hcs]; [done|].
  destruct (tokenizeTextChunks_final cs Hcs Htokens) as [-> <-].
  apply join_lines_closed.
Qed.

Lemma slice_clamp (s : string) b e :
  0 <= b → 0 <= e →
  JS.slice s b e
  = JS.slice s (b `min` Z.of_nat (String.length s))
      (e `min` Z.of_nat (String.length s)).
Proof.
  intros Hb He. unfold JS.slice, JS.clamp_index.
  repeat case_decide; try lia; do 2 f_equal; lia.
Qed.

Lemma slice_app_clamped (s : string) b e z :
  0 <= b <= e → e <= z →
  JS.slice s b e +:+ JS.slice s e z = JS.slice s b z.
Proof.
  intros Hb He.
  rewrite (slice_clamp s b e), (slice_clamp s e z), (slice_clamp s b z) by lia.
  apply slice_app; lia.
Qed.

Lemma slice_empty (s : string) b : JS.slice s b b = EmptyString.
Proof.
  unfold JS.slice. by rewrite Z.sub_diag.
Qed.

(** Boundaries past the end of the text add empty chunks only. *)
Lemma chunks_between_concat_clamped text l b :
  StronglySorted Z.lt l → (∀ x, x ∈ l → 0 <= x) → head l = Some b →
  concat_tokens (flat_map tokens (chunks_between text l))
  = JS.slice text b (default b (last l)).
Proof.
  intros Hs. revert b. induction Hs as [|x l Hs IH Hx]; intros b Hr Hb; [done|].
  simpl in Hb. simplify_eq.
  assert (0 <= b) by (apply Hr; left).
  destruct l as [|e l].
  - simpl. by rewrite slice_empty.
  - rewrite chunks_between_cons. cbn [flat_map make_chunk tokens].
    rewrite concat_tokens_app, chunk_tokens_concat.
    assert (∀ x, x ∈ e :: l → 0 <= x) as Hr'.
    { intros x Hx'. apply Hr. by right. }
    rewrite (IH e Hr' eq_refl).
    rewrite Forall_forall in Hx.
    assert (default b (last (b :: e :: l)) = default e (last (e :: l))) as ->.
    { rewrite (last_cons_cons b e l), (last_cons e l). by destruct (last l). }
    pose proof (sorted_last_bound l e Hs).
    apply slice_app_clamped; [|lia].
    split; [lia|]. apply Z.lt_le_incl, Hx. left.
Qed.

Lemma chunkText_concat (spans : list TextSpan) (text : string) :
  (∀ s : TextSpan, s ∈ spans → 0 <= span_begin s ∧ 0 <= span_end s) →
  concat_tokens (all_tokens (chunkText spans text)) = text.
Proof.
  intros Hspans.
  assert (∀ x, x ∈ sorted_indices spans text → 0 <= x) as Hrange.
  { intros x [->|[->|(s & Hs & Hx)]]%elem_of_sorted_indices%elem_of_boundary_indices;
      [lia..|].
    specialize (Hspans s Hs). destruct Hx as [-> | ->]; lia. }
  pose proof (sorted_indices_sorted spans text) as Hsorted.
  assert (Z.of_nat (String.length text) ∈ sorted_indices spans text) as Hlen.
  { apply elem_of_sorted_indices, elem_of_boundary_indices. auto. }
  unfold chunkText, all_tokens.
  rewrite (chunks_between_concat_clamped text _ 0 Hsorted Hrange).
  - destruct (last (sorted_indices spans text)) as [z|] eqn:Hlast.
    + assert (Z.of_nat (String.length text) <= z) as Hz.
      { apply list_elem_of_split in Hlen as (l1 & l2 & Hl). rewrite Hl in *.
        destruct l2 as [|y l2 _] using rev_ind.
        - rewrite last_snoc in Hlast. by simplify_eq.
        - rewrite app_comm_cons, app_assoc, last_snoc in Hlast. simplify_eq.
          apply StronglySorted_app_1_r, StronglySorted_inv in Hsorted as [_ Hall].
          rewrite Forall_forall in Hall. apply Z.lt_le_incl, Hall.
          rewrite elem_of_app. right. left. }
      simpl. rewrite slice_clamp by lia.
      replace (z `min` Z.of_nat (String.length text))
        with (Z.of_nat (String.length text)) by lia.
      rewrite Z.min_l by lia. apply slice_whole.
    + apply last_None in Hlast. rewrite Hlast in Hlen.
      by apply elem_of_nil in Hlen.
  - apply sorted_head_min; [done| |apply Hrange].
    apply elem_of_sorted_indices, elem_of_boundary_indices. auto.
Qed.

Lemma frame_all_tokens cs : ∀ cs',
  frame <$> cs = frame <$> cs' → all_tokens cs = all_tokens cs'.
Proof.
  unfold all_tokens.
  induction cs as [|c cs IH]; intros [|c' cs']; simpl; try done.
  intros [= _ _ -> Hf]. by rewrite (IH cs').
Qed.

Lemma in_range_sorted_spans (spans : list SpanData) text :
  (∀ s, s ∈ spans →
     0 <= span_begin s <= span_end s
     ∧ span_end s <= Z.of_nat (String.length text)) →
  ∀ s : TextSpan, s ∈ sorted_spans spans text →
     0 <= span_begin s <= span_end s
     ∧ span_end s <= Z.of_nat (String.length text).
Proof.
  intros Hspans s. unfold sorted_spans.
  intros (s0 & -> & Hs0)%list_elem_of_fmap. rewrite sort_perm in Hs0.
  by apply Hspans.
Qed.

(** The lines of [tokenize], joined by newlines, are the text: no
    character is lost, moved or added.  This holds for spans at offsets
    that are not negative, also when they reach past the end of the text
    or have their [end] before their [begin]. *)
Theorem tokenize_round_trip (spans : list SpanData) (text : string)
    (styles : StyleTable) (r : Tokenized) :
  (∀ s, s ∈ spans → 0 <= span_begin s ∧ 0 <= span_end s) →
  tokenize spans text styles = Ok r →
  join_lines (lines r) = text.
Proof.
  intros Hspans (cs & Hcs & ->)%tokenize_Ok. simpl.
  rewrite tokenizeTextChunks_join
    by by eapply styled_chunks_tokens_nonempty.
  rewrite (frame_all_tokens cs _ (styled_chunks_frame _ _ _ _ Hcs)).
  apply chunkText_concat. intros s. unfold sorted_spans.
  intros (s0 & -> & Hs0)%list_elem_of_fmap. rewrite sort_perm in Hs0.
  by apply Hspans.
Qed.

Lemma in_range_two_clusters s :
  s ∈ two_clusters →
  0 <= span_begin s <= span_end s
  ∧ span_end s <= Z.of_nat (String.length "hello world").
Proof.
  unfold two_clusters. rewrite !elem_of_cons, elem_of_nil.
  intros [->|[->|[->|[]]]]; simpl; lia.
Qed.

(** A span that reaches past the end of the text, and one that ends
    before it begins. *)
Definition overlong : list SpanData :=
  [span 3 20 false "a" "box"; span 4 2 false "b" "box"].

Lemma tokenize_round_trip_witness :
  ∃ r, tokenize overlong "hello" sample_styles = Ok r
       ∧ join_lines (lines r) = "hello".
Proof.
  eexists. split; [vm_compute; reflexivity|].
  apply (tokenize_round_trip overlong "hello" sample_styles).
  - unfold overlong. intros s. rewrite !elem_of_cons, elem_of_nil.
    intros [->|[->|[]]]; simpl; lia.
  - vm_compute; reflexivity.
Defined.

Lemma chunkText_nil_iff (spans : list TextSpan) (text : string) :
  chunkText spans text = [] ↔
    text = EmptyString
    ∧ ∀ s : TextSpan, s ∈ spans → span_begin s = 0 ∧ span_end s = 0.
Proof.
  pose proof (sorted_indices_sorted spans text) as Hsorted.
  pose proof (elem_of_sorted_indices spans text) as Helem.
  setoid_rewrite elem_of_boundary_indices in Helem.
  unfold chunkText. split.
  - intros Hnil%(f_equal length). rewrite length_chunks_between in Hnil.
    assert (∀ x, x ∈ sorted_indices spans text → x = 0) as Hzero.
    { assert (0 ∈ sorted_indices spans text) as H0 by (apply Helem; auto).
      destruct (sorted_indices spans text) as [|y [|z l]]; simpl in Hnil;
        [by apply elem_of_nil in H0| |done].
      apply list_elem_of_singleton in H0 as <-.
      by intros x ->%list_elem_of_singleton. }
    split.
    + assert (Z.of_nat (String.length text) = 0) as Hlen
        by (apply Hzero, Helem; auto).
      destruct text; [done|simpl in Hlen; lia].
    + intros s Hs. split; apply Hzero, Helem; eauto 6.
  - intros [-> Hspans].
    assert (∀ x, x ∈ sorted_indices spans "" → x = 0) as Hzero.
    { intros x [->|[->|(s & Hs & Hx)]]%Helem; [done..|].
      destruct (Hspans s Hs). destruct Hx; congruence. }
    destruct (sorted_indices spans "") as [|y [|z l]]; [done..|].
    apply StronglySorted_inv in Hsorted as [_ Hy].
    apply Forall_cons in Hy as [Hyz _].
    rewrite (Hzero y), (Hzero z) in Hyz; [lia|right; left|left].
Qed.

(** [tokenize] returns no line at all exactly when there is nothing to
    lay out: the text is empty and every span is the empty span at 0.  In
    every other case there is at least one line. *)
Theorem tokenize_no_lines_iff (spans : list SpanData) (text : string)
    (styles : StyleTable) (r : Tokenized) :
  tokenize spans text styles = Ok r →
  lines r = [] ↔
    text = EmptyString
    ∧ ∀ s, s ∈ spans → span_begin s = 0 ∧ span_end s = 0.
Proof.
  intros (cs & Hcs & ->)%tokenize_Ok. simpl.
  pose proof (styled_chunks_frame _ _ _ _ Hcs) as Hf.
  pose proof (styled_chunks_tokens_nonempty _ _ _ _ Hcs) as Htokens.
  assert (cs = [] ↔ chunkText (sorted_spans spans text) text = []) as Hnil.
  { split; intros H; rewrite H in Hf;
      [symmetry in Hf|]; by apply fmap_nil_inv in Hf. }
  assert (tokenizeTextChunks cs = [] ↔ cs = []) as ->.
  { split; [|by intros ->].
    intros Hlines. destruct (decide (cs = [])) as [|Hne]; [done|].
    destruct (tokenizeTextChunks_final cs Hne Htokens) as [Heq _].
    rewrite Heq in Hlines. by destruct (all_lines _). }
  rewrite Hnil, chunkText_nil_iff. split; intros [Htext Hspans]; (split; [done|]).
  - intros s Hs. by apply (Hspans (attach_text text s)), elem_of_sorted_spans.
  - intros s (s0 & -> & Hs0)%list_elem_of_fmap. rewrite sort_perm in Hs0.
    by apply Hspans.
Qed.

Lemma tokenize_no_lines_iff_witness :
  ∃ r, tokenize [] "" sample_styles = Ok r
       ∧ (lines r = [] ↔
            "" = EmptyString
            ∧ ∀ s : SpanData, s ∈ [] → span_begin s = 0 ∧ span_end s = 0).
Proof.
  eexists. split; [vm_compute; reflexivity|].
  apply (tokenize_no_lines_iff [] "" sample_styles).
  vm_compute; reflexivity.
Defined.

(** ** Slices of a slice *)

Lemma str_take_drop (s : string) n : JS.str_take n s +:+ JS.str_drop n s = s.
Proof.
  revert s. induction n as [|n IH]; intros [|c s]; str_simpl; try done.
  by rewrite IH.
Qed.

Lemma str_drop_app_length (p r : string) :
  JS.str_drop (String.length p) (p +:+ r) = r.
Proof. induction p as [|c p IH]; [by destruct r|]. by rewrite append_cons. Qed.

Lemma str_take_app_length (t r : string) :
  JS.str_take (String.length t) (t +:+ r) = t.
Proof.
  induction t as [|c t IH]; [by destruct r|].
  rewrite append_cons. simpl. by rewrite IH.
Qed.

Lemma length_str_take (s : string) n : (String.length (JS.str_take n s) <= n)%nat.
Proof.
  revert s. induction n as [|n IH]; intros [|c s]; simpl; try lia.
  specialize (IH s). lia.
Qed.

(** A piece of a slice is the slice at the offsets of the piece. *)
Lemma slice_middle (s : string) b e (p t q : string) :
  0 <= b <= e → e <= Z.of_nat (String.length s) →
  JS.slice s b e = p +:+ t +:+ q →
  b + Z.of_nat (String.length p) + Z.of_nat (String.length t) <= e
  ∧ JS.slice s (b + Z.of_nat (String.length p))
      (b + Z.of_nat (String.length p) + Z.of_nat (String.length t)) = t.
Proof.
  intros Hb He Hslice. rewrite slice_in_range in Hslice by lia.
  set (u := JS.str_drop (Z.to_nat b) s) in *.
  assert (String.length p + String.length t + String.length q
          <= Z.to_nat (e - b))%nat as Hlen.
  { pose proof (length_str_take u (Z.to_nat (e - b))) as Hle.
    rewrite Hslice, !length_append in Hle. lia. }
  split; [lia|].
  rewrite slice_in_range by lia.
  replace (Z.to_nat (b + Z.of_nat (String.length p)))
    with (Z.to_nat b + String.length p)%nat by lia.
  rewrite <- str_drop_drop. fold u.
  replace (Z.to_nat (b + Z.of_nat (String.length p) + Z.of_nat (String.length t)
                     - (b + Z.of_nat (String.length p))))
    with (String.length t) by lia.
  rewrite <- (str_take_drop u (Z.to_nat (e - b))), Hslice.
  rewrite !append_assoc, str_drop_app_length. apply str_take_app_length.
Qed.

Lemma chunkText_in_range (spans : list TextSpan) (text : string) c :
  (∀ s : TextSpan, s ∈ spans →
     0 <= span_begin s <= span_end s
     ∧ span_end s <= Z.of_nat (String.length text)) →
  c ∈ chunkText spans text →
  0 <= chunk_begin c < chunk_end c
  ∧ chunk_end c <= Z.of_nat (String.length text)
  ∧ tokens c = chunk_tokens (JS.slice text (chunk_begin c) (chunk_end c)).
Proof.
  intros Hspans Hc.
  assert (∀ x, x ∈ sorted_indices spans text
               → 0 <= x <= Z.of_nat (String.length text)) as Hrange.
  { intros x [->|[->|(s & Hs & Hx)]]%elem_of_sorted_indices%elem_of_boundary_indices;
      [lia..|].
    specialize (Hspans s Hs). destruct Hx as [-> | ->]; lia. }
  destruct (chunkText_no_boundary_inside spans text c 0 Hc) as [Hlt _].
  { apply elem_of_boundary_indices. auto. }
  apply elem_of_chunks_between in Hc as (l1 & l2 & b & e & Hl & ->).
  simpl in *.
  assert (b ∈ sorted_indices spans text) as Hb%Hrange
    by (rewrite Hl, elem_of_app; right; left).
  assert (e ∈ sorted_indices spans text) as He%Hrange
    by (rewrite Hl, elem_of_app; right; right; left).
  split_and!; (done || lia).
Qed.

Lemma lookup_frame_eq (cs cs' : list TextChunk) (i : nat) c' :
  frame <$> cs' = frame <$> cs → cs' !! i = Some c' →
  ∃ c, cs !! i = Some c ∧ frame c' = frame c.
Proof.
  intros Hf Hi.
  assert ((frame <$> cs) !! i = Some (frame c')) as Hi'
    by by rewrite <- Hf, list_lookup_fmap, Hi.
  rewrite list_lookup_fmap in Hi'.
  destruct (cs !! i) as [c|]; [|done].
  exists c. split; [done|]. simpl in Hi'. congruence.
Qed.

(** ** The order of the tokens *)

Lemma length_str_take_min (s : string) n :
  String.length (JS.str_take n s) = (n `min` String.length s)%nat.
Proof.
  revert s. induction n as [|n IH]; intros [|c s]; simpl; try lia.
  rewrite IH. lia.
Qed.

Lemma length_str_drop (s : string) n :
  String.length (JS.str_drop n s) = (String.length s - n)%nat.
Proof.
  revert s. induction n as [|n IH]; intros [|c s]; simpl; try lia. apply IH.
Qed.

Lemma length_slice (s : string) b e :
  Z.of_nat (String.length (JS.slice s b e))
  = let len := Z.of_nat (String.length s) in
    0 `max` (JS.clamp_index len e - JS.clamp_index len b).
Proof.
  unfold JS.slice. rewrite length_str_take_min, length_str_drop.
  unfold JS.clamp_index. cbv zeta. repeat case_decide; lia.
Qed.

Lemma length_slice_le (s : string) b e :
  b <= e → Z.of_nat (String.length (JS.slice s b e)) <= e - b.
Proof.
  intros Hbe. rewrite length_slice. unfold JS.clamp_index. cbv zeta.
  repeat case_decide; lia.
Qed.

Lemma length_slice_in_range (s : string) b e :
  0 <= b <= e → e <= Z.of_nat (String.length s) →
  Z.of_nat (String.length (JS.slice s b e)) = e - b.
Proof.
  intros Hb He. rewrite length_slice. unfold JS.clamp_index. cbv zeta.
  repeat case_decide; lia.
Qed.

(** What [chunkText] makes of a chunk, as far as the layout leaves it. *)
Definition well_framed (text : string) (c : TextChunk) : Prop :=
  chunk_begin c < chunk_end c
  ∧ tokens c = chunk_tokens (JS.slice text (chunk_begin c) (chunk_end c)).

Lemma chunkText_well_framed spans text :
  Forall (well_framed text) (chunkText spans text).
Proof.
  apply Forall_forall. intros c Hc.
  destruct (chunkText_no_boundary_inside spans text c 0 Hc) as [Hlt _].
  { apply elem_of_boundary_indices. auto. }
  apply elem_of_chunks_between in Hc as (l1 & l2 & b & e & Hl & ->).
  by split.
Qed.

Lemma StronglySorted_lookup_2 {A} (R : A → A → Prop) (l : list A) :
  (∀ i j x y, (i < j)%nat → l !! i = Some x → l !! j = Some y → R x y) →
  StronglySorted R l.
Proof.
  induction l as [|x l IH]; intros H; constructor.
  - apply IH. intros i j y z ?. apply (H (S i) (S j)). lia.
  - apply Forall_lookup. intros j y Hj. apply (H 0%nat (S j)); [lia|done..].
Qed.

Lemma styled_chunks_well_framed spans text styles cs :
  styled_chunks spans text styles = Ok cs →
  Forall (well_framed text) cs ∧ StronglySorted chunk_before cs.
Proof.
  intros Hf%styled_chunks_frame.
  set (cs0 := chunkText (sorted_spans spans text) text) in *.
  assert (∀ c c', frame c = frame c' →
            chunk_begin c = chunk_begin c' ∧ chunk_end c = chunk_end c'
            ∧ tokens c = tokens c') as Hframe.
  { unfold frame. intros c c' [= -> -> ->]. done. }
  split.
  - apply Forall_lookup. intros i c Hi.
    destruct (lookup_frame_eq cs0 cs i c Hf Hi) as (c0 & Hc0 & Heq).
    apply Hframe in Heq as (Hb & He & Ht).
    pose proof (chunkText_well_framed (sorted_spans spans text) text) as Hwf.
    rewrite Forall_lookup in Hwf. specialize (Hwf i c0 Hc0).
    unfold well_framed in *. by rewrite Hb, He, Ht.
  - apply StronglySorted_lookup_2. intros i j c c' Hij Hi Hj.
    destruct (lookup_frame_eq cs0 cs i c Hf Hi) as (c0 & Hc0 & Heq).
    destruct (lookup_frame_eq cs0 cs j c' Hf Hj) as (c0' & Hc0' & Heq').
    apply Hframe in Heq as (Hb & He & Ht).
    apply Hframe in Heq' as (Hb' & He' & Ht').
    pose proof (StronglySorted_lookup _ _ i j c0 c0'
                  (chunkText_ordered (sorted_spans spans text) text)
                  Hij Hc0 Hc0') as Hbefore.
    unfold chunk_before in *. by rewrite He, Hb'.
Qed.

(** The tokens of a chunk are not empty, unless the chunk holds the empty
    token alone. *)
Lemma well_framed_tokens text c :
  well_framed text c →
  tokens c = [EmptyString]
  ∨ Forall (λ t, (0 < String.length t)%nat) (tokens c).
Proof.
  intros [_ ->].
  destruct (decide (JS.slice text (chunk_begin c) (chunk_end c) = EmptyString))
    as [->|Hne]; [by left|right].
  rewrite chunk_tokens_matches by done.
  eapply Forall_impl; [apply match_loop_tokens|]. apply is_token_nonempty.
Qed.

Lemma well_framed_length text c :
  well_framed text c →
  Z.of_nat (String.length (concat_tokens (tokens c)))
  <= chunk_end c - chunk_begin c.
Proof.
  intros [Hlt ->]. rewrite chunk_tokens_concat. apply length_slice_le. lia.
Qed.

Lemma token_at_bounds text c j t :
  well_framed text c → tokens c !! j = Some t →
  chunk_begin c <= td_begin (token_at c j t) < chunk_end c
  ∧ td_end (token_at c j t) <= chunk_end c
  ∧ (td_begin (token_at c j t) = chunk_begin c ↔ j = 0%nat).
Proof.
  intros Hwf Hj. pose proof (well_framed_length text c Hwf) as Hlen.
  pose proof (length_concat_take_S _ _ _ Hj) as HS.
  pose proof (length_concat_take_le (tokens c) (S j)) as Hle.
  destruct Hwf as [Hlt Htok]. unfold token_at, make_token. simpl.
  destruct (well_framed_tokens text c (conj Hlt Htok)) as [Hone|Hpos].
  - rewrite Hone in Hj. destruct j as [|j]; simpl in Hj; [|done].
    simplify_eq. simpl. split_and!; [lia..|split; [done|lia]].
  - rewrite Forall_forall in Hpos.
    pose proof (Hpos t (list_elem_of_lookup_2 _ _ _ Hj)) as Ht.
    split_and!; [lia..|]. split; [|by intros ->; simpl; lia].
    intros Hbegin. destruct j as [|j]; [done|]. exfalso.
    destruct (tokens c) as [|t0 l] eqn:Hl; [done|]. simpl in Hbegin.
    rewrite length_append in Hbegin.
    assert (0 < String.length t0)%nat by (apply Hpos; left). lia.
Qed.

(** [a] lies before [b] in the text. *)
Definition token_before (a b : TokenData) : Prop :=
  td_end a <= td_begin b ∧ td_begin a < td_begin b.

Lemma token_at_before text c j k t u :
  well_framed text c → (j < k)%nat →
  tokens c !! j = Some t → tokens c !! k = Some u →
  token_before (token_at c j t) (token_at c k u).
Proof.
  intros Hwf Hjk Hj Hk.
  pose proof (length_concat_take_S _ _ _ Hj) as HS.
  pose proof (length_concat_take_mono (tokens c) (S j) k ltac:(lia)) as Hmono.
  assert (0 < String.length t)%nat as Ht.
  { destruct (well_framed_tokens text c Hwf) as [Hone|Hpos].
    - rewrite Hone in Hk. destruct k as [|[|k]]; simpl in Hk; (done || lia).
    - rewrite Forall_forall in Hpos. apply Hpos. by eapply list_elem_of_lookup_2. }
  unfold token_before, token_at, make_token. simpl. lia.
Qed.

(** The TokenData of the tokens of a chunk, newlines included. *)
Definition tokens_of (c : TextChunk) : list TokenData :=
  imap (token_at c) (tokens c).

Lemma elem_of_tokens_of c td :
  td ∈ tokens_of c ↔ ∃ j t, tokens c !! j = Some t ∧ td = token_at c j t.
Proof.
  unfold tokens_of. split.
  - intros (j & t & -> & Hj)%elem_of_lookup_imap_1. eauto.
  - intros (j & t & Hj & ->). by apply elem_of_lookup_imap_2.
Qed.

Lemma tokens_of_sorted text c :
  well_framed text c → StronglySorted token_before (tokens_of c).
Proof.
  intros Hwf. apply StronglySorted_lookup_2. intros j k a b Hjk.
  unfold tokens_of. rewrite !list_lookup_imap.
  destruct (tokens c !! j) as [t|] eqn:Hj; [|done].
  destruct (tokens c !! k) as [u|] eqn:Hk; [|done].
  intros [= <-] [= <-]. by eapply token_at_before.
Qed.

Lemma all_tokens_of_sorted text cs :
  Forall (well_framed text) cs → StronglySorted chunk_before cs →
  StronglySorted token_before (flat_map tokens_of cs).
Proof.
  intros Hwf Hsorted. induction Hsorted as [|c cs Hsorted IH Hc]; [constructor|].
  apply Forall_cons in Hwf as [Hwfc Hwf]. simpl.
  apply StronglySorted_app_2; [|by eapply tokens_of_sorted|by apply IH].
  intros a b (j & t & Hj & ->)%elem_of_tokens_of Hb.
  apply list_elem_of_In, in_flat_map in Hb as (c' & Hc'%list_elem_of_In & Hb).
  apply list_elem_of_In, elem_of_tokens_of in Hb as (k & u & Hk & ->).
  rewrite Forall_forall in Hc, Hwf.
  pose proof (Hc c' Hc') as Hbefore. unfold chunk_before in Hbefore.
  destruct (token_at_bounds text c j t Hwfc Hj) as (? & ? & _).
  destruct (token_at_bounds text c' k u (Hwf c' Hc') Hk) as (? & ? & _).
  unfold token_before. lia.
Qed.

Lemma StronglySorted_filter {A} (R : A → A → Prop) (P : A → Prop)
    `{!∀ x, Decision (P x)} (l : list A) :
  StronglySorted R l → StronglySorted R (filter P l).
Proof.
  induction 1 as [|x l Hs IH Hx]; [constructor|].
  rewrite filter_cons. case_decide; [|done].
  constructor; [done|]. rewrite Forall_forall in Hx.
  apply Forall_forall. intros y [_ Hy]%list_elem_of_filter. by apply Hx.
Qed.

Lemma concat_tokenizeTextChunks cs :
  concat (tokenizeTextChunks cs)
  = filter (λ td, ¬ is_newline (td_text td)) (flat_map tokens_of cs).
Proof.
  rewrite tokenizeTextChunks_unfold. cbv zeta.
  set (ls := foldl split_chunk initial_lines cs).
  assert (data ls = filter (λ td, ¬ is_newline (td_text td))
                      (flat_map tokens_of cs)) as <-.
  { by destruct (split_chunks_spec cs initial_lines) as (_ & ? & _). }
  unfold data. rewrite concat_app. f_equal.
  case_decide as Hcond; simpl; [by rewrite app_nil_r|].
  destruct (current_line ls); [done|]. destruct Hcond. left. simpl. lia.
Qed.

(** ** The chunk flags of the tokens *)

(** The offsets at which [chunkText] cuts the text. *)
Definition is_boundary (spans : list SpanData) (text : string) (x : Z) : Prop :=
  x = 0 ∨ x = Z.of_nat (String.length text)
  ∨ ∃ s, s ∈ spans ∧ (x = span_begin s ∨ x = span_end s).

Lemma is_boundary_sorted_spans spans text x :
  x ∈ boundary_indices (sorted_spans spans text) text ↔ is_boundary spans text x.
Proof.
  rewrite elem_of_boundary_indices. unfold is_boundary, sorted_spans.
  split; (intros [?|[?|(s & Hs & Hx)]]; [by left|by right; left|right; right]).
  - apply list_elem_of_fmap in Hs as (s0 & -> & Hs0). rewrite sort_perm in Hs0.
    by exists s0.
  - exists (attach_text text s). split; [|done].
    apply list_elem_of_fmap_2. by rewrite sort_perm.
Qed.

Lemma chunk_bounds_are_boundaries spans text c :
  c ∈ chunkText spans text →
  chunk_begin c ∈ boundary_indices spans text
  ∧ chunk_end c ∈ boundary_indices spans text.
Proof.
  intros (l1 & l2 & b & e & Hl & ->)%elem_of_chunks_between. simpl.
  rewrite <- !elem_of_sorted_indices, Hl, !elem_of_app, !elem_of_cons. auto.
Qed.

(** The chunk of [chunkText] behind a chunk of the layout. *)
Lemma styled_chunk_origin spans text styles cs c :
  styled_chunks spans text styles = Ok cs → c ∈ cs →
  ∃ c0, c0 ∈ chunkText (sorted_spans spans text) text
        ∧ chunk_begin c = chunk_begin c0 ∧ chunk_end c = chunk_end c0
        ∧ tokens c = tokens c0.
Proof.
  intros Hf%styled_chunks_frame [i Hi]%list_elem_of_lookup_1.
  destruct (lookup_frame_eq _ cs i c Hf Hi) as (c0 & Hc0 & Heq).
  exists c0. split; [by eapply list_elem_of_lookup_2|].
  unfold frame in Heq. by simplify_eq/=.
Qed.

(** The offsets given to [tokenize] are safe integers: the length of the
    text, and the [begin] and the [end] of every span. *)
Definition safe_offsets (spans : list SpanData) (text : string) : Prop :=
  Z.of_nat (String.length text) < 2 ^ 53
  ∧ ∀ s, s ∈ spans →
      JS.safe_integer (span_begin s) ∧ JS.safe_integer (span_end s).

Lemma safe_boundary spans text x :
  safe_offsets spans text → is_boundary spans text x → JS.safe_integer x.
Proof.
  intros [Hlen Hspans] [->|[->|(s & Hs & Hx)]]; unfold JS.safe_integer;
    [lia..|].
  destruct (Hspans s Hs) as [Hb He]. unfold JS.safe_integer in *.
  destruct Hx as [-> | ->]; lia.
Qed.

(** The offsets of the tokens lie between two cuts of [chunkText], and
    are safe integers when the offsets given to [tokenize] are. *)
Lemma styled_tokens_safe spans text styles cs td :
  safe_offsets spans text →
  styled_chunks spans text styles = Ok cs →
  td ∈ concat (tokenizeTextChunks cs) →
  JS.safe_integer (td_begin td) ∧ JS.safe_integer (td_end td).
Proof.
  intros Hsafe Hcs (line & Hline & Htd)%elem_of_concat.
  destruct (tokenizeTextChunks_elem cs line td Hline Htd)
    as (c & j & t & Hc & Hj & -> & _).
  destruct (styled_chunks_well_framed _ _ _ _ Hcs) as [Hwf _].
  rewrite Forall_forall in Hwf.
  destruct (token_at_bounds text c j t (Hwf c Hc) Hj) as (Hin & Hend & _).
  destruct (styled_chunk_origin _ _ _ _ c Hcs Hc) as (c0 & Hc0 & Hb & He & _).
  destruct (chunk_bounds_are_boundaries _ _ _ Hc0)
    as [Hb0%is_boundary_sorted_spans He0%is_boundary_sorted_spans].
  apply (safe_boundary _ _ _ Hsafe) in Hb0, He0.
  rewrite <- Hb in Hb0. rewrite <- He in He0.
  assert (td_begin (token_at c j t) <= td_end (token_at c j t)).
  { unfold token_at, make_token. simpl. lia. }
  unfold JS.safe_integer in *. lia.
Qed.

(** For safe offsets, the tokens of the lines, read line by line, lie one
    after the other in the text: each ends at or before the [begin] of the
    next one, and no two of them have the same [begin]; their offsets are
    safe integers.  This holds wherever the spans lie. *)
Theorem tokens_in_text_order (spans : list SpanData) (text : string)
    (styles : StyleTable) (r : Tokenized) :
  safe_offsets spans text →
  tokenize spans text styles = Ok r →
  StronglySorted (λ a b, td_end a <= td_begin b ∧ td_begin a < td_begin b)
    (concat (lines r))
  ∧ Forall (λ td, JS.safe_integer (td_begin td) ∧ JS.safe_integer (td_end td))
      (concat (lines r)).
Proof.
  intros Hsafe (cs & Hcs & ->)%tokenize_Ok. simpl. split.
  - rewrite concat_tokenizeTextChunks.
    destruct (styled_chunks_well_framed _ _ _ _ Hcs) as [Hwf Hsorted].
    apply StronglySorted_filter. by apply (all_tokens_of_sorted text).
  - apply Forall_forall. intros td Htd. by eapply styled_tokens_safe.
Qed.

Lemma two_clusters_safe : safe_offsets two_clusters "hello world".
Proof.
  split; [by vm_compute|]. intros s Hs. unfold two_clusters in Hs.
  repeat (apply elem_of_cons in Hs as [->|Hs]; [by vm_compute|]).
  by apply elem_of_nil in Hs.
Defined.

Lemma tokens_in_text_order_witness :
  ∃ r, tokenize two_clusters "hello world" sample_styles = Ok r
       ∧ StronglySorted
           (λ a b, td_end a <= td_begin b ∧ td_begin a < td_begin b)
           (concat (lines r))
       ∧ Forall (λ td, JS.safe_integer (td_begin td)
                       ∧ JS.safe_integer (td_end td))
           (concat (lines r)).
Proof.
  eexists. split; [vm_compute; reflexivity|].
  apply (tokens_in_text_order two_clusters "hello world" sample_styles).
  - apply two_clusters_safe.
  - vm_compute; reflexivity.
Defined.

(** For safe offsets, a token is flagged as the first of its chunk
    exactly when it begins at an offset where [chunkText] cuts the text:
    0, the length of the text, or the [begin] or the [end] of a span. *)
Theorem first_token_of_chunk_iff (spans : list SpanData) (text : string)
    (styles : StyleTable) (r : Tokenized) :
  safe_offsets spans text →
  tokenize spans text styles = Ok r →
  ∀ line td, line ∈ lines r → td ∈ line →
    isFirstTokenOfChunk td = true ↔ is_boundary spans text (td_begin td).
Proof.
  intros _ (cs & Hcs & ->)%tokenize_Ok line td Hline Htd. simpl in Hline.
  destruct (tokenizeTextChunks_elem cs line td Hline Htd)
    as (c & j & t & Hc & Hj & -> & Hnl).
  destruct (styled_chunks_well_framed _ _ _ _ Hcs) as [Hwf _].
  rewrite Forall_forall in Hwf.
  destruct (token_at_bounds text c j t (Hwf c Hc) Hj) as (Hin & _ & Hfirst).
  destruct (styled_chunk_origin _ _ _ _ c Hcs Hc) as (c0 & Hc0 & Hb & He & _).
  assert (isFirstTokenOfChunk (token_at c j t) = true ↔ j = 0%nat) as ->.
  { unfold token_at, make_token. simpl. apply bool_decide_eq_true. }
  rewrite <- Hfirst, <- is_boundary_sorted_spans. split.
  - intros ->. rewrite Hb. by apply chunk_bounds_are_boundaries.
  - intros Hx.
    destruct (chunkText_no_boundary_inside _ text c0 _ Hc0 Hx) as [_ Hout].
    lia.
Qed.

Lemma first_token_of_chunk_iff_witness :
  ∃ r, tokenize two_clusters "hello world" sample_styles = Ok r
       ∧ ∀ line td, line ∈ lines r → td ∈ line →
           isFirstTokenOfChunk td = true
           ↔ is_boundary two_clusters "hello world" (td_begin td).
Proof.
  eexists. split; [vm_compute; reflexivity|].
  apply (first_token_of_chunk_iff two_clusters "hello world" sample_styles).
  - apply two_clusters_safe.
  - vm_compute; reflexivity.
Defined.

(** For spans within the text, a token is flagged as the last of its
    chunk exactly when it ends at an offset where [chunkText] cuts the
    text. *)
Theorem last_token_of_chunk_iff (spans : list SpanData) (text : string)
    (styles : StyleTable) (r : Tokenized) :
  (∀ s, s ∈ spans →
     0 <= span_begin s <= span_end s
     ∧ span_end s <= Z.of_nat (String.length text)) →
  tokenize spans text styles = Ok r →
  ∀ line td, line ∈ lines r → td ∈ line →
    isLastTokenOfChunk td = true ↔ is_boundary spans text (td_end td).
Proof.
  intros Hspans (cs & Hcs & ->)%tokenize_Ok line td Hline Htd. simpl in Hline.
  destruct (tokenizeTextChunks_elem cs line td Hline Htd)
    as (c & j & t & Hc & Hj & -> & Hnl).
  destruct (styled_chunks_well_framed _ _ _ _ Hcs) as [Hwf _].
  rewrite Forall_forall in Hwf. specialize (Hwf c Hc).
  destruct (styled_chunk_origin _ _ _ _ c Hcs Hc) as (c0 & Hc0 & Hb & He & Ht).
  destruct (chunkText_in_range _ text c0
              (in_range_sorted_spans spans text Hspans) Hc0)
    as (Hb0 & He0 & _).
  assert (Z.of_nat (String.length (concat_tokens (tokens c)))
          = chunk_end c - chunk_begin c) as Hlen.
  { destruct Hwf as [_ ->]. rewrite chunk_tokens_concat.
    apply length_slice_in_range; lia. }
  assert (Forall (λ t, (0 < String.length t)%nat) (tokens c)) as Hpos.
  { destruct (well_framed_tokens text c Hwf) as [Hone|Hpos]; [|done].
    rewrite Hone in Hlen. simpl in Hlen. lia. }
  pose proof (length_concat_take_S _ _ _ Hj) as HS.
  pose proof (lookup_lt_Some _ _ _ Hj) as Hlt.
  assert (isLastTokenOfChunk (token_at c j t) = true
          ↔ S j = length (tokens c)) as ->.
  { unfold token_at, make_token. simpl. rewrite bool_decide_eq_true. lia. }
  assert (td_end (token_at c j t)
          = chunk_begin c
            + Z.of_nat (String.length (concat_tokens (take (S j) (tokens c)))))
    as -> by (unfold token_at, make_token; simpl; lia).
  rewrite <- is_boundary_sorted_spans. split.
  - intros ->. rewrite firstn_all.
    replace (chunk_begin c
             + Z.of_nat (String.length (concat_tokens (tokens c))))
      with (chunk_end c0) by lia.
    by apply chunk_bounds_are_boundaries.
  - intros Hx.
    destruct (chunkText_no_boundary_inside _ text c0 _ Hc0 Hx) as [_ Hout].
    pose proof (length_concat_take_le (tokens c) (S j)) as Hle.
    rewrite Forall_forall in Hpos.
    pose proof (Hpos t (list_elem_of_lookup_2 _ _ _ Hj)) as Htpos.
    assert (String.length (concat_tokens (drop (S j) (tokens c))) = 0%nat)
      as Hrest.
    { pose proof (f_equal (λ l, String.length (concat_tokens l))
                    (take_drop (S j) (tokens c))) as Heq.
      simpl in Heq. rewrite concat_tokens_app, length_append in Heq. lia. }
    destruct (drop (S j) (tokens c)) as [|u l] eqn:Hdrop.
    + apply (f_equal length) in Hdrop. rewrite length_drop in Hdrop.
      simpl in Hdrop. lia.
    + simpl in Hrest. rewrite length_append in Hrest.
      assert (0 < String.length u)%nat; [|lia].
      apply Hpos. rewrite <- (take_drop (S j) (tokens c)), elem_of_app.
      right. rewrite Hdrop. left.
Qed.

Lemma last_token_of_chunk_iff_witness :
  ∃ r, tokenize two_clusters "hello world" sample_styles = Ok r
       ∧ ∀ line td, line ∈ lines r → td ∈ line →
           isLastTokenOfChunk td = true
           ↔ is_boundary two_clusters "hello world" (td_end td).
Proof.
  eexists. split; [vm_compute; reflexivity|].
  apply (last_token_of_chunk_iff two_clusters "hello world" sample_styles).
  - exact in_range_two_clusters.
  - vm_compute; reflexivity.
Defined.

(** ** Tokens as slices of the text *)

Lemma token_at_in_range text c j t :
  well_framed text c → 0 <= chunk_begin c →
  chunk_end c <= Z.of_nat (String.length text) →
  tokens c !! j = Some t →
  (0 < String.length t)%nat
  ∧ td_end (token_at c j t) <= chunk_end c
  ∧ JS.slice text (td_begin (token_at c j t)) (td_end (token_at c j t)) = t.
Proof.
  intros [Hlt Htok] Hb He Hj. unfold token_at, make_token. simpl.
  pose proof (take_drop_middle (tokens c) j t Hj) as Hsplit.
  pose proof (chunk_tokens_concat (JS.slice text (chunk_begin c) (chunk_end c)))
    as Hconcat.
  rewrite <- Htok, <- Hsplit, concat_tokens_app in Hconcat. simpl in Hconcat.
  symmetry in Hconcat.
  destruct (slice_middle text (chunk_begin c) (chunk_end c) _ _ _
              ltac:(lia) He Hconcat) as [Hend Hslice].
  split_and!; [|done..].
  assert (JS.slice text (chunk_begin c) (chunk_end c) ≠ EmptyString) as Hne.
  { intros Hempty. apply (f_equal String.length) in Hempty.
    pose proof (length_slice_in_range text (chunk_begin c) (chunk_end c)) as Hl.
    rewrite Hempty in Hl. simpl in Hl. lia. }
  rewrite chunk_tokens_matches in Htok by done.
  pose proof (match_loop_tokens
                (String.length (JS.slice text (chunk_begin c) (chunk_end c)))
                (JS.slice text (chunk_begin c) (chunk_end c))) as Hall.
  fold (JS.match_tokens (JS.slice text (chunk_begin c) (chunk_end c))) in Hall.
  rewrite <- Htok, Forall_forall in Hall.
  apply is_token_nonempty, Hall. by eapply list_elem_of_lookup_2.
Qed.

Lemma styled_token_in_range spans text styles cs c j t :
  (∀ s, s ∈ spans →
     0 <= span_begin s <= span_end s
     ∧ span_end s <= Z.of_nat (String.length text)) →
  styled_chunks spans text styles = Ok cs → c ∈ cs →
  tokens c !! j = Some t →
  0 <= td_begin (token_at c j t) < td_end (token_at c j t)
  ∧ td_end (token_at c j t) <= Z.of_nat (String.length text)
  ∧ JS.slice text (td_begin (token_at c j t)) (td_end (token_at c j t)) = t.
Proof.
  intros Hspans Hcs Hc Hj.
  destruct (styled_chunks_well_framed _ _ _ _ Hcs) as [Hwf _].
  rewrite Forall_forall in Hwf. specialize (Hwf c Hc).
  destruct (styled_chunk_origin _ _ _ _ c Hcs Hc) as (c0 & Hc0 & Hb & He & _).
  destruct (chunkText_in_range _ text c0
              (in_range_sorted_spans spans text Hspans) Hc0)
    as (Hb0 & He0 & _).
  destruct (token_at_in_range text c j t Hwf) as (Hpos & Hend & Hslice);
    [lia..|done|].
  destruct (token_at_bounds text c j t Hwf Hj) as (Hin & _ & _).
  assert (td_end (token_at c j t)
          = td_begin (token_at c j t) + Z.of_nat (String.length t)) as Hlen
    by (unfold token_at, make_token; simpl; lia).
  split_and!; [lia..|done].
Qed.

(** For spans within the text, the [begin] and the [end] of a token are
    offsets into the text, and the text between them is the text of the
    token, which is not empty. *)
Theorem token_offsets (spans : list SpanData) (text : string)
    (styles : StyleTable) (r : Tokenized) :
  (∀ s, s ∈ spans →
     0 <= span_begin s <= span_end s
     ∧ span_end s <= Z.of_nat (String.length text)) →
  tokenize spans text styles = Ok r →
  ∀ line td, line ∈ lines r → td ∈ line →
    0 <= td_begin td < td_end td
    ∧ td_end td <= Z.of_nat (String.length text)
    ∧ JS.slice text (td_begin td) (td_end td) = td_text td.
Proof.
  intros Hspans (cs & Hcs & ->)%tokenize_Ok line td Hline Htd. simpl in Hline.
  destruct (tokenizeTextChunks_elem cs line td Hline Htd)
    as (c & j & t & Hc & Hj & -> & Hnl).
  by apply (styled_token_in_range spans text styles cs).
Qed.

Lemma token_offsets_witness :
  ∃ r, tokenize two_clusters "hello world" sample_styles = Ok r
       ∧ ∀ line td, line ∈ lines r → td ∈ line →
           0 <= td_begin td < td_end td
           ∧ td_end td <= Z.of_nat (String.length "hello world")
           ∧ JS.slice "hello world" (td_begin td) (td_end td) = td_text td.
Proof.
  eexists. split; [vm_compute; reflexivity|].
  apply (token_offsets two_clusters "hello world" sample_styles).
  - exact in_range_two_clusters.
  - vm_compute; reflexivity.
Defined.

(** ** The annotations of a token *)

(** The span contains the token. *)
Definition covers (td : TokenData) (s : SpanData) : Prop :=
  span_begin s <= td_begin td ∧ td_end td <= span_end s.
#[global] Instance covers_dec td s : Decision (covers td s).
Proof. unfold covers. apply _. Defined.

Lemma filter_iff_elem {A} (P Q : A → Prop) `{!∀ x, Decision (P x)}
    `{!∀ x, Decision (Q x)} (l : list A) :
  (∀ x, x ∈ l → P x ↔ Q x) → filter P l = filter Q l.
Proof.
  induction l as [|x l IH]; intros Hiff; [done|].
  rewrite !filter_cons, IH by (intros y Hy; apply Hiff; by right).
  destruct (Hiff x) as [H1 H2]; [left|].
  destruct (decide (P x)), (decide (Q x)); naive_solver.
Qed.

(** For spans within the text, a token carries one annotation for every
    span that contains it and no other, the annotation of the span that
    comes last in display order first.  Each annotation has the label,
    the style, the id, the flags and the text of its span, and is open to
    the left (to the right) when the chunk of the token does not begin
    (end) where the span does. *)
Theorem token_annotations_cover (spans : list SpanData) (text : string)
    (styles : StyleTable) (r : Tokenized) :
  (∀ s, s ∈ spans →
     0 <= span_begin s <= span_end s
     ∧ span_end s <= Z.of_nat (String.length text)) →
  tokenize spans text styles = Ok r →
  ∀ line td, line ∈ lines r → td ∈ line →
    ∃ c, c ∈ chunkText (sorted_spans spans text) text
         ∧ chunk_begin c <= td_begin td ∧ td_end td <= chunk_end c
         ∧ Forall2 (annotation_of c) (td_token_annotations td)
             (rev (filter (λ s : TextSpan, covers td s)
                     (sorted_spans spans text))).
Proof.
  intros Hspans (cs & Hcs & ->)%tokenize_Ok line td Hline Htd. simpl in Hline.
  destruct (tokenizeTextChunks_elem cs line td Hline Htd)
    as (c & j & t & Hc & Hj & -> & Hnl).
  destruct (styled_token_in_range spans text styles cs c j t Hspans Hcs Hc Hj)
    as (Hpos & _ & _).
  destruct (styled_chunks_well_framed _ _ _ _ Hcs) as [Hwf _].
  rewrite Forall_forall in Hwf.
  destruct (token_at_bounds text c j t (Hwf c Hc) Hj) as (Hin & Hend & _).
  destruct (styled_chunk_origin _ _ _ _ c Hcs Hc) as (c0 & Hc0 & Hb & He & Ht).
  exists c0. split_and!; [done|lia..|].
  apply list_elem_of_lookup_1 in Hc as [i Hi].
  pose proof (styleTextChunks_provenance styles _ _ cs
                (chunkText_fresh _ _) Hcs i c Hi) as Hprov.
  assert (frame c0 = frame c) as Hframe by (unfold frame; congruence).
  apply (Forall2_annotation_of_frame c c0 _ _ Hframe) in Hprov.
  assert (overlapping c (sorted_spans spans text)
          = filter (λ s : TextSpan, covers (token_at c j t) s)
              (sorted_spans spans text)) as <-; [|done].
  apply filter_iff_elem. intros s Hs.
  assert (overlaps c s ↔ overlaps c0 s) as ->
    by (unfold overlaps; by rewrite Hb, He).
  split.
  - intros Ho%(chunkText_overlaps_iff _ text c0 s Hc0 Hs). unfold covers. lia.
  - unfold covers, overlaps. lia.
Qed.

Lemma token_annotations_cover_witness :
  ∃ r, tokenize two_clusters "hello world" sample_styles = Ok r
       ∧ ∀ line td, line ∈ lines r → td ∈ line →
           ∃ c, c ∈ chunkText (sorted_spans two_clusters "hello world")
                      "hello world"
                ∧ chunk_begin c <= td_begin td ∧ td_end td <= chunk_end c
                ∧ Forall2 (annotation_of c) (td_token_annotations td)
                    (rev (filter (λ s : TextSpan, covers td s)
                            (sorted_spans two_clusters "hello world"))).
Proof.
  eexists. split; [vm_compute; reflexivity|].
  apply (token_annotations_cover two_clusters "hello world" sample_styles).
  - exact in_range_two_clusters.
  - vm_compute; reflexivity.
Defined.

(** ** The labels of the chunks *)

Section Labels.
Context (styles : StyleTable).
Implicit Types (s : TextSpan) (c : TextChunk) (cs : list TextChunk).
Implicit Types (loc : SpanLocals) (st : Layout).

(** The span begins with the chunk. *)
Definition starts c (s : SpanData) : Prop :=
  overlaps c s ∧ chunk_begin c = span_begin s.
#[global] Instance starts_dec c s : Decision (starts c s).
Proof. unfold starts. apply _. Defined.

(** The label of the last of the spans that begin with the chunk. *)
Definition starting_label c (spans : list TextSpan) : option string :=
  match rev (filter (λ s : TextSpan, starts c s) spans) with
  | s :: _ => span_label s
  | [] => None
  end.

Definition labelled (processed : list TextSpan) cs : Prop :=
  ∀ c, c ∈ cs → chunk_label c = starting_label c processed.

Lemma starting_label_frame c c' spans :
  frame c' = frame c → starting_label c' spans = starting_label c spans.
Proof.
  unfold frame. intros [= Hb He _]. unfold starting_label.
  rewrite (list_filter_iff (λ s : TextSpan, starts c' s)
             (λ s : TextSpan, starts c s)); [done|].
  intros s. unfold starts, overlaps. by rewrite Hb, He.
Qed.

Lemma labelled_flush processed st cs :
  labelled processed cs →
  labelled processed (reverseUnderlineClusterDepths styles st cs).
Proof.
  intros Hl c' [i Hi]%list_elem_of_lookup_1.
  rewrite reverseUnderlineClusterDepths_lookup in Hi.
  destruct (cs !! i) as [c|] eqn:Hc; [|done]. simplify_eq/=.
  rewrite (starting_label_frame c) by apply frame_flush_chunk.
  rewrite <- (Hl c) by by eapply list_elem_of_lookup_2.
  unfold flush_chunk. by case_decide.
Qed.

Lemma labelled_annotate processed s loc cs :
  labelled processed cs → labelled (processed ++ [s]) (annotate s loc <$> cs).
Proof.
  intros Hl c' (c & -> & Hc)%list_elem_of_fmap.
  rewrite (starting_label_frame c) by apply frame_annotate.
  unfold starting_label. rewrite filter_app, rev_app_distr.
  rewrite filter_cons, filter_nil. specialize (Hl c Hc).
  unfold starting_label in Hl. unfold annotate, starts.
  destruct (decide (overlaps c s)) as [Ho|Ho].
  - destruct (decide (chunk_begin c = span_begin s)) as [Hb|Hb].
    + by rewrite decide_True.
    + rewrite decide_False by tauto. done.
  - rewrite decide_False by tauto. done.
Qed.

Lemma labelled_forEach spans : ∀ processed acc acc',
  labelled processed acc.1 →
  forEach (style_span styles) spans acc = Ok acc' →
  labelled (processed ++ spans) acc'.1.
Proof.
  induction spans as [|s spans IH]; intros processed [cs st] acc' Hl; simpl.
  - intros [= <-]. by rewrite app_nil_r.
  - rewrite style_span_closed.
    destruct (span_locals _ _ _) as [loc|]; [|done]. simpl.
    intros Hrest.
    rewrite (assoc_L _ processed [s] spans : processed ++ s :: spans = _).
    eapply IH; [|done]. simpl. apply labelled_annotate.
    unfold open_cluster. repeat case_decide; simpl; [|done..].
    by apply labelled_flush.
Qed.
End Labels.

(** After the layout, the label of a chunk is the label of the last span,
    in the order in which the spans were given, that overlaps the chunk
    and begins where the chunk begins; it is still null when no span
    does. *)
Theorem styleTextChunks_labels (text_chunks : list TextChunk)
    (spans : list TextSpan) (styles : StyleTable) (cs : list TextChunk) :
  Forall (λ c, chunk_label c = None) text_chunks →
  styleTextChunks_ text_chunks spans styles = Ok cs →
  ∀ c, c ∈ cs →
    chunk_label c
    = match rev (filter (λ s : TextSpan,
                           overlaps c s ∧ chunk_begin c = span_begin s) spans) with
      | s :: _ => span_label s
      | [] => None
      end.
Proof.
  intros Hnone. unfold styleTextChunks_.
  destruct (forEach _ _ _) as [[cs1 st1]|] eqn:Hwalk; [|done]. simpl.
  intros [= <-]. apply (labelled_flush styles spans).
  apply (labelled_forEach styles spans [] (text_chunks, initial_layout)
           (cs1, st1)) in Hwalk; [done|].
  intros c Hc. simpl. rewrite Forall_forall in Hnone. by apply Hnone.
Qed.

Definition with_label (l : string) (s : SpanData) : SpanData :=
  {| span_begin := span_begin s; span_end := span_end s;
     span_mouseSelected := span_mouseSelected s; span_id := span_id s;
     span_label := Some l; span_style := span_style s;
     span_selected := span_selected s; span_highlighted := span_highlighted s |}.

Definition named_spans : list TextSpan :=
  attach_text "hello world"
    <$> [with_label "outer" (span 0 5 false "a" "box");
         with_label "inner" (span 0 2 false "b" "box");
         with_label "late" (span 3 8 false "c" "under")].

Lemma styleTextChunks_labels_witness :
  ∃ cs, styleTextChunks_ (chunkText named_spans "hello world")
          named_spans sample_styles = Ok cs
        ∧ chunk_label <$> cs
          = [Some "inner"; None; Some "late"; None; None]
        ∧ ∀ c, c ∈ cs →
            chunk_label c
            = match rev (filter (λ s : TextSpan,
                                   overlaps c s ∧ chunk_begin c = span_begin s)
                           named_spans) with
              | s :: _ => span_label s
              | [] => None
              end.
Proof.
  eexists. split; [vm_compute; reflexivity|]. split; [reflexivity|].
  apply (styleTextChunks_labels (chunkText named_spans "hello world")
           named_spans sample_styles).
  - by repeat constructor.
  - vm_compute; reflexivity.
Defined.

(** ** One line per line of the text *)

(** The number of newline characters of a string. *)
Fixpoint count_newlines (s : string) : nat :=
  match s with
  | EmptyString => 0
  | String c s' =>
      ((if Ascii.eqb c JS.newline then 1 else 0) + count_newlines s')%nat
  end.

Lemma count_newlines_app (s1 s2 : string) :
  count_newlines (s1 +:+ s2) = (count_newlines s1 + count_newlines s2)%nat.
Proof.
  induction s1 as [|c s1 IH]; [done|]. rewrite append_cons. simpl. rewrite IH. lia.
Qed.

Lemma count_newlines_run p (s : string) :
  (∀ c, p c = true → Ascii.eqb c JS.newline = false) →
  all_chars p s = true → count_newlines s = 0%nat.
Proof.
  intros Hp. induction s as [|c s IH]; [done|]. simpl.
  intros [Hc Hs]%andb_true_iff. by rewrite (Hp c Hc), IH.
Qed.

Lemma space_not_newline c : JS.is_space c = true → Ascii.eqb c JS.newline = false.
Proof. unfold JS.is_space. by intros ->%Ascii.eqb_eq. Qed.

Lemma word_char_not_newline c :
  JS.is_word_char c = true → Ascii.eqb c JS.newline = false.
Proof.
  unfold JS.is_word_char. intros [_ H]%andb_true_iff.
  by destruct (Ascii.eqb c JS.newline).
Qed.

Lemma count_newlines_token t :
  t = EmptyString ∨ is_token t →
  count_newlines t = if decide (is_newline t) then 1%nat else 0%nat.
Proof.
  intros [->|[->|[[Hne Hs]|[Hne Hw]]]].
  - by rewrite decide_False.
  - by rewrite decide_True.
  - rewrite (count_newlines_run _ t space_not_newline Hs).
    case_decide as Hnl; [|done]. rewrite Hnl in Hs. done.
  - rewrite (count_newlines_run _ t word_char_not_newline Hw).
    case_decide as Hnl; [|done]. rewrite Hnl in Hw. done.
Qed.

Lemma count_newlines_tokens (l : list string) :
  Forall (λ t, t = EmptyString ∨ is_token t) l →
  count_newlines (concat_tokens l) = length (filter is_newline l).
Proof.
  induction 1 as [|t l Ht _ IH]; [done|]. simpl.
  rewrite count_newlines_app, IH, (count_newlines_token t Ht), filter_cons.
  by case_decide.
Qed.

Lemma well_framed_token_classes text c :
  well_framed text c → Forall (λ t, t = EmptyString ∨ is_token t) (tokens c).
Proof.
  intros [_ ->].
  destruct (decide (JS.slice text (chunk_begin c) (chunk_end c) = EmptyString))
    as [->|Hne]; [by repeat constructor; left|].
  rewrite chunk_tokens_matches by done.
  eapply Forall_impl; [apply match_loop_tokens|]. by right.
Qed.

Lemma all_tokens_classes text cs :
  Forall (well_framed text) cs →
  Forall (λ t, t = EmptyString ∨ is_token t) (all_tokens cs).
Proof.
  unfold all_tokens. induction 1 as [|c cs Hc _ IH]; [constructor|]. simpl.
  apply Forall_app. split; [by eapply well_framed_token_classes|done].
Qed.

(** A token of the result is never a newline and never holds one: its
    text is a run of spaces, or a run of characters that are neither
    spaces nor newlines, or (for a chunk outside of the text) empty. *)
Theorem token_texts_are_runs (spans : list SpanData) (text : string)
    (styles : StyleTable) (r : Tokenized) :
  tokenize spans text styles = Ok r →
  ∀ line td, line ∈ lines r → td ∈ line →
    td_text td = EmptyString
    ∨ all_chars JS.is_space (td_text td) = true
    ∨ all_chars JS.is_word_char (td_text td) = true.
Proof.
  intros (cs & Hcs & ->)%tokenize_Ok line td Hline Htd. simpl in Hline.
  destruct (tokenizeTextChunks_elem cs line td Hline Htd)
    as (c & j & t & Hc & Hj & -> & Hnl).
  destruct (styled_chunks_well_framed _ _ _ _ Hcs) as [Hwf _].
  rewrite Forall_forall in Hwf.
  pose proof (well_framed_token_classes text c (Hwf c Hc)) as Hall.
  rewrite Forall_forall in Hall.
  destruct (Hall t (list_elem_of_lookup_2 _ _ _ Hj))
    as [->|[->|[[_ Hs]|[_ Hw]]]]; simpl; auto.
  by destruct Hnl.
Qed.

Lemma token_texts_are_runs_witness :
  ∃ r, tokenize two_clusters "hello world" sample_styles = Ok r
       ∧ ∀ line td, line ∈ lines r → td ∈ line →
           td_text td = EmptyString
           ∨ all_chars JS.is_space (td_text td) = true
           ∨ all_chars JS.is_word_char (td_text td) = true.
Proof.
  eexists. split; [vm_compute; reflexivity|].
  apply (token_texts_are_runs two_clusters "hello world" sample_styles).
  vm_compute; reflexivity.
Defined.

(** A text and spans that are not all empty give one line per line of
    the text: one more line than the text has newline characters.  This
    holds for spans at offsets that are not negative. *)
Theorem tokenize_line_count (spans : list SpanData) (text : string)
    (styles : StyleTable) (r : Tokenized) :
  (∀ s, s ∈ spans → 0 <= span_begin s ∧ 0 <= span_end s) →
  tokenize spans text styles = Ok r →
  lines r ≠ [] →
  length (lines r) = S (count_newlines text).
Proof.
  intros Hspans (cs & Hcs & ->)%tokenize_Ok. simpl. intros Hlines.
  pose proof (styled_chunks_tokens_nonempty _ _ _ _ Hcs) as Htokens.
  destruct (styled_chunks_well_framed _ _ _ _ Hcs) as [Hwf _].
  assert (cs ≠ []) as Hne by (intros ->; by apply Hlines).
  destruct (tokenizeTextChunks_final cs Hne Htokens) as [-> _].
  destruct (split_chunks_spec cs initial_lines) as (_ & _ & Hlen & _).
  simpl in Hlen. rewrite length_app, Hlen. simpl.
  rewrite <- (count_newlines_tokens _ (all_tokens_classes text cs Hwf)).
  rewrite (frame_all_tokens cs _ (styled_chunks_frame _ _ _ _ Hcs)).
  rewrite chunkText_concat; [lia|]. intros s. unfold sorted_spans.
  intros (s0 & -> & Hs0)%list_elem_of_fmap. rewrite sort_perm in Hs0.
  by apply Hspans.
Qed.

Definition two_lines : string :=
  String "a" (String "b" (String JS.newline (String "c" EmptyString))).

Lemma tokenize_line_count_witness :
  ∃ r, tokenize [span 1 3 false "a" "box"] two_lines sample_styles = Ok r
       ∧ length (lines r) = 2%nat.
Proof.
  eexists. split; [vm_compute; reflexivity|].
  apply (tokenize_line_count [span 1 3 false "a" "box"] two_lines sample_styles).
  - intros s ->%list_elem_of_singleton. simpl. lia.
  - vm_compute; reflexivity.
  - vm_compute. discriminate.
Defined.

(** ** The keys of the tokens *)

Definition is_digit (c : ascii) : bool :=
  bool_decide (c ∈ ["0"; "1"; "2"; "3"; "4"; "5"; "6"; "7"; "8"; "9"]%char).

Lemma pretty_N_char_digit x : is_digit (pretty_N_char x) = true.
Proof. unfold pretty_N_char. by repeat case_match. Qed.

Lemma pretty_N_go_digits x : ∀ s,
  all_chars is_digit s = true → all_chars is_digit (pretty_N_go x s) = true.
Proof.
  induction (N.lt_wf_0 x) as [x _ IH]; intros s Hs.
  assert (x = 0 ∨ 0 < x)%N as [->|?] by lia.
  - by rewrite pretty_N_go_0.
  - rewrite pretty_N_go_step by done. apply IH.
    { by apply N.div_lt. }
    simpl. by rewrite pretty_N_char_digit, Hs.
Qed.

Lemma pretty_N_digits (x : N) : all_chars is_digit (pretty x) = true.
Proof.
  unfold pretty, pretty_N. case_decide; [done|]. by apply pretty_N_go_digits.
Qed.

Lemma pretty_N_go_nonempty x : ∀ s,
  s ≠ EmptyString → pretty_N_go x s ≠ EmptyString.
Proof.
  induction (N.lt_wf_0 x) as [x _ IH]; intros s Hs.
  assert (x = 0 ∨ 0 < x)%N as [->|?] by lia.
  - by rewrite pretty_N_go_0.
  - rewrite pretty_N_go_step by done. apply IH; [by apply N.div_lt|done].
Qed.

Lemma pretty_N_nonempty (x : N) : pretty x ≠ EmptyString.
Proof.
  unfold pretty, pretty_N. case_decide; [done|].
  assert (0 < x)%N by lia. rewrite pretty_N_go_step by done.
  by apply pretty_N_go_nonempty.
Qed.

(** A decimal numeral: an optional minus sign and at least one digit. *)
Lemma pretty_Z_digits (z : Z) :
  ∃ c d, is_digit c = true ∧ all_chars is_digit d = true
         ∧ (pretty z = String c d ∨ pretty z = String "-" (String c d)).
Proof.
  assert (∀ x : N, ∃ c d, is_digit c = true ∧ all_chars is_digit d = true
                          ∧ pretty x = String c d) as HN.
  { intros x. pose proof (pretty_N_digits x) as Hd.
    pose proof (pretty_N_nonempty x) as Hne.
    destruct (pretty x) as [|c d]; [done|]. simpl in Hd.
    apply andb_true_iff in Hd as [Hc Hd]. eauto. }
  destruct z as [|p|p]; unfold pretty at 1 2, pretty_Z.
  - exists "0"%char, EmptyString. split_and!; [done..|by left].
  - destruct (HN (Npos p)) as (c & d & Hc & Hd & Heq).
    exists c, d. split_and!; [done..|by left].
  - destruct (HN (Npos p)) as (c & d & Hc & Hd & Heq).
    exists c, d. split_and!; [done..|right].
    change (pretty p) with (pretty (Npos p)). by rewrite Heq.
Qed.

Lemma digits_before_dash (d1 d2 r1 r2 : string) :
  all_chars is_digit d1 = true → all_chars is_digit d2 = true →
  d1 +:+ String "-" r1 = d2 +:+ String "-" r2 → d1 = d2.
Proof.
  revert d2. induction d1 as [|c1 d1 IH]; intros [|c2 d2]; simpl; try done.
  - intros _ [Hc _]%andb_true_iff. rewrite append_cons. intros [= <- _]. done.
  - intros [Hc _]%andb_true_iff _. rewrite append_cons. intros [= -> _]. done.
  - intros [_ H1]%andb_true_iff [_ H2]%andb_true_iff.
    rewrite !append_cons. intros [= -> Heq]. f_equal. by eapply IH.
Qed.

(** The text before the separator of a key tells the [begin]. *)
Lemma key_prefix_inj (b1 b2 : Z) (r1 r2 : string) :
  pretty b1 +:+ String "-" r1 = pretty b2 +:+ String "-" r2 → b1 = b2.
Proof.
  intros Heq. apply (inj pretty).
  destruct (pretty_Z_digits b1) as (c1 & d1 & Hc1 & Hd1 & [H1|H1]),
           (pretty_Z_digits b2) as (c2 & d2 & Hc2 & Hd2 & [H2|H2]);
    rewrite H1, H2 in *; rewrite ?append_cons in Heq.
  - injection Heq as -> Heq. by rewrite (digits_before_dash d1 d2 r1 r2).
  - injection Heq as -> _. done.
  - injection Heq as <- _. done.
  - injection Heq as -> Heq. by rewrite (digits_before_dash d1 d2 r1 r2).
Qed.

Lemma StronglySorted_NoDup_fmap {A B} (R : A → A → Prop) (g : A → B)
    (l : list A) :
  (∀ x y, x ∈ l → y ∈ l → R x y → g x ≠ g y) →
  StronglySorted R l → NoDup (g <$> l).
Proof.
  intros Hg. induction 1 as [|x l Hs IH Hx]; [constructor|].
  rewrite fmap_cons. constructor.
  - intros (y & Heq & Hy)%list_elem_of_fmap. rewrite Forall_forall in Hx.
    apply (Hg x y); [left|by right|by apply Hx|done].
  - apply IH. intros y z Hy Hz. apply Hg; by right.
Qed.

Lemma tokenize_tokens_before spans text styles cs :
  styled_chunks spans text styles = Ok cs →
  StronglySorted token_before (concat (tokenizeTextChunks cs)).
Proof.
  intros Hcs. rewrite concat_tokenizeTextChunks.
  destruct (styled_chunks_well_framed _ _ _ _ Hcs) as [Hwf Hsorted].
  apply StronglySorted_filter. by apply (all_tokens_of_sorted text).
Qed.

(** For safe offsets, the [key] of every token of the result is its
    [begin] and its [end] in decimal numerals with a dash between them,
    and no two tokens of the result have the same [key]. *)
Theorem token_keys_unique (spans : list SpanData) (text : string)
    (styles : StyleTable) (r : Tokenized) :
  safe_offsets spans text →
  tokenize spans text styles = Ok r →
  Forall (λ td, key td = decimal (td_begin td) +:+ "-" +:+ decimal (td_end td))
    (concat (lines r))
  ∧ NoDup (key <$> concat (lines r)).
Proof.
  intros _ (cs & Hcs & ->)%tokenize_Ok. simpl. split.
  { apply Forall_forall. intros td (line & Hline & Htd)%elem_of_concat.
    destruct (tokenizeTextChunks_elem cs line td Hline Htd)
      as (c & j & t & _ & _ & -> & _).
    by rewrite token_at_token_data. }
  apply (StronglySorted_NoDup_fmap token_before);
    [|by eapply tokenize_tokens_before].
  intros a b Ha Hb [_ Hlt] Hkey.
  assert (∀ td, td ∈ concat (tokenizeTextChunks cs) →
            key td = pretty (td_begin td)
                       +:+ String "-" (pretty (td_end td))) as Hshape.
  { intros td (line & Hline & Htd)%elem_of_concat.
    by destruct (tokenizeTextChunks_elem cs line td Hline Htd)
      as (c & j & t & _ & _ & -> & _). }
  rewrite (Hshape a Ha), (Hshape b Hb) in Hkey.
  apply key_prefix_inj in Hkey. lia.
Qed.

Lemma token_keys_unique_witness :
  ∃ r, tokenize two_clusters "hello world" sample_styles = Ok r
       ∧ Forall (λ td, key td = decimal (td_begin td) +:+ "-"
                                  +:+ decimal (td_end td))
           (concat (lines r))
       ∧ NoDup (key <$> concat (lines r)).
Proof.
  eexists. split; [vm_compute; reflexivity|].
  apply (token_keys_unique two_clusters "hello world" sample_styles).
  - apply two_clusters_safe.
  - vm_compute; reflexivity.
Defined.

(** ** The order in which the spans are given *)

Lemma compare_spans_antisym (a b : SpanData) :
  compare_spans a b <= 0 → compare_spans b a <= 0 → same_rank a b.
Proof.
  unfold compare_spans, same_rank.
  destruct (span_mouseSelected a), (span_mouseSelected b);
    repeat case_decide; try done; intros; split_and!; (done || lia).
Qed.

(** The result does not depend on the order in which the caller lists
    the spans, as long as no two different spans have the same
    [mouseSelected], [begin] and [end]. *)
Theorem tokenize_order_independent (spans spans' : list SpanData)
    (text : string) (styles : StyleTable) :
  spans ≡ₚ spans' →
  (∀ a b, a ∈ spans → b ∈ spans → same_rank a b → a = b) →
  tokenize spans text styles = tokenize spans' text styles.
Proof.
  intros Hperm Hdistinct.
  assert (JS.sort compare_spans spans = JS.sort compare_spans spans') as Hsort.
  { apply (StronglySorted_unique_strong (λ a b, compare_spans a b <= 0)).
    - intros a b Ha Hb Hab Hba. apply Hdistinct.
      + by rewrite sort_perm in Ha.
      + by rewrite sort_perm, <- Hperm in Hb.
      + by apply compare_spans_antisym.
    - apply sort_spans_sorted.
    - apply sort_spans_sorted.
    - by rewrite !sort_perm. }
  unfold tokenize, tokenize_array. simpl. by rewrite Hsort.
Qed.

Lemma tokenize_order_independent_witness :
  tokenize unsorted "hello world" sample_styles
  = tokenize (reverse unsorted) "hello world" sample_styles.
Proof.
  apply (tokenize_order_independent unsorted (reverse unsorted)).
  - by rewrite reverse_Permutation.
  - unfold unsorted. intros a b. rewrite !elem_of_cons, !elem_of_nil.
    intros [->|[->|[]]] [->|[->|[]]] (_ & Hb & _); (done || by simpl in Hb).
Defined.

(** ** Further theorems at sample inputs *)

Lemma opted_out_annotations_witness :
  ∃ r, tokenize opted_out "hello world" sample_styles = Ok r
       ∧ ∀ line td a,
           line ∈ lines r → td ∈ line → a ∈ td_token_annotations td →
           opts_out sample_styles a →
           zIndex a = None
           ∧ (is_underline sample_styles (ann_style a) = false → depth a = None).
Proof.
  eexists. split; [vm_compute; reflexivity|].
  apply (opted_out_annotations opted_out "hello world" sample_styles).
  vm_compute; reflexivity.
Defined.

Lemma depth_consistency_witness :
  ∃ cs, styled_chunks revisited "hello world" sample_styles = Ok cs
        ∧ ∃ ps : list Assigned,
            fst <$> ps = sorted_spans revisited "hello world"
            ∧ ∀ c, c ∈ cs →
                Forall2 (instance_of sample_styles c) (token_annotations c)
                  (rev (filter (λ p : Assigned, overlaps c p.1) ps)).
Proof.
  eexists. split; [vm_compute; reflexivity|].
  apply (depth_consistency revisited "hello world" sample_styles).
  vm_compute; reflexivity.
Defined.
